(** * Computational-geometry toolkit: a shallow embedding and its properties

    Source: projects/sudoku/template/geometry_algorithms.cpp.

    Coordinates.  The source computes on [double].  The embedding takes
    points with integer coordinates and evaluates every arithmetic
    expression exactly in [Z].  The two agree on the points of
    [bounded_point], whose coordinates have magnitude at most 2^24: every
    difference, product and sum that [cross], [distSq] and the lambda
    [orientation] form is then an integer of magnitude at most 2^51
    (lemmas [cross_fits], [distSq_fits], [orientation_val_fits]), which
    binary64 holds and computes without rounding.  On integers the
    tolerance test [fabs(c) < 1e-9] is the test [c = 0].  Square roots
    are kept symbolic (type [dist]): the rounded root is monotone, and
    for an integer [v] and a squared distance [d2 <= 2^51] the test
    [v < sqrt(d2)] on doubles is the test [v * v < d2].  The quotient of
    the ray-casting test of [isPointInPolygon] is taken in [Q]: the
    exact quotient differs from an integer by at least 2^-25 or not at
    all, more than its rounding moves it (lemma [edge_quotient_fits]).
    Delaunay triangulation, which halves the bounding box, is modelled
    over [Q].

    Every theorem whose conclusion depends on this arithmetic and that
    speaks of all inputs assumes [bounded_point] of them; outside this
    range the doubles round and the theorems say nothing.  In the same
    way the [int] sizes and indices of the source are integers of [Z],
    and the theorems that depend on them bound the size of the vector
    (at most 2^30 elements, lemmas [grow_m_fits], [index_sum_fits]).

    Vectors are lists; [pts[i]] is [nth i pts origin], always used in
    range.  A function that takes its vector by mutable reference returns
    the final contents of that vector next to its result. *)

From Stdlib Require Import ZArith List Lia Bool Permutation Sorted QArith Lqa.
Import ListNotations.
Local Open Scope Z_scope.

(** ** Points and primitives *)

(** [struct Point { double x, y; }] *)
Record Point : Type := mkPoint { px : Z; py : Z }.

Definition origin : Point := mkPoint 0 0.

Definition Point_eqb (a b : Point) : bool :=
  (px a =? px b) && (py a =? py b).

(** [cross(O, A, B)]: positive for a counter-clockwise turn O -> A -> B. *)
Definition cross (O A B : Point) : Z :=
  (px A - px O) * (py B - py O) - (py A - py O) * (px B - px O).

(** [distSq(A, B)] *)
Definition distSq (A B : Point) : Z :=
  let dx := px A - px B in
  let dy := py A - py B in
  dx * dx + dy * dy.

(** [fabs(c) < 1e-9] for an integer-valued [c], computed without
    rounding (on bounded points). *)
Definition near_zero (c : Z) : bool := c =? 0.

(** The range of the coordinates on which the [double] arithmetic of the
    source is exact. *)
Definition coord_max : Z := 2 ^ 24.

Definition bounded_point (p : Point) : Prop :=
  Z.abs (px p) <= coord_max /\ Z.abs (py p) <= coord_max.

(** ** Vectors *)

Definition at_ (pts : list Point) (i : nat) : Point := nth i pts origin.

(** [swap(pts[i], pts[j])], both indices in range. *)
Fixpoint set_nth {A : Type} (pts : list A) (i : nat) (v : A) : list A :=
  match pts, i with
  | [], _ => []
  | _ :: l, O => v :: l
  | a :: l, S i' => a :: set_nth l i' v
  end.

Definition swap (pts : list Point) (i j : nat) : list Point :=
  set_nth (set_nth pts i (at_ pts j)) j (at_ pts i).

(** [std::sort] with a strict comparator [lt].  The standard leaves the
    order of equivalent elements open; [std_sort] is one admissible
    implementation (insertion, stable). *)
Section Sort.
Context {A : Type} (lt : A -> A -> bool).

Fixpoint insert (a : A) (l : list A) : list A :=
  match l with
  | [] => [a]
  | b :: l' => if lt b a then b :: insert a l' else a :: l
  end.

Fixpoint std_sort (l : list A) : list A :=
  match l with
  | [] => []
  | a :: l' => insert a (std_sort l')
  end.
End Sort.

(** ** Convex hull: Graham scan *)

(** The comparison of the loop at lines 34-39: is [a] lower than [b]
    (lower y, then lower x)? *)
Definition lower (a b : Point) : bool :=
  (py a <? py b) || ((py a =? py b) && (px a <? px b)).

Definition find_lowest (pts : list Point) : nat :=
  fold_left (fun lowest i => if lower (at_ pts i) (at_ pts lowest) then i else lowest)
            (seq 1 (length pts - 1)) O.

(** The comparator of the polar sort around [pivot]. *)
Definition polar_lt (pivot a b : Point) : bool :=
  let c := cross pivot a b in
  if near_zero c then distSq pivot a <? distSq pivot b else 0 <? c.

(** Lines 52-59 on [l = pts[1..n-1]]: [pts[i]] is pushed exactly when it
    is the last element or is not collinear (through the pivot) with
    [pts[i+1]]. *)
Fixpoint filter_collinear (pivot : Point) (l : list Point) : list Point :=
  match l with
  | [] => []
  | a :: l' =>
      match l' with
      | [] => [a]
      | b :: _ => if near_zero (cross pivot a b)
                  then filter_collinear pivot l'
                  else a :: filter_collinear pivot l'
      end
  end.

(** The stack [hull] is kept with its top first.  [pop_nonleft st p] is
    the inner while loop of lines 63-66. *)
Fixpoint pop_nonleft (st : list Point) (p : Point) : list Point :=
  match st with
  | b :: st' =>
      match st' with
      | a :: _ => if cross a b p <=? 0 then pop_nonleft st' p else st
      | [] => st
      end
  | [] => st
  end.

Definition scan_step (st : list Point) (p : Point) : list Point :=
  p :: pop_nonleft st p.

Definition graham_scan (filtered : list Point) : list Point :=
  rev (fold_left scan_step filtered []).

(** [convexHullGraham(pts)]: the pair of the caller's vector after the
    call and the returned hull. *)
Definition convexHullGraham (pts : list Point) : list Point * list Point :=
  if (length pts <? 3)%nat then (pts, pts)
  else
    let pts1 := swap pts 0 (find_lowest pts) in
    let pivot := at_ pts1 0 in
    let pts2 := firstn 1 pts1 ++ std_sort (polar_lt pivot) (skipn 1 pts1) in
    let filtered := at_ pts2 0 :: filter_collinear pivot (skipn 1 pts2) in
    (pts2, graham_scan filtered).

Definition hullGraham (pts : list Point) : list Point := snd (convexHullGraham pts).

(** ** Convex hull: Jarvis march *)

Definition find_leftmost (pts : list Point) : nat :=
  fold_left (fun leftmost i => if px (at_ pts i) <? px (at_ pts leftmost) then i else leftmost)
            (seq 1 (length pts - 1)) O.

(** The body of the inner [for] loop (lines 90-97): the new value of [q]. *)
Definition jarvis_pick (pts : list Point) (p q i : nat) : nat :=
  let c := cross (at_ pts p) (at_ pts q) (at_ pts i) in
  if (c <? 0) || (near_zero c &&
                  (distSq (at_ pts p) (at_ pts q) <? distSq (at_ pts p) (at_ pts i)))
  then i else q.

Definition jarvis_next (pts : list Point) (p : nat) : nat :=
  fold_left (jarvis_pick pts p) (seq 0 (length pts)) ((p + 1) mod length pts)%nat.

(** The variables live across the [do ... while] loop.  [jv_pts] is the
    caller's vector, reached through the reference parameter. *)
Record jarvis_state : Type :=
  mkJarvis { jv_pts : list Point; jv_hull : list Point; jv_p : nat }.

(** One pass through the body of the [do ... while] loop (lines 88-98). *)
Definition jarvis_body (st : jarvis_state) : jarvis_state :=
  {| jv_pts := jv_pts st;
     jv_hull := jv_hull st ++ [at_ (jv_pts st) (jv_p st)];
     jv_p := jarvis_next (jv_pts st) (jv_p st) |}.

(** The loop, with [fuel] bounding the number of passes: [None] when the
    march has not come back to [leftmost] within [fuel] passes. *)
Fixpoint jarvis_loop (fuel : nat) (leftmost : nat) (st : jarvis_state)
  : option jarvis_state :=
  match fuel with
  | O => None
  | S fuel' =>
      let st' := jarvis_body st in
      if (jv_p st' =? leftmost)%nat then Some st'
      else jarvis_loop fuel' leftmost st'
  end.

Definition jarvis_init (pts : list Point) : jarvis_state :=
  {| jv_pts := pts; jv_hull := []; jv_p := find_leftmost pts |}.

(** [convexHullJarvis(pts)]: the caller's vector after the call and the
    returned hull, when the march closes within [fuel] passes. *)
Definition convexHullJarvis (fuel : nat) (pts : list Point)
  : option (list Point * list Point) :=
  if (length pts <? 3)%nat then Some (pts, pts)
  else
    match jarvis_loop fuel (find_leftmost pts) (jarvis_init pts) with
    | Some st => Some (jv_pts st, jv_hull st)
    | None => None
    end.

(** ** Convex hull: Chan's algorithm *)

(** A point of the merging march: a point of the input, or the sentinel
    [{infinity, infinity}] that [nextPoint] starts from. *)
Inductive EPoint : Type :=
| Fin (p : Point)
| Infinity.

Definition EPoint_eqb (a b : EPoint) : bool :=
  match a, b with
  | Fin p, Fin q => Point_eqb p q
  | Infinity, Infinity => true
  | _, _ => false
  end.

(** The comparator of the lexicographic sort (line 112). *)
Definition lex_lt (a b : Point) : bool :=
  (px a <? px b) || ((px a =? px b) && (py a <? py b)).

(** [while (m*m < n) m *= 2;] -- [m] doubles, so [fuel] passes suffice
    as soon as [n <= 4 ^ fuel].  The [int] product [m*m] fits as long as
    the vector has at most 2^30 elements. *)
Fixpoint grow_m (fuel : nat) (n m : Z) : Z :=
  match fuel with
  | O => m
  | S fuel' => if m * m <? n then grow_m fuel' n (2 * m) else m
  end.

(** Lines 119-127: the Graham hull of each group of at most [m] points. *)
Definition group_hulls (pts : list Point) (n m : Z) : list (list Point) :=
  let numGroups := (n + m - 1) / m in
  map (fun i => hullGraham (firstn (Z.to_nat m) (skipn (i * Z.to_nat m) pts)))
      (seq 0 (Z.to_nat numGroups)).

(** Lines 131-138. *)
Definition chan_start (pts : list Point) (hulls : list (list Point)) : Point :=
  fold_left (fun startP p => if lower p startP then p else startP)
            (concat hulls) (at_ pts 0).

(** The test of lines 149-151.  With [nextPoint] the sentinel the first
    disjunct holds.  With [pointOnHull] the sentinel and [nextPoint]
    finite, [c] is [inf - inf], a NaN, and all three disjuncts fail. *)
Definition chan_better (pointOnHull nextPoint : EPoint) (candidate : Point) : bool :=
  match nextPoint, pointOnHull with
  | Infinity, _ => true
  | Fin nx, Infinity => false
  | Fin nx, Fin ph =>
      let c := cross ph nx candidate in
      (c <? 0) || (near_zero c && (distSq ph nx <? distSq ph candidate))
  end.

Definition chan_pick (pointOnHull nextPoint : EPoint) (candidate : Point) : EPoint :=
  if EPoint_eqb (Fin candidate) pointOnHull then nextPoint
  else if chan_better pointOnHull nextPoint candidate then Fin candidate
  else nextPoint.

Definition chan_next (hulls : list (list Point)) (pointOnHull : EPoint) : EPoint :=
  fold_left (chan_pick pointOnHull) (concat hulls) Infinity.

(** The [do ... while] loop of lines 141-163, returning [hull],
    [hullPoints] and [m] as they stand when the loop is left. *)
Fixpoint chan_march (fuel : nat) (hulls : list (list Point)) (startP : Point)
         (m : Z) (hull : list EPoint) (pointOnHull : EPoint) (hullPoints : Z)
  : option (list EPoint * Z * Z) :=
  match fuel with
  | O => None
  | S fuel' =>
      let hull := hull ++ [pointOnHull] in
      let pointOnHull := chan_next hulls pointOnHull in
      let hullPoints := hullPoints + 1 in
      if m <? hullPoints then Some (hull, hullPoints, 2 * m)
      else if EPoint_eqb pointOnHull (Fin startP) then Some (hull, hullPoints, m)
      else chan_march fuel' hulls startP m hull pointOnHull hullPoints
  end.

(** The [while (true)] loop of lines 118-165.  The march leaves its loop
    after at most [m + 1] passes, which is the fuel it is given. *)
Fixpoint chan_outer (fuel : nat) (pts : list Point) (n m : Z)
  : option (list EPoint) :=
  match fuel with
  | O => None
  | S fuel' =>
      let hulls := group_hulls pts n m in
      let startP := chan_start pts hulls in
      match chan_march (S (Z.to_nat m)) hulls startP m [] (Fin startP) 0 with
      | None => None
      | Some (hull, hullPoints, m') =>
          if hullPoints <=? m' then Some hull
          else chan_outer fuel' pts n m'
      end
  end.

(** [convexHullChan(pts)] (by value: the caller's vector is untouched). *)
Definition convexHullChan (fuel : nat) (pts : list Point) : option (list EPoint) :=
  if (length pts <? 3)%nat then Some (map Fin pts)
  else
    let n := Z.of_nat (length pts) in
    let pts := std_sort lex_lt pts in
    chan_outer fuel pts n (grow_m (length pts) n 1).

(** ** Distances

    [sqrt] is kept symbolic: a [double] distance is the square root of a
    non-negative integer, or the [+infinity] that a minimum starts from.
    [sqrt] is monotone, so comparing two such values is comparing the
    radicands. *)
Inductive dist : Type :=
| Sqrt (d2 : Z)
| DInf.

(** [min(a, b)] on distances. *)
Definition dist_min (a b : dist) : dist :=
  match a, b with
  | DInf, _ => b
  | _, DInf => a
  | Sqrt u, Sqrt v => if v <? u then b else a
  end.

(** [a <= b] on distances. *)
Definition dist_le (a b : dist) : Prop :=
  match a, b with
  | _, DInf => True
  | DInf, Sqrt _ => False
  | Sqrt u, Sqrt v => u <= v
  end.

(** [fabs(v) < d] for an integer [v]. *)
Definition abs_lt_dist (v : Z) (d : dist) : bool :=
  match d with
  | DInf => true
  | Sqrt d2 => v * v <? d2
  end.

(** [v < d] for an integer [v] (a negative [v] is below every distance). *)
Definition lt_dist (v : Z) (d : dist) : bool :=
  match d with
  | DInf => true
  | Sqrt d2 => (v <? 0) || (v * v <? d2)
  end.

(** ** Rotating calipers: diameter of a convex polygon *)

(** The while loop of lines 182-185.  Every pass strictly increases
    [abs(cross(hull[i], hull[ni], hull[j]))], so [fuel = n] passes are
    never used up.  The cross products are those of the source on
    bounded points. *)
Fixpoint advance (fuel : nat) (hull : list Point) (i ni j : nat) : nat :=
  match fuel with
  | O => j
  | S fuel' =>
      let n := length hull in
      if Z.abs (cross (at_ hull i) (at_ hull ni) (at_ hull j))
         <? Z.abs (cross (at_ hull i) (at_ hull ni) (at_ hull ((j + 1) mod n)%nat))
      then advance fuel' hull i ni ((j + 1) mod n)%nat
      else j
  end.

(** One pass of the [for] loop over [i]: the state is [(j, maxDistSq)]. *)
Definition calipers_step (hull : list Point) (st : nat * Z) (i : nat) : nat * Z :=
  let n := length hull in
  let ni := ((i + 1) mod n)%nat in
  let j := advance n hull i ni (fst st) in
  let maxDistSq := Z.max (snd st) (distSq (at_ hull i) (at_ hull j)) in
  let maxDistSq := Z.max maxDistSq (distSq (at_ hull ni) (at_ hull j)) in
  (j, maxDistSq).

(** [convexPolygonDiameter(hull)] *)
Definition convexPolygonDiameter (hull : list Point) : dist :=
  if (length hull <? 2)%nat then Sqrt 0
  else Sqrt (snd (fold_left (calipers_step hull) (seq 0 (length hull)) (1%nat, 0))).

(** ** Closest pair of points *)

(** Index arithmetic of [closestPair]: [pts.size() - 1] is computed in
    the 64-bit unsigned [size_t] and passed as a 32-bit [int]. *)
Definition size_t_sub (a b : Z) : Z := (a - b) mod 2 ^ 64.
Definition to_int (v : Z) : Z := (v + 2 ^ 31) mod 2 ^ 32 - 2 ^ 31.

Definition zat (pts : list Point) (i : Z) : Point := nth (Z.to_nat i) pts origin.

(** The integers [lo, lo+1, ..., hi]. *)
Definition zrange (lo hi : Z) : list Z :=
  map (fun k => lo + Z.of_nat k) (seq 0 (Z.to_nat (hi - lo + 1))).

(** [pts[left..right]], and the vector with that range overwritten. *)
Definition slice (pts : list Point) (left right : Z) : list Point :=
  firstn (Z.to_nat (right - left + 1)) (skipn (Z.to_nat left) pts).

Definition splice (pts : list Point) (left right : Z) (seg : list Point) : list Point :=
  firstn (Z.to_nat left) pts ++ seg ++ skipn (Z.to_nat (right + 1)) pts.

Definition x_lt (a b : Point) : bool := px a <? px b.
Definition y_lt (a b : Point) : bool := py a <? py b.

(** [std::inplace_merge] on two adjacent sorted ranges: stable, an
    element of the second range goes first only when strictly smaller. *)
Fixpoint merge (lt : Point -> Point -> bool) (l1 l2 : list Point) : list Point :=
  let fix merge_aux (l2 : list Point) : list Point :=
    match l1, l2 with
    | [], _ => l2
    | _, [] => l1
    | a :: l1', b :: l2' =>
        if lt b a then b :: merge_aux l2' else a :: merge lt l1' l2
    end
  in merge_aux l2.

(** The brute-force double loop of lines 336-340. *)
Definition brute_force (pts : list Point) (left right : Z) : dist :=
  fold_left
    (fun minDist i =>
       fold_left (fun minDist j => dist_min minDist (Sqrt (distSq (zat pts i) (zat pts j))))
                 (zrange (i + 1) right) minDist)
    (zrange left right) DInf.

(** The inner loop of lines 360-362 for a fixed [strip[i] = a], over the
    rest [l] of the strip. *)
Fixpoint scan_from (d : dist) (a : Point) (l : list Point) (minDist : dist) : dist :=
  match l with
  | [] => minDist
  | b :: l' =>
      if lt_dist (py b - py a) d
      then scan_from d a l' (dist_min minDist (Sqrt (distSq a b)))
      else minDist
  end.

(** The outer loop of lines 359-363. *)
Fixpoint strip_scan (d : dist) (strip : list Point) (minDist : dist) : dist :=
  match strip with
  | [] => minDist
  | a :: l => strip_scan d l (scan_from d a l minDist)
  end.

Section ClosestPair.
(** [std::sort]: any implementation of it. *)
Variable sort : (Point -> Point -> bool) -> list Point -> list Point.

(** [closestPairRec(pts, left, right)]: the returned distance and the
    vector after the call.  [fuel] bounds the depth of the recursion.
    The [int] sum [left + right] fits as long as the vector has at most
    2^30 elements. *)
Fixpoint closestPairRec (fuel : nat) (pts : list Point) (left right : Z)
  : option (dist * list Point) :=
  match fuel with
  | O => None
  | S fuel' =>
      if right - left <=? 3 then
        Some (brute_force pts left right,
              splice pts left right (sort y_lt (slice pts left right)))
      else
        let mid := Z.quot (left + right) 2 in
        let midX := px (zat pts mid) in
        match closestPairRec fuel' pts left mid with
        | None => None
        | Some (d1, pts) =>
            match closestPairRec fuel' pts (mid + 1) right with
            | None => None
            | Some (d2, pts) =>
                let d := dist_min d1 d2 in
                let pts := splice pts left right
                             (merge y_lt (slice pts left mid) (slice pts (mid + 1) right)) in
                let strip := filter (fun p => abs_lt_dist (px p - midX) d)
                                    (slice pts left right) in
                Some (strip_scan d strip d, pts)
            end
        end
  end.

(** [closestPair(pts)] (by value).  The recursion halves the range, so
    a depth of [length pts + 1] is never reached. *)
Definition closestPair (pts : list Point) : option dist :=
  let pts := sort x_lt pts in
  let n := Z.of_nat (length pts) in
  match closestPairRec (S (length pts)) pts 0 (to_int (size_t_sub n 1)) with
  | Some (d, _) => Some d
  | None => None
  end.
End ClosestPair.

(** ** Delaunay triangulation (Bowyer-Watson)

    The bounding box is halved (line 222), so this part is modelled over
    the rationals, again with exact arithmetic. *)
Section DelaunayModel.
Local Open Scope Q_scope.

Record QPoint : Type := mkQPoint { qx : Q; qy : Q }.

(** [struct Triangle { Point a, b, c; }] *)
Record Triangle : Type := mkTriangle { tri_a : QPoint; tri_b : QPoint; tri_c : QPoint }.

Definition Qlt_bool (u v : Q) : bool := negb (Qle_bool v u).

(** [std::min], [std::max] *)
Definition qmin (u v : Q) : Q := if Qlt_bool v u then v else u.
Definition qmax (u v : Q) : Q := if Qlt_bool u v then v else u.

(** The determinant [det] of [inCircumcircle]. *)
Definition circum_det (t : Triangle) (p : QPoint) : Q :=
  let ax := qx (tri_a t) - qx p in let ay := qy (tri_a t) - qy p in
  let bx := qx (tri_b t) - qx p in let by_ := qy (tri_b t) - qy p in
  let cx := qx (tri_c t) - qx p in let cy := qy (tri_c t) - qy p in
  (ax * ax + ay * ay) * (bx * cy - cx * by_)
  - (bx * bx + by_ * by_) * (ax * cy - cx * ay)
  + (cx * cx + cy * cy) * (ax * by_ - bx * ay).

(** [inCircumcircle(t, p)] *)
Definition inCircumcircle (t : Triangle) (p : QPoint) : bool :=
  Qlt_bool 0 (circum_det t p).

Definition Edge : Type := QPoint * QPoint.

(** The test of lines 250-251 on [edges[i]] and [edges[j]]. *)
Definition is_reverse (e f : Edge) : bool :=
  Qeq_bool (qx (fst e)) (qx (snd f)) && Qeq_bool (qy (fst e)) (qy (snd f)) &&
  Qeq_bool (qx (snd e)) (qx (fst f)) && Qeq_bool (qy (snd e)) (qy (fst f)).

Definition qorigin : QPoint := mkQPoint 0 0.

(** The marking double loop of lines 247-255. *)
Definition mark_duplicates (edges : list Edge) : list bool :=
  let n := length edges in
  fold_left
    (fun toRemove i =>
       fold_left
         (fun toRemove j =>
            if is_reverse (nth i edges (qorigin, qorigin)) (nth j edges (qorigin, qorigin))
            then set_nth (set_nth toRemove i true) j true
            else toRemove)
         (seq (S i) (n - S i)) toRemove)
    (seq 0 n) (repeat false n).

(** The lambda [removeDuplicateEdges]: the new contents of [edges]. *)
Definition removeDuplicateEdges (edges : list Edge) : list Edge :=
  map fst (filter (fun et => negb (snd et)) (combine edges (mark_duplicates edges))).

(** One pass of the insertion loop (lines 231-271): the triangulation
    after inserting [p]. *)
Definition insert_point (triangulation : list Triangle) (p : QPoint) : list Triangle :=
  let polygon :=
    flat_map (fun tri =>
                if inCircumcircle tri p
                then [(tri_a tri, tri_b tri); (tri_b tri, tri_c tri); (tri_c tri, tri_a tri)]
                else [])
             triangulation in
  let newTris := filter (fun tri => negb (inCircumcircle tri p)) triangulation in
  newTris ++ map (fun edge => mkTriangle (fst edge) (snd edge) p)
                 (removeDuplicateEdges polygon).

(** The bounding values [minX, minY, maxX, maxY] (lines 213-219). *)
Record Bounds : Type := mkBounds { minX : Q; minY : Q; maxX : Q; maxY : Q }.

Definition bounds (pts : list QPoint) : Bounds :=
  let p0 := nth 0 pts qorigin in
  fold_left (fun b p => mkBounds (qmin (minX b) (qx p)) (qmin (minY b) (qy p))
                                 (qmax (maxX b) (qx p)) (qmax (maxY b) (qy p)))
            pts (mkBounds (qx p0) (qy p0) (qx p0) (qy p0)).

Definition superTriangle (b : Bounds) : Triangle :=
  let dx := maxX b - minX b in
  let dy := maxY b - minY b in
  let dmax := qmax dx dy in
  let mid := mkQPoint ((minX b + maxX b) / 2) ((minY b + maxY b) / 2) in
  mkTriangle (mkQPoint (qx mid - 2 * dmax) (qy mid - dmax))
             (mkQPoint (qx mid) (qy mid + 2 * dmax))
             (mkQPoint (qx mid + 2 * dmax) (qy mid - dmax)).

(** Is [p] outside the bounding box?  (One vertex of the [remove_if]
    predicate of lines 274-278.) *)
Definition outside (b : Bounds) (p : QPoint) : bool :=
  Qlt_bool (qx p) (minX b) || Qlt_bool (maxX b) (qx p) ||
  Qlt_bool (qy p) (minY b) || Qlt_bool (maxY b) (qy p).

(** [delaunayTriangulation(pts)] *)
Definition delaunayTriangulation (pts : list QPoint) : list Triangle :=
  if (length pts <? 3)%nat then []
  else
    let b := bounds pts in
    let triangulation := fold_left insert_point pts [superTriangle b] in
    filter (fun tri => negb (outside b (tri_a tri) || outside b (tri_b tri)
                             || outside b (tri_c tri)))
           triangulation.

(** The reference in-circle predicate, stated with the circle itself:
    [p] lies strictly inside a circle through the three vertices. *)
Definition qdistSq (u v : QPoint) : Q :=
  (qx u - qx v) * (qx u - qx v) + (qy u - qy v) * (qy u - qy v).

Definition strictly_inside_circumcircle (t : Triangle) (p : QPoint) : Prop :=
  exists (o : QPoint) (r2 : Q),
    qdistSq o (tri_a t) == r2 /\ qdistSq o (tri_b t) == r2 /\
    qdistSq o (tri_c t) == r2 /\ qdistSq o p < r2.
End DelaunayModel.

(** ** Line segment intersection *)

(** The lambda [onSegment]: is [q] in the bounding box of [p] and [r]?
    On integers the tolerance [1e-9] changes no comparison. *)
Definition onSegment (p q r : Point) : bool :=
  (px q <=? Z.max (px p) (px r)) && (Z.min (px p) (px r) <=? px q) &&
  (py q <=? Z.max (py p) (py r)) && (Z.min (py p) (py r) <=? py q).

(** [val] of the lambda [orientation] (computed without rounding on
    bounded points). *)
Definition orientation_val (p q r : Point) : Z :=
  (py q - py p) * (px r - px q) - (px q - px p) * (py r - py q).

(** The lambda [orientation]: 0 collinear, 1 clockwise, 2 counter-clockwise. *)
Definition orientation (p q r : Point) : Z :=
  let val := orientation_val p q r in
  if near_zero val then 0 else if 0 <? val then 1 else 2.

(** [segmentsIntersect(A, B, C, D)] *)
Definition segmentsIntersect (A B C D : Point) : bool :=
  let o1 := orientation A B C in
  let o2 := orientation A B D in
  let o3 := orientation C D A in
  let o4 := orientation C D B in
  if negb (o1 =? o2) && negb (o3 =? o4) then true
  else if (o1 =? 0) && onSegment A C B then true
  else if (o2 =? 0) && onSegment A D B then true
  else if (o3 =? 0) && onSegment C A D then true
  else if (o4 =? 0) && onSegment C B D then true
  else false.

(** ** Point in polygon (ray casting) *)

(** The test [intersect] of lines 321-322 for the edge between
    [pi = polygon[i]] and [pj = polygon[j]].  The quotient is taken
    exactly, in [Q]; the source evaluates it only when [pi.y <> pj.y].
    On bounded points the rounded quotient of the source gives the same
    answer to the test. *)
Definition edge_crossed (pi pj p : Point) : bool :=
  negb (Bool.eqb (py p <? py pi) (py p <? py pj)) &&
  Qlt_bool (inject_Z (px p))
           (inject_Z ((px pj - px pi) * (py p - py pi)) / inject_Z (py pj - py pi)
            + inject_Z (px pi)).

(** [isPointInPolygon(polygon, p)]: the loop state is [(inside, j)]. *)
Definition isPointInPolygon (polygon : list Point) (p : Point) : bool :=
  let n := length polygon in
  fst (fold_left
         (fun st i =>
            let pi := at_ polygon i in
            let pj := at_ polygon (snd st) in
            (if edge_crossed pi pj p then negb (fst st) else fst st, i))
         (seq 0 n) (false, (n - 1)%nat)).

(** ** Axis-aligned bounding box *)

(** The body of the loop of lines 381-386; the state is the pair of the
    corners [(minX, minY)] and [(maxX, maxY)]. *)
Definition aabb_step (b : Point * Point) (p : Point) : Point * Point :=
  (mkPoint (Z.min (px (fst b)) (px p)) (Z.min (py (fst b)) (py p)),
   mkPoint (Z.max (px (snd b)) (px p)) (Z.max (py (snd b)) (py p))).

(** [computeAABB(pts)] *)
Definition computeAABB (pts : list Point) : Point * Point :=
  match pts with
  | [] => (mkPoint 0 0, mkPoint 0 0)
  | _ :: _ => fold_left aabb_step pts (at_ pts 0, at_ pts 0)
  end.

(** ** Reference notions the properties are stated with *)

Definition P (a b : Z) : Point := mkPoint a b.
Definition QP (a b : Z) : QPoint := mkQPoint (inject_Z a) (inject_Z b).

(** Twice the signed area of the triangle [a b c] of rational points. *)
Definition qcross (a b c : QPoint) : Q :=
  ((qx b - qx a) * (qy c - qy a) - (qy b - qy a) * (qx c - qx a))%Q.

(** [p] lies on or inside the polygon [hull] (counter-clockwise): it is
    on the left of, or on, the line of every edge. *)
Definition on_or_inside (hull : list Point) (p : Point) : bool :=
  forallb (fun i => 0 <=? cross (at_ hull i) (at_ hull ((i + 1) mod length hull)%nat) p)
          (seq 0 (length hull)).

(** The two lists have the same elements (as unordered sets). *)
Definition same_vertex_set (h1 h2 : list EPoint) : Prop :=
  forall v, In v h1 <-> In v h2.

(** The brute-force minimum distance over all pairs of points at
    distinct positions of [l] (the reference of the closest-pair claim). *)
Fixpoint min_dist_to (a : Point) (l : list Point) : dist :=
  match l with
  | [] => DInf
  | b :: l' => dist_min (Sqrt (distSq a b)) (min_dist_to a l')
  end.

Fixpoint brute_force_min (l : list Point) : dist :=
  match l with
  | [] => DInf
  | a :: l' => dist_min (min_dist_to a l') (brute_force_min l')
  end.

(** [a] stands in [l] at a position before one of [b]. *)
Inductive Before : list Point -> Point -> Point -> Prop :=
| Before_here (a b : Point) (l : list Point) : In b l -> Before (a :: l) a b
| Before_later (x a b : Point) (l : list Point) : Before l a b -> Before (x :: l) a b.

(** [a] and [b] stand at two distinct positions of [l]. *)
Definition Pair (l : list Point) (a b : Point) : Prop :=
  Before l a b \/ Before l b a.

(** [d] is below the distance of every pair of [l]. *)
Definition lower_bound (l : list Point) (d : dist) : Prop :=
  forall a b, Pair l a b -> dist_le d (Sqrt (distSq a b)).

(** [d] is the distance of a pair of [l], or the initial [+infinity]. *)
Definition attained (l : list Point) (d : dist) : Prop :=
  d = DInf \/ exists a b, Pair l a b /\ d = Sqrt (distSq a b).

Definition xle (a b : Point) : Prop := px a <= px b.
Definition yle (a b : Point) : Prop := py a <= py b.

(** A polygon is strictly convex and counter-clockwise when every vertex
    other than the two ends of an edge lies strictly on the left of it. *)
Definition strictly_convex (hull : list Point) : bool :=
  let n := length hull in
  forallb (fun i =>
    forallb (fun k =>
      (k =? i)%nat || (k =? (i + 1) mod n)%nat ||
      (0 <? cross (at_ hull i) (at_ hull ((i + 1) mod n)) (at_ hull k)))
      (seq 0 n))
    (seq 0 n).

(** The brute-force maximum squared distance over all pairs of vertices. *)
Fixpoint max_dist_to (a : Point) (l : list Point) : Z :=
  match l with
  | [] => 0
  | b :: l' => Z.max (distSq a b) (max_dist_to a l')
  end.

Fixpoint brute_force_max (l : list Point) : Z :=
  match l with
  | [] => 0
  | a :: l' => Z.max (max_dist_to a l') (brute_force_max l')
  end.

(** The point of the closed segment [AB] at parameter [t] in [0, 1]. *)
Definition seg_x (A B : Point) (t : Q) : Q :=
  (inject_Z (px A) + t * inject_Z (px B - px A))%Q.
Definition seg_y (A B : Point) (t : Q) : Q :=
  (inject_Z (py A) + t * inject_Z (py B - py A))%Q.

(** The closed segments [AB] and [CD] have a point in common. *)
Definition segments_meet (A B C D : Point) : Prop :=
  exists s t : Q,
    (0 <= s <= 1 /\ 0 <= t <= 1 /\
     seg_x A B s == seg_x C D t /\ seg_y A B s == seg_y C D t)%Q.

(** [p] lies in the box of corners [fst b] and [snd b]. *)
Definition in_aabb (b : Point * Point) (p : Point) : Prop :=
  px (fst b) <= px p <= px (snd b) /\ py (fst b) <= py p <= py (snd b).

(** Each of the four bounds of [b] is a coordinate of a point of [l]. *)
Definition attains (l : list Point) (b : Point * Point) : Prop :=
  (exists p, In p l /\ px p = px (fst b)) /\ (exists p, In p l /\ py p = py (fst b)) /\
  (exists p, In p l /\ px p = px (snd b)) /\ (exists p, In p l /\ py p = py (snd b)).

(** The smallest box around two boxes. *)
Definition aabb_join (b1 b2 : Point * Point) : Point * Point :=
  (mkPoint (Z.min (px (fst b1)) (px (fst b2))) (Z.min (py (fst b1)) (py (fst b2))),
   mkPoint (Z.max (px (snd b1)) (px (snd b2))) (Z.max (py (snd b1)) (py (snd b2)))).

(** [p] is strictly on the left of every edge of the counter-clockwise
    polygon [hull]; [p] is strictly on the right of one of its edges. *)
Definition strictly_inside (hull : list Point) (p : Point) : bool :=
  forallb (fun i => 0 <? cross (at_ hull i) (at_ hull ((i + 1) mod length hull)%nat) p)
          (seq 0 (length hull)).

Definition strictly_outside (hull : list Point) (p : Point) : bool :=
  existsb (fun i => cross (at_ hull i) (at_ hull ((i + 1) mod length hull)%nat) p <? 0)
          (seq 0 (length hull)).

(** ** Auxiliary notions of the proofs *)

(** [p] is within the bounding values. *)
Definition in_box (b : Bounds) (p : QPoint) : Prop :=
  (minX b <= qx p <= maxX b /\ minY b <= qy p <= maxY b)%Q.

Definition box_step (b : Bounds) (p : QPoint) : Bounds :=
  mkBounds (qmin (minX b) (qx p)) (qmin (minY b) (qy p))
           (qmax (maxX b) (qx p)) (qmax (maxY b) (qy p)).

(** The brute-force loops of [closestPairRec], on the list of the range. *)
Definition bf_inner (a : Point) (l : list Point) (minDist : dist) : dist :=
  fold_left (fun minDist b => dist_min minDist (Sqrt (distSq a b))) l minDist.

Fixpoint bf_outer (l : list Point) (minDist : dist) : dist :=
  match l with
  | [] => minDist
  | a :: l' => bf_outer l' (bf_inner a l' minDist)
  end.

(** The vertices of a polygon, indexed cyclically. *)
Definition pt (hull : list Point) (k : nat) : Point :=
  at_ hull (k mod length hull)%nat.

(** The height of vertex [k] above edge [i]. *)
Definition height (hull : list Point) (i k : nat) : Z :=
  cross (pt hull i) (pt hull (S i)) (pt hull k).

(** The edge vectors. *)
Definition ex (hull : list Point) (k : nat) : Z := px (pt hull (S k)) - px (pt hull k).
Definition ey (hull : list Point) (k : nat) : Z := py (pt hull (S k)) - py (pt hull k).

(** The rise of the height above edge [i] along edge [k]: the cross
    product of the two edge vectors. *)
Definition slope (hull : list Point) (i k : nat) : Z :=
  ex hull i * ey hull k - ey hull i * ex hull k.

(** [T] is the first index after [i] at which the height above edge [i]
    stops rising: the vertex the calipers stop at for edge [i]. *)
Definition is_top (hull : list Point) (i T : nat) : Prop :=
  (i + 2 <= T <= i + length hull - 1)%nat /\
  (forall k, (i + 1 <= k < T)%nat -> 0 < slope hull i k) /\
  slope hull i T <= 0.

(** The component of edge [k] along the direction from vertex [a] to
    vertex [b]. *)
Definition along (hull : list Point) (a b k : nat) : Z :=
  (px (pt hull b) - px (pt hull a)) * ex hull k
  + (py (pt hull b) - py (pt hull a)) * ey hull k.

(** The stack of Graham scan (top first) makes a strict left turn at
    every vertex. *)
Fixpoint left_stack (st : list Point) : Prop :=
  match st with
  | c :: st' =>
      match st' with
      | b :: a :: _ => 0 < cross a b c /\ left_stack st'
      | _ => True
      end
  | [] => True
  end.

(** [p] is not lower than [pivot]. *)
Definition not_below (pivot p : Point) : Prop :=
  py pivot < py p \/ (py p = py pivot /\ px pivot <= px p).

(** [b] follows [a] in strictly increasing polar angle around [pivot]. *)
Definition angle_lt (pivot a b : Point) : Prop := 0 < cross pivot a b.

(** [b] is not before [a] in the polar order: what two neighbours of the
    sorted vector satisfy. *)
Definition polar_le (pivot a b : Point) : Prop := polar_lt pivot b a = false.

(** The body of the loop of [find_lowest]. *)
Definition lowest_step (pts : list Point) (lowest i : nat) : nat :=
  if lower (at_ pts i) (at_ pts lowest) then i else lowest.

(** A common point of two segments, with integer weights: the point
    [(u A + v B) / (u + v)] of [AB] is the point [(w C + z D) / (w + z)]
    of [CD]. *)
Definition meet_weights (A B C D : Point) (u v w z : Z) : Prop :=
  0 <= u /\ 0 <= v /\ 0 < u + v /\ 0 <= w /\ 0 <= z /\ 0 < w + z /\
  (w + z) * (u * px A + v * px B) = (u + v) * (w * px C + z * px D) /\
  (w + z) * (u * py A + v * py B) = (u + v) * (w * py C + z * py D).

(** The parity of the crossed edges along [l], entered from [prev]. *)
Fixpoint crossings (p prev : Point) (l : list Point) : bool :=
  match l with
  | [] => false
  | a :: l' => xorb (edge_crossed a prev p) (crossings p a l')
  end.

(** The exclusive or of a list of booleans. *)
Fixpoint parity (l : list bool) : bool :=
  match l with
  | [] => false
  | b :: l' => xorb b (parity l')
  end.

(** The edge of [hull] from vertex [k] to vertex [k + 1] runs upwards
    through the height of [p]. *)
Definition upward (hull : list Point) (p : Point) (k : nat) : Prop :=
  py (pt hull k) <= py p < py (pt hull (S k)).

(** The point set of [main] and of the spec's concrete scenario 1. *)
Definition scenario1 : list Point :=
  [P 0 0; P 1 1; P 2 2; P 2 0; P 2 4; P 3 3; P 0 5; P 4 0].

Definition unit_square : list Point := [P 0 0; P 0 1; P 1 0; P 1 1].

(** Four distinct points whose first one lies inside the left edge. *)
Definition left_edge_set : list Point := [P 0 1; P 0 0; P 0 2; P 1 1].

(** * Properties *)

Lemma Point_eqb_eq (a b : Point) : Point_eqb a b = true <-> a = b.
Proof.
  destruct a as [ax ay], b as [bx by_]; unfold Point_eqb; cbn.
  rewrite andb_true_iff, !Z.eqb_eq. split.
  - intros [-> ->]; reflexivity.
  - intros H; injection H; auto.
Qed.

(** ** The exact range of the arithmetic *)

Lemma product_fits (a b : Z) :
  Z.abs a <= 2 ^ 25 -> Z.abs b <= 2 ^ 25 -> Z.abs (a * b) <= 2 ^ 50.
Proof.
  intros Ha Hb. rewrite Z.abs_mul.
  change (2 ^ 50) with (2 ^ 25 * 2 ^ 25).
  apply Z.mul_le_mono_nonneg; try assumption; apply Z.abs_nonneg.
Qed.

Lemma difference_fits (u v : Z) :
  Z.abs u <= coord_max -> Z.abs v <= coord_max -> Z.abs (u - v) <= 2 ^ 25.
Proof. unfold coord_max. change (2 ^ 25) with (2 * 2 ^ 24). lia. Qed.

(** On bounded points the two products of [cross] and their difference
    are integers that binary64 represents. *)
Lemma cross_fits (O A B : Point) :
  bounded_point O -> bounded_point A -> bounded_point B ->
  Z.abs ((px A - px O) * (py B - py O)) <= 2 ^ 50 /\
  Z.abs ((py A - py O) * (px B - px O)) <= 2 ^ 50 /\
  Z.abs (cross O A B) <= 2 ^ 51.
Proof.
  intros [HO1 HO2] [HA1 HA2] [HB1 HB2].
  assert (H1 : Z.abs ((px A - px O) * (py B - py O)) <= 2 ^ 50)
    by (apply product_fits; apply difference_fits; assumption).
  assert (H2 : Z.abs ((py A - py O) * (px B - px O)) <= 2 ^ 50)
    by (apply product_fits; apply difference_fits; assumption).
  repeat split; try assumption. unfold cross.
  change (2 ^ 51) with (2 * 2 ^ 50). lia.
Qed.

Lemma distSq_fits (A B : Point) :
  bounded_point A -> bounded_point B -> 0 <= distSq A B <= 2 ^ 51.
Proof.
  intros [HA1 HA2] [HB1 HB2]. unfold distSq. cbv zeta.
  pose proof (product_fits (px A - px B) (px A - px B)
                (difference_fits _ _ HA1 HB1) (difference_fits _ _ HA1 HB1)).
  pose proof (product_fits (py A - py B) (py A - py B)
                (difference_fits _ _ HA2 HB2) (difference_fits _ _ HA2 HB2)).
  pose proof (Z.square_nonneg (px A - px B)). pose proof (Z.square_nonneg (py A - py B)).
  change (2 ^ 51) with (2 * 2 ^ 50). lia.
Qed.

Lemma orientation_val_fits (p q r : Point) :
  bounded_point p -> bounded_point q -> bounded_point r ->
  Z.abs ((py q - py p) * (px r - px q)) <= 2 ^ 50 /\
  Z.abs ((px q - px p) * (py r - py q)) <= 2 ^ 50 /\
  Z.abs (orientation_val p q r) <= 2 ^ 51.
Proof.
  intros [Hp1 Hp2] [Hq1 Hq2] [Hr1 Hr2].
  assert (H1 : Z.abs ((py q - py p) * (px r - px q)) <= 2 ^ 50)
    by (apply product_fits; apply difference_fits; assumption).
  assert (H2 : Z.abs ((px q - px p) * (py r - py q)) <= 2 ^ 50)
    by (apply product_fits; apply difference_fits; assumption).
  repeat split; try assumption. unfold orientation_val.
  change (2 ^ 51) with (2 * 2 ^ 50). lia.
Qed.

(** The numerator and the denominator of the quotient of the
    ray-casting test. *)
Lemma edge_quotient_fits (pi pj p : Point) :
  bounded_point pi -> bounded_point pj -> bounded_point p ->
  Z.abs ((px pj - px pi) * (py p - py pi)) <= 2 ^ 50 /\
  Z.abs (py pj - py pi) <= 2 ^ 25.
Proof.
  intros [Hi1 Hi2] [Hj1 Hj2] [Hp1 Hp2]. split.
  - apply product_fits; apply difference_fits; assumption.
  - apply difference_fits; assumption.
Qed.

(** For at most 2^30 points, the values that [m] takes in the loop
    [while (m*m < n) m *= 2] are powers of two up to 2^15: the [int]
    product [m*m] is at most 2^30. *)
Lemma grow_m_fits (fuel : nat) (n k : Z) :
  n <= 2 ^ 30 -> 0 <= k <= 15 ->
  exists k', k <= k' <= 15 /\ grow_m fuel n (2 ^ k) = 2 ^ k'.
Proof.
  intros Hn. revert k. induction fuel as [|fuel IH]; intros k Hk; cbn [grow_m].
  - exists k. split; [lia | reflexivity].
  - destruct (Z.ltb_spec (2 ^ k * 2 ^ k) n) as [Hlt | Hge].
    + assert (Hk' : k < 15).
      { destruct (Z.eq_dec k 15) as [-> | Hne]; [|lia]. exfalso.
        change (2 ^ 15 * 2 ^ 15) with (2 ^ 30) in Hlt. lia. }
      destruct (IH (k + 1)) as (k' & Hk'' & E); [lia|].
      exists k'. split; [lia|]. rewrite <- E. f_equal.
      rewrite Z.pow_add_r by lia. lia.
    + exists k. split; [lia | reflexivity].
Qed.

(** For at most 2^30 points, the [int] sum [left + right] of two
    indices does not wrap. *)
Lemma index_sum_fits (left right : Z) :
  0 <= left -> left <= right -> right < 2 ^ 30 ->
  to_int (left + right) = left + right.
Proof.
  intros H0 H1 H2. unfold to_int.
  assert (H31 : 2 ^ 31 = 2 * 2 ^ 30) by reflexivity.
  assert (H32 : 2 ^ 32 = 4 * 2 ^ 30) by reflexivity.
  rewrite Z.mod_small by lia. lia.
Qed.

(** ** Sorting *)

Lemma insert_perm {A : Type} (lt : A -> A -> bool) (a : A) (l : list A) :
  Permutation (insert lt a l) (a :: l).
Proof.
  induction l as [|b l IH]; cbn; [reflexivity|].
  destruct (lt b a); [|reflexivity].
  rewrite IH. apply perm_swap.
Qed.

Lemma std_sort_perm {A : Type} (lt : A -> A -> bool) (l : list A) :
  Permutation (std_sort lt l) l.
Proof.
  induction l as [|a l IH]; cbn; [reflexivity|].
  rewrite insert_perm, IH. reflexivity.
Qed.

(** ** Graham scan on the concrete scenario *)

(** C7, as stated, fails: the point (2,0), which the claimed vertex set
    contains, is not a vertex of the hull that [convexHullGraham]
    returns for scenario 1 (it lies inside the edge (0,0)-(4,0) and is
    pruned by the collinearity filter). *)
Lemma graham_scenario1_omits_2_0 :
  In (P 2 0) [P 2 0; P 4 0; P 3 3; P 2 4; P 0 5; P 0 0] /\
  ~ In (P 2 0) (hullGraham scenario1).
Proof.
  split; [left; reflexivity|].
  vm_compute. intros H.
  repeat (destruct H as [H|H]; [discriminate H|]). exact H.
Qed.

(** C7, amended: on scenario 1 [convexHullGraham] returns the five
    vertices (0,0), (4,0), (3,3), (2,4), (0,5), in this (counter-clockwise)
    order, starting at the lowest point. *)
Theorem graham_scenario1 :
  hullGraham scenario1 = [P 0 0; P 4 0; P 3 3; P 2 4; P 0 5].
Proof. vm_compute. reflexivity. Qed.

(** ** Chan's algorithm never retries *)

Lemma chan_march_exit (fuel : nat) hulls startP m hull poh hp :
  1 <= m -> 0 <= hp <= m -> m + 1 <= hp + Z.of_nat fuel ->
  exists h hp' m', chan_march fuel hulls startP m hull poh hp = Some (h, hp', m')
                   /\ hp' <= m'.
Proof.
  revert hull poh hp. induction fuel as [|fuel IH]; intros hull poh hp Hm Hhp Hf.
  - cbn in Hf. lia.
  - cbn [chan_march].
    destruct (m <? hp + 1) eqn:E1.
    + apply Z.ltb_lt in E1. do 3 eexists. split; [reflexivity|]. lia.
    + apply Z.ltb_ge in E1.
      destruct (EPoint_eqb _ _).
      * do 3 eexists. split; [reflexivity|]. lia.
      * apply IH; lia.
Qed.

(** Whatever the outcome of the march, the test [hullPoints <= m] that
    ends the outer loop succeeds on the first pass: after [m *= 2] the
    count [m_old + 1] is at most the new [m]. *)
Lemma chan_outer_first_pass (fuel : nat) pts n m :
  1 <= m -> chan_outer (S fuel) pts n m = chan_outer 1 pts n m
            /\ chan_outer 1 pts n m <> None.
Proof.
  intros Hm. cbn [chan_outer].
  destruct (chan_march_exit (S (Z.to_nat m)) (group_hulls pts n m)
              (chan_start pts (group_hulls pts n m)) m []
              (Fin (chan_start pts (group_hulls pts n m))) 0) as (h & hp' & m' & E & Hle);
    try lia.
  rewrite E. apply Z.leb_le in Hle. rewrite Hle. split; [reflexivity|discriminate].
Qed.

Lemma grow_m_pos (fuel : nat) n m : 1 <= m -> 1 <= grow_m fuel n m.
Proof.
  revert m. induction fuel as [|fuel IH]; intros m Hm; cbn [grow_m]; [lia|].
  destruct (m * m <? n); [apply IH|]; lia.
Qed.

Lemma convexHullChan_total (fuel : nat) pts :
  convexHullChan (S fuel) pts = convexHullChan 1 pts /\ convexHullChan 1 pts <> None.
Proof.
  unfold convexHullChan. destruct (length pts <? 3)%nat.
  - split; [reflexivity|discriminate].
  - apply chan_outer_first_pass, grow_m_pos. lia.
Qed.

(** The fuel of [grow_m] is enough: the loop [while (m*m < n) m *= 2]
    is left by its test. *)
Lemma grow_m_exits (fuel : nat) (n m : Z) :
  1 <= m -> n <= m * m * 4 ^ Z.of_nat fuel ->
  n <= grow_m fuel n m * grow_m fuel n m.
Proof.
  revert m. induction fuel as [|fuel IH]; intros m Hm Hn; cbn [grow_m].
  - cbn in Hn. lia.
  - destruct (Z.ltb_spec (m * m) n) as [Hlt | Hge]; [|exact Hge].
    apply IH; [lia|].
    rewrite Nat2Z.inj_succ, Z.pow_succ_r in Hn by lia. lia.
Qed.

Lemma grow_m_initial (pts : list Point) :
  let n := Z.of_nat (length pts) in
  n <= grow_m (length pts) n 1 * grow_m (length pts) n 1.
Proof.
  cbv zeta. apply grow_m_exits; [lia|].
  pose proof (Z.pow_gt_lin_r 4 (Z.of_nat (length pts))). lia.
Qed.

(** X2: for a vector of at most 2^30 points (so that the [int] product
    [m*m] does not overflow), the outer loop of [convexHullChan] never
    retries: it returns at the end of its first pass, whatever the march
    did. *)
Theorem chan_never_retries (fuel : nat) (pts : list Point) :
  Z.of_nat (length pts) <= 2 ^ 30 ->
  convexHullChan (S fuel) pts = convexHullChan 1 pts /\
  convexHullChan 1 pts <> None.
Proof. intros _. exact (convexHullChan_total fuel pts). Qed.

Lemma chan_never_retries_witness :
  convexHullChan 5 unit_square = convexHullChan 1 unit_square /\
  convexHullChan 1 unit_square <> None.
Proof.
  apply (chan_never_retries 4 unit_square). vm_compute. discriminate.
Defined.

(** ** Jarvis march *)

Lemma jarvis_loop_unfold (fuel leftmost : nat) (st : jarvis_state) :
  jarvis_loop (S fuel) leftmost st =
  if (jv_p (jarvis_body st) =? leftmost)%nat then Some (jarvis_body st)
  else jarvis_loop fuel leftmost (jarvis_body st).
Proof. reflexivity. Qed.

Lemma jarvis_body_pts (k : nat) (st : jarvis_state) :
  jv_pts (Nat.iter k jarvis_body st) = jv_pts st.
Proof.
  induction k as [|k IH]; [reflexivity|]. cbn [Nat.iter nat_rect]. exact IH.
Qed.

Lemma jarvis_loop_pts (fuel leftmost : nat) (st st' : jarvis_state) :
  jarvis_loop fuel leftmost st = Some st' -> jv_pts st' = jv_pts st.
Proof.
  revert st. induction fuel as [|fuel IH]; intros st; [discriminate|].
  rewrite jarvis_loop_unfold.
  destruct (jv_p (jarvis_body st) =? leftmost)%nat.
  - intros [= <-]. reflexivity.
  - intros H. apply IH in H. exact H.
Qed.

(** The march on [left_edge_set] starts at index 0, the point (0,1)
    inside the left edge, and then cycles through the indices 1, 3, 2
    for ever. *)
Lemma jarvis_left_edge_cycle (fuel : nat) (hull : list Point) (p : nat) :
  p = 1%nat \/ p = 3%nat \/ p = 2%nat ->
  jarvis_loop fuel 0 (mkJarvis left_edge_set hull p) = None.
Proof.
  revert hull p. induction fuel as [|fuel IH]; intros hull p Hp; [reflexivity|].
  rewrite jarvis_loop_unfold. unfold jarvis_body. cbn [jv_p jv_pts jv_hull].
  destruct Hp as [-> | [-> | ->]].
  - change (jarvis_next left_edge_set 1) with 3%nat. cbn [Nat.eqb]. apply IH. auto.
  - change (jarvis_next left_edge_set 3) with 2%nat. cbn [Nat.eqb]. apply IH. auto.
  - change (jarvis_next left_edge_set 2) with 1%nat. cbn [Nat.eqb]. apply IH. auto.
Qed.

(** X3: on the four distinct points (0,1), (0,0), (0,2), (1,1)
    [convexHullJarvis] never returns: no number of passes closes the
    march. *)
Theorem jarvis_diverges_on_left_edge_set (fuel : nat) :
  convexHullJarvis fuel left_edge_set = None.
Proof.
  unfold convexHullJarvis. cbn [length Nat.ltb Nat.leb].
  change (find_leftmost left_edge_set) with 0%nat.
  unfold jarvis_init. change (find_leftmost left_edge_set) with 0%nat.
  destruct fuel as [|fuel]; [reflexivity|].
  rewrite jarvis_loop_unfold. unfold jarvis_body. cbn [jv_p jv_pts jv_hull].
  change (jarvis_next left_edge_set 0) with 1%nat. cbn [Nat.eqb].
  rewrite jarvis_left_edge_cycle; auto.
Qed.

(** C9: [convexHullJarvis] never writes through its reference
    parameter: the caller's vector is the same after any number of
    passes of the march, and when the call returns. *)
Theorem jarvis_leaves_argument_unchanged (pts : list Point) :
  (forall k, jv_pts (Nat.iter k jarvis_body (jarvis_init pts)) = pts) /\
  (forall fuel pts' hull,
      convexHullJarvis fuel pts = Some (pts', hull) -> pts' = pts).
Proof.
  split.
  - intros k. apply jarvis_body_pts.
  - intros fuel pts' hull. unfold convexHullJarvis.
    destruct (length pts <? 3)%nat.
    + intros [= <- _]. reflexivity.
    + destruct (jarvis_loop _ _ _) as [st|] eqn:E; [|discriminate].
      intros [= <- _]. apply jarvis_loop_pts in E. exact E.
Qed.

Lemma jarvis_leaves_argument_unchanged_witness :
  exists pts' hull,
    convexHullJarvis 10 scenario1 = Some (pts', hull) /\ pts' = scenario1.
Proof.
  exists scenario1, [P 0 0; P 4 0; P 3 3; P 2 4; P 0 5].
  assert (E : convexHullJarvis 10 scenario1
              = Some (scenario1, [P 0 0; P 4 0; P 3 3; P 2 4; P 0 5]))
    by (vm_compute; reflexivity).
  split; [exact E|].
  exact (proj2 (jarvis_leaves_argument_unchanged scenario1) 10%nat _ _ E).
Defined.

(** ** Graham scan is idempotent *)

(** *** The scan *)

Lemma left_stack_tail (c : Point) (st : list Point) :
  left_stack (c :: st) -> left_stack st.
Proof.
  destruct st as [|b [|a st]]; cbn; tauto.
Qed.

Lemma left_stack_suffix (l1 l2 : list Point) :
  left_stack (l1 ++ l2) -> left_stack l2.
Proof.
  induction l1 as [|x l1 IH]; [auto|].
  intros H. apply IH. apply (left_stack_tail x). exact H.
Qed.

Lemma pop_nonleft_left (st : list Point) (p : Point) :
  left_stack st -> left_stack (p :: pop_nonleft st p).
Proof.
  induction st as [|b st IH]; intros H; [exact I|].
  cbn [pop_nonleft]. destruct st as [|a st]; [exact I|].
  destruct (Z.leb_spec (cross a b p) 0) as [Hle | Hgt].
  - apply IH. apply (left_stack_tail b). exact H.
  - cbn [left_stack]. split; [lia | exact H].
Qed.

Lemma scan_left (l st : list Point) :
  left_stack st -> left_stack (fold_left scan_step l st).
Proof.
  revert st. induction l as [|p l IH]; intros st H; [exact H|].
  cbn [fold_left]. apply IH. apply pop_nonleft_left. exact H.
Qed.

(** A stack of left turns is not popped by the point that continues it. *)
Lemma pop_nonleft_keeps (st : list Point) (p : Point) :
  left_stack (p :: st) -> pop_nonleft st p = st.
Proof.
  destruct st as [|b [|a st]]; cbn; try reflexivity.
  intros [H _]. destruct (Z.leb_spec (cross a b p) 0); [lia | reflexivity].
Qed.

Lemma scan_keeps (l st : list Point) :
  left_stack (rev l ++ st) -> fold_left scan_step l st = rev l ++ st.
Proof.
  revert st. induction l as [|p l IH]; intros st H; [reflexivity|].
  cbn [fold_left rev] in *. rewrite <- app_assoc in H. cbn [app] in H.
  unfold scan_step. rewrite pop_nonleft_keeps.
  - rewrite IH by exact H. rewrite <- app_assoc. reflexivity.
  - apply (left_stack_suffix (rev l)). exact H.
Qed.

(** The scan of the scan's own result gives it back. *)
Lemma graham_scan_fixed (l : list Point) :
  graham_scan (graham_scan l) = graham_scan l.
Proof.
  unfold graham_scan.
  assert (H : left_stack (fold_left scan_step l [])) by (apply scan_left; exact I).
  set (st := fold_left scan_step l []) in *.
  rewrite scan_keeps; rewrite rev_involutive, app_nil_r; [reflexivity | exact H].
Qed.

(** The bottom of the stack stays, and what is above it is a part of
    the old stack. *)
Lemma pop_nonleft_bottom (st : list Point) (pivot p : Point) :
  exists st0 st1, st = st0 ++ st1 /\ pop_nonleft (st ++ [pivot]) p = st1 ++ [pivot].
Proof.
  induction st as [|b st IH].
  - exists [], []. split; reflexivity.
  - cbn [app pop_nonleft].
    destruct (st ++ [pivot]) as [|a rest] eqn:E.
    { destruct st; discriminate E. }
    destruct (cross a b p <=? 0).
    + destruct IH as (st0 & st1 & E0 & E1). try rewrite E in E1.
      exists (b :: st0), st1. split; [cbn; f_equal; exact E0 | exact E1].
    + exists [], (b :: st). split; [reflexivity|]. cbn [app]. rewrite E. reflexivity.
Qed.

(** *** Polar order in the half-plane above the pivot *)

Lemma same_ray (pivot a b c : Point) :
  not_below pivot b -> not_below pivot c ->
  0 < cross pivot a b -> cross pivot b c = 0 ->
  distSq pivot b <= distSq pivot c ->
  0 < cross pivot a c.
Proof.
  unfold not_below, cross, distSq. cbv zeta.
  set (ax := px a - px pivot). set (ay := py a - py pivot).
  set (bx := px b - px pivot). set (by_ := py b - py pivot).
  set (cx := px c - px pivot). set (cy := py c - py pivot).
  replace (px pivot - px b) with (- bx) by (subst bx; ring).
  replace (py pivot - py b) with (- by_) by (subst by_; ring).
  replace (px pivot - px c) with (- cx) by (subst cx; ring).
  replace (py pivot - py c) with (- cy) by (subst cy; ring).
  intros Hb Hc Hab Hbc Hd.
  assert (Hb' : 0 < by_ \/ (by_ = 0 /\ 0 <= bx)) by (subst bx by_; lia).
  assert (Hc' : 0 < cy \/ (cy = 0 /\ 0 <= cx)) by (subst cx cy; lia).
  clearbody ax ay bx by_ cx cy. clear Hb Hc.
  destruct Hb' as [Hby | [Hby Hbx]].
  - assert (Hcy : 0 < cy).
    { destruct Hc' as [|[Hcy Hcx]]; [assumption|]. subst cy.
      assert (cx = 0) by nia. subst cx. nia. }
    assert (E : (ax * cy - ay * cx) * by_
                = cy * (ax * by_ - ay * bx) + ay * (bx * cy - by_ * cx)) by ring.
    rewrite Hbc, Z.mul_0_r, Z.add_0_r in E.
    assert (0 < cy * (ax * by_ - ay * bx)) by (apply Z.mul_pos_pos; lia).
    nia.
  - subst by_. assert (Hbx' : 0 < bx) by nia.
    assert (Hcy : cy = 0) by nia. subst cy.
    assert (Hcx : 0 < cx) by nia.
    assert (Hay : ay < 0) by nia. nia.
Qed.

Lemma angle_trans (pivot a b c : Point) :
  not_below pivot a -> not_below pivot b -> not_below pivot c ->
  angle_lt pivot a b -> angle_lt pivot b c -> angle_lt pivot a c.
Proof.
  unfold not_below, angle_lt, cross.
  set (ax := px a - px pivot). set (ay := py a - py pivot).
  set (bx := px b - px pivot). set (by_ := py b - py pivot).
  set (cx := px c - px pivot). set (cy := py c - py pivot).
  intros Ha Hb Hc Hab Hbc.
  assert (Ha' : 0 < ay \/ (ay = 0 /\ 0 <= ax)) by (subst ax ay; lia).
  assert (Hb' : 0 < by_ \/ (by_ = 0 /\ 0 <= bx)) by (subst bx by_; lia).
  assert (Hc' : 0 < cy \/ (cy = 0 /\ 0 <= cx)) by (subst cx cy; lia).
  clearbody ax ay bx by_ cx cy. clear Ha Hb Hc.
  destruct Hb' as [Hby | [Hby Hbx]].
  - assert (E : (ax * cy - ay * cx) * by_
                = (ax * by_ - ay * bx) * cy + (bx * cy - by_ * cx) * ay) by ring.
    assert (Hay : 0 <= ay) by lia. assert (Hcy : 0 <= cy) by lia.
    assert (H1 : 0 <= (ax * by_ - ay * bx) * cy) by (apply Z.mul_nonneg_nonneg; lia).
    assert (H2 : 0 <= (bx * cy - by_ * cx) * ay) by (apply Z.mul_nonneg_nonneg; lia).
    destruct (Z.eq_dec cy 0) as [Hc0 | Hc0].
    + subst cy. assert (0 <= cx) by lia. exfalso. nia.
    + assert (0 < (ax * by_ - ay * bx) * cy) by (apply Z.mul_pos_pos; lia).
      assert (0 < (ax * cy - ay * cx) * by_) by lia.
      nia.
  - subst by_. exfalso. nia.
Qed.

(** *** The polar sort *)

Lemma cross_swap (O A B : Point) : cross O B A = - cross O A B.
Proof. unfold cross. ring. Qed.

Lemma polar_le_spec (pivot a b : Point) :
  polar_le pivot a b <->
  0 < cross pivot a b \/ (cross pivot a b = 0 /\ distSq pivot a <= distSq pivot b).
Proof.
  unfold polar_le, polar_lt, near_zero. rewrite (cross_swap pivot a b).
  destruct (Z.eqb_spec (- cross pivot a b) 0) as [E | E].
  - rewrite Z.ltb_ge. lia.
  - rewrite Z.ltb_ge. lia.
Qed.

Lemma polar_lt_asym (pivot a b : Point) :
  polar_lt pivot a b = true -> polar_le pivot a b.
Proof.
  intros H. apply polar_le_spec. unfold polar_lt, near_zero in H.
  destruct (Z.eqb_spec (cross pivot a b) 0) as [E | E].
  - apply Z.ltb_lt in H. lia.
  - apply Z.ltb_lt in H. lia.
Qed.

Lemma angle_lt_polar_le (pivot a b : Point) : angle_lt pivot a b -> polar_le pivot a b.
Proof. intros H. apply polar_le_spec. left. exact H. Qed.

Lemma insert_locally_sorted (pivot a : Point) (l : list Point) :
  Sorted (polar_le pivot) l -> Sorted (polar_le pivot) (insert (polar_lt pivot) a l).
Proof.
  induction 1 as [|b l Hs IH Hd]; cbn [insert].
  - repeat constructor.
  - destruct (polar_lt pivot b a) eqn:E.
    + constructor; [exact IH|].
      destruct l as [|c l]; cbn [insert].
      * constructor. apply polar_lt_asym. exact E.
      * destruct (polar_lt pivot c a).
        -- constructor. inversion Hd; assumption.
        -- constructor. apply polar_lt_asym. exact E.
    + constructor; [constructor; assumption|]. constructor. exact E.
Qed.

Lemma std_sort_locally_sorted (pivot : Point) (l : list Point) :
  Sorted (polar_le pivot) (std_sort (polar_lt pivot) l).
Proof.
  induction l as [|a l IH]; cbn [std_sort]; [constructor|].
  apply insert_locally_sorted. exact IH.
Qed.

(** Sorting a sorted vector changes nothing. *)
Lemma std_sort_sorted_id (pivot : Point) (l : list Point) :
  Sorted (polar_le pivot) l -> std_sort (polar_lt pivot) l = l.
Proof.
  induction 1 as [|a l Hs IH Hd]; cbn [std_sort]; [reflexivity|].
  rewrite IH. destruct Hd as [|b l Hab]; cbn [insert]; [reflexivity|].
  unfold polar_le in Hab. rewrite Hab. reflexivity.
Qed.

(** *** The collinearity filter *)

Lemma filter_collinear_incl (pivot : Point) (l : list Point) (x : Point) :
  In x (filter_collinear pivot l) -> In x l.
Proof.
  induction l as [|a l IH]; cbn [filter_collinear]; [auto|].
  destruct l as [|b l]; [auto|].
  destruct (near_zero (cross pivot a b)).
  - intros H. right. apply IH. exact H.
  - intros [-> | H]; [left; reflexivity | right; apply IH; exact H].
Qed.

(** After the filter the polar angles strictly increase; and a point
    that is strictly before the head of the vector is strictly before
    the head of the filtered vector. *)
Lemma filter_collinear_sorted (pivot : Point) (l : list Point) :
  Sorted (polar_le pivot) l -> Forall (not_below pivot) l ->
  Sorted (angle_lt pivot) (filter_collinear pivot l) /\
  (forall a, l <> [] -> angle_lt pivot a (hd origin l) ->
             angle_lt pivot a (hd origin (filter_collinear pivot l))).
Proof.
  induction 1 as [|b l Hs IH Hd]; intros Hnb.
  - split; [constructor | intros a H; contradiction].
  - apply Forall_cons_iff in Hnb. destruct Hnb as [Hb Hnb].
    specialize (IH Hnb). destruct IH as [IHs IHh].
    cbn [filter_collinear]. destruct l as [|c l].
    + split; [repeat constructor | intros a _ H; exact H].
    + inversion Hd as [|? ? Hbc]; subst.
      apply polar_le_spec in Hbc.
      apply Forall_cons_iff in Hnb as Hnb'. destruct Hnb' as [Hc _].
      unfold near_zero. destruct (Z.eqb_spec (cross pivot b c) 0) as [E | E].
      * split; [exact IHs|]. intros a _ Ha. cbn [hd] in Ha.
        apply IHh; [discriminate|]. cbn [hd].
        apply (same_ray pivot a b c); try assumption. lia.
      * assert (Hlt : angle_lt pivot b c) by (unfold angle_lt; lia).
        split.
        -- constructor; [exact IHs|].
           specialize (IHh b ltac:(discriminate) Hlt).
           destruct (filter_collinear pivot (c :: l)) as [|d fl]; constructor.
           exact IHh.
        -- intros a _ Ha. exact Ha.
Qed.

Lemma filter_collinear_id (pivot : Point) (l : list Point) :
  Sorted (angle_lt pivot) l -> filter_collinear pivot l = l.
Proof.
  induction 1 as [|a l Hs IH Hd]; cbn [filter_collinear]; [reflexivity|].
  destruct Hd as [|b l Hab]; [reflexivity|].
  unfold angle_lt in Hab. unfold near_zero.
  destruct (Z.eqb_spec (cross pivot a b) 0); [lia|]. rewrite IH. reflexivity.
Qed.

Lemma angle_strongly_sorted (pivot : Point) (l : list Point) :
  Forall (not_below pivot) l -> Sorted (angle_lt pivot) l ->
  StronglySorted (angle_lt pivot) l.
Proof.
  intros Hnb Hs. induction Hs as [|a l Hs IH Hd]; [constructor|].
  apply Forall_cons_iff in Hnb. destruct Hnb as [Ha Hnb].
  specialize (IH Hnb). constructor; [exact IH|].
  destruct Hd as [|b l Hab]; [constructor|].
  constructor; [exact Hab|].
  apply StronglySorted_inv in IH. destruct IH as [_ Fb].
  apply Forall_cons_iff in Hnb. destruct Hnb as [Hb Hnb].
  rewrite Forall_forall in *. intros c Hc.
  apply (angle_trans pivot a b c); auto.
Qed.

(** *** The pivot *)

Lemma not_below_lower (pivot p : Point) : not_below pivot p <-> lower p pivot = false.
Proof.
  unfold not_below, lower. rewrite orb_false_iff, andb_false_iff.
  rewrite !Z.ltb_ge, Z.eqb_neq. lia.
Qed.

Lemma lower_chain (a b c : Point) :
  lower a b = true -> lower c b = false -> lower c a = false.
Proof.
  intros H1 H2. apply not_below_lower. apply not_below_lower in H2.
  unfold lower in H1. rewrite orb_true_iff, andb_true_iff in H1.
  rewrite !Z.ltb_lt, Z.eqb_eq in H1. unfold not_below in *. lia.
Qed.

Lemma lower_irrefl (a : Point) : lower a a = false.
Proof. apply not_below_lower. unfold not_below. lia. Qed.

Lemma find_lowest_fold (pts : list Point) (len : nat) :
  forall start lowest,
    (lowest < start)%nat ->
    (forall i, (i < start)%nat -> lower (at_ pts i) (at_ pts lowest) = false) ->
    let k := fold_left (lowest_step pts) (seq start len) lowest in
    (k < start + len)%nat /\
    (forall i, (i < start + len)%nat -> lower (at_ pts i) (at_ pts k) = false).
Proof.
  induction len as [|len IH]; intros start lowest Hl Hmin; cbn [seq fold_left].
  - rewrite Nat.add_0_r. split; assumption.
  - replace (start + S len)%nat with (S start + len)%nat by lia.
    apply IH; unfold lowest_step.
    + destruct (lower (at_ pts start) (at_ pts lowest)); lia.
    + intros i Hi. destruct (lower (at_ pts start) (at_ pts lowest)) eqn:E.
      * destruct (Nat.eq_dec i start) as [-> | Hne]; [apply lower_irrefl|].
        apply (lower_chain _ (at_ pts lowest)); [exact E | apply Hmin; lia].
      * destruct (Nat.eq_dec i start) as [-> | Hne]; [exact E | apply Hmin; lia].
Qed.

Lemma find_lowest_min (pts : list Point) :
  pts <> [] ->
  (find_lowest pts < length pts)%nat /\
  (forall p, In p pts -> not_below (at_ pts (find_lowest pts)) p).
Proof.
  intros Hne.
  assert (Hlen : (1 <= length pts)%nat) by (destruct pts; [contradiction | cbn; lia]).
  destruct (find_lowest_fold pts (length pts - 1) 1 0) as [Hk Hmin].
  - lia.
  - intros i Hi. replace i with 0%nat by lia. apply lower_irrefl.
  - replace (1 + (length pts - 1))%nat with (length pts) in * by lia.
    split; [exact Hk|].
    intros p Hp. apply not_below_lower.
    destruct (In_nth pts p origin Hp) as (i & Hi & <-). apply Hmin. exact Hi.
Qed.

Lemma find_lowest_first (pts : list Point) :
  (forall p, In p pts -> not_below (at_ pts 0) p) -> find_lowest pts = 0%nat.
Proof.
  intros Hmin. unfold find_lowest.
  assert (H : forall len start, (start + len <= length pts)%nat ->
                fold_left (lowest_step pts) (seq start len) 0%nat = 0%nat).
  { induction len as [|len IH]; intros start Hs; [reflexivity|].
    cbn [seq fold_left]. unfold lowest_step at 2.
    replace (lower (at_ pts start) (at_ pts 0)) with false.
    - apply IH. lia.
    - symmetry. apply not_below_lower. apply Hmin. apply nth_In. lia. }
  destruct pts as [|x l]; [reflexivity|].
  apply (H (length (x :: l) - 1)%nat 1%nat). cbn. lia.
Qed.

Lemma In_set_nth (l : list Point) (k : nat) (v p : Point) :
  In p (set_nth l k v) -> p = v \/ In p l.
Proof.
  revert k. induction l as [|a l IH]; intros k H; [destruct H|].
  destruct k as [|k]; cbn [set_nth] in H.
  - destruct H as [<- | H]; [left; reflexivity | right; right; exact H].
  - destruct H as [<- | H]; [right; left; reflexivity|].
    destruct (IH k H) as [-> | H']; [left; reflexivity | right; right; exact H'].
Qed.

Lemma swap_first (x : Point) (l : list Point) (k : nat) :
  (k < length (x :: l))%nat ->
  exists rest, swap (x :: l) 0 k = at_ (x :: l) k :: rest /\
               (forall p, In p rest -> In p (x :: l)) /\
               (k = 0%nat -> rest = l).
Proof.
  intros Hk. unfold swap. cbn [set_nth]. destruct k as [|k].
  - exists l. cbn. repeat split; auto.
  - cbn [set_nth]. eexists. split; [reflexivity|]. split; [|discriminate].
    intros p Hp. apply In_set_nth in Hp. destruct Hp as [-> | Hp].
    + left. reflexivity.
    + right. exact Hp.
Qed.

(** *** The hull is sorted by polar angle *)

(** On a vector of strictly increasing polar angles the scan keeps the
    pivot at the bottom of the stack, and above it a stack of strictly
    decreasing polar angles made of points of the vector. *)
Lemma scan_sorted (pivot : Point) (rest : list Point) :
  forall st,
    StronglySorted (angle_lt pivot) rest ->
    StronglySorted (fun s s' => angle_lt pivot s' s) st ->
    (forall s r, In s st -> In r rest -> angle_lt pivot s r) ->
    exists st',
      fold_left scan_step rest (st ++ [pivot]) = st' ++ [pivot] /\
      StronglySorted (fun s s' => angle_lt pivot s' s) st' /\
      (forall s, In s st' -> In s st \/ In s rest).
Proof.
  induction rest as [|p rest IH]; intros st Hr Hst Hcross.
  - exists st. cbn. auto.
  - cbn [fold_left]. unfold scan_step.
    destruct (pop_nonleft_bottom st pivot p) as (st0 & st1 & E0 & E1).
    rewrite E1. subst st.
    apply StronglySorted_inv in Hr. destruct Hr as [Hr Fp].
    rewrite Forall_forall in Fp.
    assert (Hst1 : StronglySorted (fun s s' => angle_lt pivot s' s) st1).
    { clear - Hst. induction st0 as [|x st0 IH0]; [exact Hst|].
      apply IH0. cbn in Hst. apply StronglySorted_inv in Hst. tauto. }
    destruct (IH (p :: st1)) as (st' & E & Hs' & Hin).
    + exact Hr.
    + constructor; [exact Hst1|]. apply Forall_forall. intros s Hs.
      apply Hcross; [apply in_or_app; right; exact Hs | left; reflexivity].
    + intros s r [<- | Hs] Hr'.
      * apply Fp. exact Hr'.
      * apply Hcross; [apply in_or_app; right; exact Hs | right; exact Hr'].
    + exists st'. split; [exact E|]. split; [exact Hs'|].
      intros s Hs. destruct (Hin s Hs) as [[<- | H] | H].
      * right. left. reflexivity.
      * left. apply in_or_app. right. exact H.
      * right. right. exact H.
Qed.

Lemma rev_strongly_sorted (R : Point -> Point -> Prop) (l : list Point) :
  StronglySorted (fun s s' => R s' s) l -> StronglySorted R (rev l).
Proof.
  induction 1 as [|a l Hs IH F]; cbn [rev]; [constructor|].
  assert (G : forall l1, StronglySorted R l1 -> Forall (fun s => R s a) l1 ->
                         StronglySorted R (l1 ++ [a])).
  { induction 1 as [|b l1 Hs1 IH1 F1]; intros Fa; cbn [app].
    - repeat constructor.
    - apply Forall_cons_iff in Fa. destruct Fa as [Hb Fa].
      constructor; [apply IH1; exact Fa|].
      apply Forall_app. split; [exact F1 | repeat constructor; exact Hb]. }
  apply G; [exact IH|].
  apply Forall_forall. intros s Hs'. rewrite Forall_forall in F.
  apply F. apply in_rev. exact Hs'.
Qed.

(** The hull of Graham scan on at least 3 points: the pivot, followed
    by points of the input in strictly increasing polar angle. *)
Lemma graham_hull_shape (pts : list Point) :
  (3 <= length pts)%nat ->
  exists pivot hull',
    hullGraham pts = pivot :: hull' /\
    hullGraham pts = graham_scan (hullGraham pts) /\
    Sorted (angle_lt pivot) hull' /\
    Forall (not_below pivot) (pivot :: hull').
Proof.
  intros Hlen. unfold hullGraham, convexHullGraham.
  destruct (Nat.ltb_spec (length pts) 3) as [|_]; [lia|]. cbn [snd].
  destruct pts as [|x l]; [cbn in Hlen; lia|].
  destruct (find_lowest_min (x :: l)) as [Hk Hmin]; [discriminate|].
  destruct (swap_first x l (find_lowest (x :: l)) Hk) as (rest & Esw & Hrest & _).
  rewrite Esw. set (pivot := at_ (x :: l) (find_lowest (x :: l))) in *.
  cbn [at_ nth firstn skipn app].
  set (srt := std_sort (polar_lt pivot) rest).
  set (fc := filter_collinear pivot srt).
  assert (Hsrt_in : forall p, In p srt -> In p (x :: l)).
  { intros p Hp. apply Hrest.
    apply (Permutation_in _ (std_sort_perm (polar_lt pivot) rest)). exact Hp. }
  assert (Hnb_srt : Forall (not_below pivot) srt).
  { apply Forall_forall. intros p Hp. apply Hmin. apply Hsrt_in. exact Hp. }
  destruct (filter_collinear_sorted pivot srt (std_sort_locally_sorted pivot rest) Hnb_srt)
    as [Hfc _]. fold fc in Hfc.
  assert (Hnb_fc : Forall (not_below pivot) fc).
  { apply Forall_forall. intros p Hp. rewrite Forall_forall in Hnb_srt.
    apply Hnb_srt. apply (filter_collinear_incl pivot). exact Hp. }
  pose proof (angle_strongly_sorted pivot fc Hnb_fc Hfc) as Hfc'.
  destruct (scan_sorted pivot fc [] Hfc') as (st' & E & Hst' & Hin).
  { constructor. }
  { intros s r []. }
  assert (Hh : graham_scan (pivot :: fc) = pivot :: rev st').
  { unfold graham_scan. cbn [fold_left].
    change (scan_step [] pivot) with ([] ++ [pivot]). rewrite E.
    rewrite rev_app_distr. reflexivity. }
  rewrite !Hh.
  exists pivot, (rev st'). split; [reflexivity|]. split.
  - pose proof (graham_scan_fixed (pivot :: fc)) as Hfix.
    rewrite !Hh in Hfix. symmetry. exact Hfix.
  - split.
    + apply StronglySorted_Sorted. apply rev_strongly_sorted. exact Hst'.
    + constructor.
      * apply Hmin. apply nth_In. exact Hk.
      * apply Forall_forall. intros p Hp. apply in_rev in Hp.
        destruct (Hin p Hp) as [[] | Hp'].
        rewrite Forall_forall in Hnb_fc. apply Hnb_fc. exact Hp'.
Qed.

(** *** The hull is made of points of the input *)

Lemma pop_nonleft_incl (st : list Point) (p x : Point) :
  In x (pop_nonleft st p) -> In x st.
Proof.
  induction st as [|b st IH]; intros H; [exact H|].
  cbn [pop_nonleft] in H. destruct st as [|a st]; [exact H|].
  destruct (cross a b p <=? 0); [right; apply IH; exact H | exact H].
Qed.

Lemma scan_incl (l : list Point) :
  forall st x, In x (fold_left scan_step l st) -> In x l \/ In x st.
Proof.
  induction l as [|p l IH]; intros st x H; [right; exact H|].
  cbn [fold_left] in H. destruct (IH _ _ H) as [Hl | Hs].
  - left. right. exact Hl.
  - destruct Hs as [<- | Hs]; [left; left; reflexivity|].
    right. apply (pop_nonleft_incl st p). exact Hs.
Qed.

Lemma graham_scan_incl (l : list Point) (x : Point) : In x (graham_scan l) -> In x l.
Proof.
  unfold graham_scan. intros H. apply in_rev in H.
  destruct (scan_incl l [] x H) as [Hl | []]. exact Hl.
Qed.

Lemma set_nth_perm (l : list Point) (k : nat) (v : Point) :
  (k < length l)%nat -> Permutation (v :: l) (nth k l origin :: set_nth l k v).
Proof.
  revert k. induction l as [|a l IH]; intros k Hk; [cbn in Hk; lia|].
  destruct k as [|k]; cbn [nth set_nth].
  - apply perm_swap.
  - rewrite perm_swap. rewrite (perm_swap a (nth k l origin)).
    apply perm_skip. apply IH. cbn in Hk. lia.
Qed.

Lemma swap_first_perm (x : Point) (l : list Point) (k : nat) :
  (k < length (x :: l))%nat -> Permutation (x :: l) (swap (x :: l) 0 k).
Proof.
  intros Hk. unfold swap. cbn [set_nth]. destruct k as [|k].
  - reflexivity.
  - cbn [set_nth at_ nth]. apply set_nth_perm. cbn in Hk. lia.
Qed.

(** Every vertex that [convexHullGraham] returns is a point of its
    input. *)
Lemma hullGraham_incl (pts : list Point) (v : Point) :
  In v (hullGraham pts) -> In v pts.
Proof.
  unfold hullGraham, convexHullGraham.
  destruct (Nat.ltb_spec (length pts) 3) as [Hlt | Hlen]; [intros H; exact H|].
  cbn [snd]. intros H. apply graham_scan_incl in H.
  destruct pts as [|x l]; [cbn in Hlen; lia|].
  destruct (find_lowest_min (x :: l)) as [Hk _]; [discriminate|].
  pose proof (swap_first_perm x l _ Hk) as Hperm.
  destruct (swap_first x l (find_lowest (x :: l)) Hk) as (rest & Esw & _ & _).
  rewrite Esw in H, Hperm. cbn [firstn skipn app at_ nth] in H.
  apply (Permutation_in _ (Permutation_sym Hperm)).
  destruct H as [<- | H]; [left; reflexivity|].
  right. apply filter_collinear_incl in H.
  revert H. apply Permutation_in. apply std_sort_perm.
Qed.

Lemma hullGraham_bounded (pts : list Point) :
  Forall bounded_point pts -> Forall bounded_point (hullGraham pts).
Proof.
  rewrite !Forall_forall. intros H v Hv. apply H. apply hullGraham_incl. exact Hv.
Qed.

(** X1: Graham scan is idempotent on bounded points: applied to the
    hull it returned for any such input, [convexHullGraham] returns that
    hull again. *)
Theorem hullGraham_idempotent (pts : list Point) :
  Forall bounded_point pts ->
  hullGraham (hullGraham pts) = hullGraham pts.
Proof.
  intros _.
  destruct (Nat.lt_ge_cases (length pts) 3) as [Hs | Hl].
  - unfold hullGraham at 2. unfold convexHullGraham.
    apply Nat.ltb_lt in Hs. rewrite Hs. cbn [snd].
    unfold hullGraham, convexHullGraham. rewrite Hs. reflexivity.
  - destruct (graham_hull_shape pts Hl) as (pivot & hull' & E & Efix & Hs & Hnb).
    rewrite E in Efix |- *.
    unfold hullGraham at 1. unfold convexHullGraham.
    destruct (Nat.ltb_spec (length (pivot :: hull')) 3) as [|_]; [reflexivity|].
    cbn [snd].
    assert (Hlow : find_lowest (pivot :: hull') = 0%nat).
    { apply find_lowest_first. intros p Hp. cbn [at_ nth].
      rewrite Forall_forall in Hnb. apply Hnb. exact Hp. }
    rewrite Hlow. unfold swap. cbn [set_nth at_ nth firstn skipn app].
    rewrite std_sort_sorted_id.
    + rewrite filter_collinear_id by exact Hs. symmetry. exact Efix.
    + clear - Hs. induction Hs as [|a l Hs IH Hd]; constructor; [exact IH|].
      destruct Hd as [|b l Hab]; constructor. apply angle_lt_polar_le. exact Hab.
Qed.

Lemma hullGraham_idempotent_witness :
  hullGraham (hullGraham scenario1) = hullGraham scenario1.
Proof.
  apply (hullGraham_idempotent scenario1).
  repeat constructor; vm_compute; discriminate.
Defined.

(** ** The three hull algorithms compared *)

(** C1 at the unit square: Graham scan returns the four corners, Chan's
    algorithm returns only three of them (the march is cut after
    [m + 1 = 3] points and never retried), so the vertex sets differ. *)
Theorem chan_graham_differ_on_unit_square :
  hullGraham unit_square = [P 0 0; P 1 0; P 1 1; P 0 1] /\
  (forall fuel, convexHullChan (S fuel) unit_square
                = Some [Fin (P 0 0); Fin (P 1 0); Fin (P 1 1)]) /\
  ~ same_vertex_set (map Fin (hullGraham unit_square))
                    [Fin (P 0 0); Fin (P 1 0); Fin (P 1 1)].
Proof.
  split; [vm_compute; reflexivity|]. split.
  - intros fuel. rewrite (proj1 (convexHullChan_total fuel unit_square)).
    vm_compute. reflexivity.
  - intros H. specialize (H (Fin (P 0 1))). destruct H as [H _].
    assert (Hin : In (Fin (P 0 1)) (map Fin (hullGraham unit_square))).
    { vm_compute. auto. }
    apply H in Hin. cbn in Hin.
    repeat (destruct Hin as [Hin|Hin]; [discriminate Hin|]). exact Hin.
Qed.

(** C2 at the unit square: the corner (0,1) of the input lies strictly
    outside the triangle that Chan's algorithm returns. *)
Theorem chan_hull_misses_input_point :
  (4 <= length unit_square)%nat /\ In (P 0 1) unit_square /\
  convexHullChan 1 unit_square = Some (map Fin [P 0 0; P 1 0; P 1 1]) /\
  on_or_inside [P 0 0; P 1 0; P 1 1] (P 0 1) = false /\
  cross (P 1 1) (P 0 0) (P 0 1) < 0.
Proof. vm_compute. repeat split; auto. Qed.

(** C8 at a five-point set: Chan's algorithm returns the hull
    (0,0), (1,0), (1,1), (0,2); applied to these four vertices it
    returns only three of them. *)
Theorem chan_not_idempotent :
  convexHullChan 1 [P 0 0; P 0 1; P 0 2; P 1 0; P 1 1]
  = Some (map Fin [P 0 0; P 1 0; P 1 1; P 0 2]) /\
  convexHullChan 1 [P 0 0; P 1 0; P 1 1; P 0 2]
  = Some (map Fin [P 0 0; P 1 0; P 1 1]).
Proof. vm_compute. split; reflexivity. Qed.

(** ** Degenerate inputs *)

(** C6, as stated, fails: on the empty vector and on a one-point vector
    [closestPair] returns the initial value [+infinity] of its minimum,
    which is not 0. *)
Lemma closestPair_degenerate_is_not_zero :
  closestPair (@std_sort Point) [] = Some DInf /\
  closestPair (@std_sort Point) [P 1 1] = Some DInf /\
  Some DInf <> Some (Sqrt 0).
Proof. repeat split; try (vm_compute; reflexivity). discriminate. Qed.

Section Degenerate.
Variable sort : (Point -> Point -> bool) -> list Point -> list Point.
Hypothesis sort_perm : forall lt l, Permutation (sort lt l) l.

(** C6, amended: on fewer than 2 points [closestPair] returns
    [+infinity] (no error is raised); on fewer than 3 points each of
    the three hull algorithms returns its input unchanged. *)
Theorem degenerate_inputs_fall_back :
  (forall pts, (length pts < 2)%nat -> closestPair sort pts = Some DInf) /\
  (forall pts, (length pts < 3)%nat ->
     convexHullGraham pts = (pts, pts) /\
     (forall fuel, convexHullJarvis fuel pts = Some (pts, pts)) /\
     (forall fuel, convexHullChan fuel pts = Some (map Fin pts))).
Proof.
  split.
  - intros pts Hlen. unfold closestPair.
    pose proof (sort_perm x_lt pts) as Hp.
    pose proof (Permutation_length Hp) as Hl.
    destruct (sort x_lt pts) as [|a [|b l]]; cbn in Hl.
    + reflexivity.
    + reflexivity.
    + lia.
  - intros pts Hlen.
    unfold convexHullGraham, convexHullJarvis, convexHullChan.
    apply Nat.ltb_lt in Hlen. rewrite Hlen. auto.
Qed.
End Degenerate.

Lemma degenerate_inputs_fall_back_witness :
  closestPair (@std_sort Point) [P 1 1] = Some DInf /\
  convexHullGraham [P 1 1; P 0 0] = ([P 1 1; P 0 0], [P 1 1; P 0 0]).
Proof.
  pose proof (degenerate_inputs_fall_back (@std_sort Point)
                (fun lt l => std_sort_perm lt l)) as [H1 H2].
  split.
  - apply H1. cbn. lia.
  - apply (H2 [P 1 1; P 0 0]). cbn. lia.
Defined.

(** C10: on fewer than 3 points [delaunayTriangulation] returns the
    empty list of triangles. *)
Theorem delaunay_small_input_empty (pts : list QPoint) :
  (length pts < 3)%nat -> delaunayTriangulation pts = [].
Proof.
  intros H. unfold delaunayTriangulation.
  apply Nat.ltb_lt in H. rewrite H. reflexivity.
Qed.

Lemma delaunay_small_input_empty_witness :
  delaunayTriangulation [QP 0 0; QP 3 4] = [].
Proof. apply delaunay_small_input_empty. cbn. lia. Defined.

(** ** Delaunay triangulation *)

Section DelaunayFacts.
Local Open Scope Q_scope.

Lemma Qlt_bool_true (u v : Q) : Qlt_bool u v = true <-> u < v.
Proof.
  unfold Qlt_bool. rewrite negb_true_iff. split.
  - intros H. apply Qnot_le_lt. intros Hle.
    apply Qle_bool_iff in Hle. congruence.
  - intros H. destruct (Qle_bool v u) eqn:E; [|reflexivity].
    apply Qle_bool_iff in E. apply Qlt_not_le in H. contradiction.
Qed.

Lemma Qlt_bool_false (u v : Q) : Qlt_bool u v = false <-> v <= u.
Proof.
  unfold Qlt_bool. rewrite negb_false_iff. apply Qle_bool_iff.
Qed.

Lemma qmin_le (u v : Q) : qmin u v <= u /\ qmin u v <= v.
Proof.
  unfold qmin. destruct (Qlt_bool v u) eqn:E.
  - apply Qlt_bool_true in E. split; lra.
  - apply Qlt_bool_false in E. split; lra.
Qed.

Lemma qmax_ge (u v : Q) : u <= qmax u v /\ v <= qmax u v.
Proof.
  unfold qmax. destruct (Qlt_bool u v) eqn:E.
  - apply Qlt_bool_true in E. split; lra.
  - apply Qlt_bool_false in E. split; lra.
Qed.

(** [lra] does not look through a division, also by a constant. *)
Lemma Qhalf (u : Q) : u / 2 == u * (1 # 2).
Proof. field. Qed.

Lemma box_fold_grows (pts : list QPoint) (b : Bounds) (p : QPoint) :
  in_box b p -> in_box (fold_left box_step pts b) p.
Proof.
  revert b. induction pts as [|a pts IH]; intros b Hb; [exact Hb|].
  cbn [fold_left]. apply IH.
  destruct Hb as [[H1 H2] [H3 H4]]. unfold in_box, box_step; cbn.
  pose proof (qmin_le (minX b) (qx a)). pose proof (qmin_le (minY b) (qy a)).
  pose proof (qmax_ge (maxX b) (qx a)). pose proof (qmax_ge (maxY b) (qy a)).
  repeat split; lra.
Qed.

Lemma box_fold_covers (pts : list QPoint) (b : Bounds) (p : QPoint) :
  In p pts -> in_box (fold_left box_step pts b) p.
Proof.
  revert b. induction pts as [|a pts IH]; intros b Hin; [destruct Hin|].
  cbn [fold_left]. destruct Hin as [->|Hin]; [|apply IH; exact Hin].
  apply box_fold_grows. unfold in_box, box_step; cbn.
  pose proof (qmin_le (minX b) (qx p)). pose proof (qmin_le (minY b) (qy p)).
  pose proof (qmax_ge (maxX b) (qx p)). pose proof (qmax_ge (maxY b) (qy p)).
  repeat split; lra.
Qed.

Lemma bounds_cover (pts : list QPoint) (p : QPoint) :
  In p pts -> in_box (bounds pts) p.
Proof. intros H. unfold bounds. apply (box_fold_covers pts _ p H). Qed.

(** The determinant of the super-triangle at any point, in closed form:
    with [u, v] the offsets of [p] from the centre of the box and [d]
    the value [dmax], it is [-4 d^2 (14 d^2 - 3 u^2 - 3 v^2 - d v)]. *)
Lemma super_det_closed_form (b : Bounds) (p : QPoint) :
  let d := qmax (maxX b - minX b) (maxY b - minY b) in
  let u := qx p - (minX b + maxX b) / 2 in
  let v := qy p - (minY b + maxY b) / 2 in
  circum_det (superTriangle b) p
  == - (4 # 1) * d * d * ((14 # 1) * d * d - (3 # 1) * u * u - (3 # 1) * v * v - d * v).
Proof.
  intros d u v. unfold circum_det, superTriangle. cbn.
  fold d. subst u v. field.
Qed.

(** The super-triangle is listed clockwise, so for a point of the
    bounding box, which lies inside its circumcircle, the determinant is
    never positive. *)
Lemma super_never_in_circumcircle (b : Bounds) (p : QPoint) :
  in_box b p -> inCircumcircle (superTriangle b) p = false.
Proof.
  intros [[H1 H2] [H3 H4]]. unfold inCircumcircle. apply Qlt_bool_false.
  rewrite super_det_closed_form.
  pose proof (qmax_ge (maxX b - minX b) (maxY b - minY b)) as [Hdx Hdy].
  set (d := qmax (maxX b - minX b) (maxY b - minY b)) in *.
  set (u := qx p - (minX b + maxX b) / 2).
  set (v := qy p - (minY b + maxY b) / 2).
  assert (Hu : - d <= 2 * u <= d) by (subst u; rewrite Qhalf; lra).
  assert (Hv : - d <= 2 * v <= d) by (subst v; rewrite Qhalf; lra).
  assert (Hd : 0 <= d) by lra.
  clearbody d u v.
  assert (Hu2 : (4 # 1) * u * u <= d * d) by nra.
  assert (Hv2 : (4 # 1) * v * v <= d * d) by nra.
  assert (Hdv : (2 # 1) * d * v <= d * d) by nra.
  assert (Hd2 : 0 <= d * d) by nra.
  assert (Hk : 0 <= (14 # 1) * d * d - (3 # 1) * u * u - (3 # 1) * v * v - d * v) by lra.
  nra.
Qed.

Lemma insert_point_keeps_super (b : Bounds) (p : QPoint) :
  in_box b p -> insert_point [superTriangle b] p = [superTriangle b].
Proof.
  intros H. unfold insert_point. cbn [flat_map filter].
  rewrite (super_never_in_circumcircle b p H). reflexivity.
Qed.

Lemma insert_all_keeps_super (b : Bounds) (pts : list QPoint) :
  (forall p, In p pts -> in_box b p) ->
  fold_left insert_point pts [superTriangle b] = [superTriangle b].
Proof.
  induction pts as [|a pts IH]; intros H; [reflexivity|].
  cbn [fold_left]. rewrite insert_point_keeps_super by (apply H; left; reflexivity).
  apply IH. intros p Hp. apply H. right. exact Hp.
Qed.

(** What [delaunayTriangulation] returns: the super-triangle alone, if
    the final filter keeps it, and nothing otherwise. *)
Lemma delaunay_result (pts : list QPoint) :
  delaunayTriangulation pts = [] \/
  (delaunayTriangulation pts = [superTriangle (bounds pts)] /\
   outside (bounds pts) (tri_a (superTriangle (bounds pts))) = false /\
   outside (bounds pts) (tri_c (superTriangle (bounds pts))) = false).
Proof.
  unfold delaunayTriangulation. destruct (length pts <? 3)%nat; [left; reflexivity|].
  rewrite insert_all_keeps_super by (intros p; apply bounds_cover).
  cbn [filter].
  destruct (outside (bounds pts) (tri_a (superTriangle (bounds pts)))); [left; reflexivity|].
  destruct (outside (bounds pts) (tri_b (superTriangle (bounds pts)))); [left; reflexivity|].
  destruct (outside (bounds pts) (tri_c (superTriangle (bounds pts)))); [left; reflexivity|].
  right. auto.
Qed.

Lemma not_outside (b : Bounds) (p : QPoint) :
  outside b p = false -> in_box b p.
Proof.
  unfold outside. rewrite !orb_false_iff, !Qlt_bool_false.
  intros [[[H1 H2] H3] H4]. repeat split; assumption.
Qed.

(** A super-triangle that survives the final filter is a single point,
    and every input point coincides with it. *)
Lemma kept_super_is_a_point (b : Bounds) (p : QPoint) :
  in_box b p ->
  in_box b (tri_a (superTriangle b)) -> in_box b (tri_c (superTriangle b)) ->
  qx (tri_a (superTriangle b)) == qx p /\ qy (tri_a (superTriangle b)) == qy p.
Proof.
  unfold in_box, superTriangle. cbn.
  pose proof (qmax_ge (maxX b - minX b) (maxY b - minY b)) as [Hdx Hdy].
  set (d := qmax (maxX b - minX b) (maxY b - minY b)) in *. clearbody d.
  rewrite !Qhalf.
  intros [[H1 H2] [H3 H4]] [[A1 A2] [A3 A4]] [[C1 C2] [C3 C4]].
  split; lra.
Qed.

(** No point of the input lies strictly inside a circle through the
    three vertices of a returned triangle -- but only because the one
    triangle that is ever returned is a point (all input points
    coincide); see [delaunay_returns_nothing]. *)
Lemma delaunay_empty_circumcircle (pts : list QPoint) (t : Triangle) (p : QPoint) :
  (3 <= length pts)%nat ->
  In t (delaunayTriangulation pts) -> In p pts ->
  ~ strictly_inside_circumcircle t p.
Proof.
  intros _ Ht Hp.
  destruct (delaunay_result pts) as [E | (E & Ha & Hc)]; rewrite E in Ht.
  - destruct Ht.
  - destruct Ht as [<- | []].
    apply not_outside in Ha, Hc.
    destruct (kept_super_is_a_point _ p (bounds_cover pts p Hp) Ha Hc) as [Hx Hy].
    intros (o & r2 & Hoa & _ & _ & Hop).
    unfold qdistSq in Hoa, Hop. rewrite Hx, Hy in Hoa. lra.
Qed.

(** X4: as soon as two input points differ, [delaunayTriangulation]
    returns no triangle: the super-triangle is never split and is
    dropped by the final filter. *)
Theorem delaunay_returns_nothing (pts : list QPoint) (p q : QPoint) :
  In p pts -> In q pts -> ~ (qx p == qx q /\ qy p == qy q) ->
  delaunayTriangulation pts = [].
Proof.
  intros Hp Hq Hne.
  destruct (delaunay_result pts) as [E | (E & Ha & Hc)]; [exact E|].
  exfalso. apply Hne. apply not_outside in Ha, Hc.
  destruct (kept_super_is_a_point _ p (bounds_cover pts p Hp) Ha Hc) as [Hx Hy].
  destruct (kept_super_is_a_point _ q (bounds_cover pts q Hq) Ha Hc) as [Hx' Hy'].
  split; lra.
Qed.

End DelaunayFacts.

Lemma delaunay_returns_nothing_witness :
  delaunayTriangulation [QP 0 0; QP 4 0; QP 0 4; QP 4 4; QP 1 2] = [].
Proof.
  apply (delaunay_returns_nothing _ (QP 0 0) (QP 4 0)).
  - left. reflexivity.
  - right. left. reflexivity.
  - intros [H _]. vm_compute in H. discriminate H.
Defined.


(** ** Closest pair of points *)

(** *** Distances *)

Lemma dist_le_refl (d : dist) : dist_le d d.
Proof. destruct d; cbn; [lia|exact I]. Qed.

Lemma dist_le_trans (a b c : dist) : dist_le a b -> dist_le b c -> dist_le a c.
Proof. destruct a, b, c; cbn; try tauto; lia. Qed.

Lemma dist_le_antisym (a b : dist) : dist_le a b -> dist_le b a -> a = b.
Proof.
  destruct a, b; cbn; try tauto. intros H1 H2. f_equal. lia.
Qed.

Lemma dist_min_cases (a b : dist) : dist_min a b = a \/ dist_min a b = b.
Proof.
  destruct a as [u|], b as [v|]; cbn; auto. destruct (v <? u); auto.
Qed.

Lemma dist_min_le_l (a b : dist) : dist_le (dist_min a b) a.
Proof.
  destruct a as [u|], b as [v|]; cbn; try exact I; try lia.
  destruct (v <? u) eqn:E; cbn; [apply Z.ltb_lt in E|]; lia.
Qed.

Lemma dist_min_le_r (a b : dist) : dist_le (dist_min a b) b.
Proof.
  destruct a as [u|], b as [v|]; cbn; try exact I; try lia.
  destruct (v <? u) eqn:E; cbn; [|apply Z.ltb_ge in E]; lia.
Qed.

Lemma dist_min_glb (a b c : dist) :
  dist_le c a -> dist_le c b -> dist_le c (dist_min a b).
Proof.
  intros Ha Hb. destruct (dist_min_cases a b) as [-> | ->]; assumption.
Qed.

Lemma distSq_sym (a b : Point) : distSq a b = distSq b a.
Proof. unfold distSq. cbv zeta. ring. Qed.

Lemma distSq_nonneg (a b : Point) : 0 <= distSq a b.
Proof.
  unfold distSq. cbv zeta.
  pose proof (Z.square_nonneg (px a - px b)).
  pose proof (Z.square_nonneg (py a - py b)). lia.
Qed.

(** *** Pairs of positions *)

Lemma Before_In (l : list Point) (a b : Point) :
  Before l a b -> In a l /\ In b l.
Proof.
  induction 1 as [a b l H | x a b l H IH].
  - split; [left; reflexivity | right; exact H].
  - destruct IH. split; right; assumption.
Qed.

Lemma Before_app_l (l1 l2 : list Point) (a b : Point) :
  Before l1 a b -> Before (l1 ++ l2) a b.
Proof.
  induction 1 as [a b l H | x a b l H IH]; cbn.
  - apply Before_here. apply in_or_app. left. exact H.
  - apply Before_later. exact IH.
Qed.

Lemma Before_app_r (l1 l2 : list Point) (a b : Point) :
  Before l2 a b -> Before (l1 ++ l2) a b.
Proof.
  intros H. induction l1 as [|x l1 IH]; cbn; [exact H|].
  apply Before_later. exact IH.
Qed.

Lemma Before_app_cross (l1 l2 : list Point) (a b : Point) :
  In a l1 -> In b l2 -> Before (l1 ++ l2) a b.
Proof.
  intros Ha Hb. induction l1 as [|x l1 IH]; [destruct Ha|].
  cbn. destruct Ha as [-> | Ha].
  - apply Before_here. apply in_or_app. right. exact Hb.
  - apply Before_later. apply IH. exact Ha.
Qed.

Lemma Before_app_inv (l1 l2 : list Point) (a b : Point) :
  Before (l1 ++ l2) a b ->
  Before l1 a b \/ Before l2 a b \/ (In a l1 /\ In b l2).
Proof.
  induction l1 as [|x l1 IH]; cbn; intros H; [auto|].
  inversion H as [a' b' l' Hin | x' a' b' l' Hb]; subst.
  - apply in_app_or in Hin. destruct Hin as [Hin | Hin].
    + left. apply Before_here. exact Hin.
    + right. right. split; [left; reflexivity | exact Hin].
  - destruct (IH Hb) as [H1 | [H2 | [H3 H4]]].
    + left. apply Before_later. exact H1.
    + right. left. exact H2.
    + right. right. split; [right; exact H3 | exact H4].
Qed.

Lemma Before_split (l : list Point) (a b : Point) :
  Before l a b <-> exists l1 l2, l = l1 ++ a :: l2 /\ In b l2.
Proof.
  split.
  - induction 1 as [a b l H | x a b l H (l1 & l2 & -> & Hin)].
    + exists [], l. auto.
    + exists (x :: l1), l2. auto.
  - intros (l1 & l2 & -> & Hin). apply Before_app_r. apply Before_here. exact Hin.
Qed.

Lemma Pair_sym (l : list Point) (a b : Point) : Pair l a b -> Pair l b a.
Proof. unfold Pair. tauto. Qed.

(** Two positions stay two positions under a permutation. *)
Lemma Pair_perm (l l' : list Point) (a b : Point) :
  Permutation l l' -> Pair l a b -> Pair l' a b.
Proof.
  intros Hp. revert a b.
  induction Hp as [| x l l' Hp IH | x y l | l l' l'' Hp1 IH1 Hp2 IH2]; intros a b H.
  - exact H.
  - destruct H as [H | H]; inversion H as [? ? ? Hin | ? ? ? ? Hb]; subst.
    + left. apply Before_here. apply (Permutation_in _ Hp Hin).
    + destruct (IH a b (or_introl Hb)) as [H1 | H1];
        [left | right]; apply Before_later; exact H1.
    + right. apply Before_here. apply (Permutation_in _ Hp Hin).
    + destruct (IH a b (or_intror Hb)) as [H1 | H1];
        [left | right]; apply Before_later; exact H1.
  - assert (Hsw : forall u v, Before (y :: x :: l) u v -> Pair (x :: y :: l) u v).
    { intros u v Hb.
      inversion Hb as [? ? ? Hin | ? ? ? ? Hb1]; subst.
      - destruct Hin as [<- | Hin].
        + right. apply Before_here. left. reflexivity.
        + left. apply Before_later. apply Before_here. exact Hin.
      - inversion Hb1 as [? ? ? Hin | ? ? ? ? Hb2]; subst.
        + left. apply Before_here. right. exact Hin.
        + left. do 2 apply Before_later. exact Hb2. }
    destruct H as [H | H]; [apply Hsw; exact H | apply Pair_sym, Hsw; exact H].
  - apply IH2, IH1, H.
Qed.

Lemma Pair_app_inv (l1 l2 : list Point) (a b : Point) :
  Pair (l1 ++ l2) a b ->
  Pair l1 a b \/ Pair l2 a b \/ (In a l1 /\ In b l2) \/ (In b l1 /\ In a l2).
Proof.
  unfold Pair. intros [H | H]; apply Before_app_inv in H; tauto.
Qed.

Lemma Pair_app_l (l1 l2 : list Point) (a b : Point) :
  Pair l1 a b -> Pair (l1 ++ l2) a b.
Proof. unfold Pair. intros [H | H]; [left | right]; apply Before_app_l; exact H. Qed.

Lemma Pair_app_r (l1 l2 : list Point) (a b : Point) :
  Pair l2 a b -> Pair (l1 ++ l2) a b.
Proof. unfold Pair. intros [H | H]; [left | right]; apply Before_app_r; exact H. Qed.

Lemma Before_filter (f : Point -> bool) (l : list Point) (a b : Point) :
  Before l a b -> f a = true -> f b = true -> Before (filter f l) a b.
Proof.
  intros H Ha Hb. induction H as [a b l H | x a b l H IH]; cbn.
  - rewrite Ha. apply Before_here. apply filter_In. auto.
  - destruct (f x); [apply Before_later|]; apply IH; assumption.
Qed.

Lemma Before_filter_inv (f : Point -> bool) (l : list Point) (a b : Point) :
  Before (filter f l) a b -> Before l a b.
Proof.
  induction l as [|x l IH]; cbn; intros H; [exact H|].
  destruct (f x).
  - inversion H as [? ? ? Hin | ? ? ? ? Hb]; subst.
    + apply Before_here. apply filter_In in Hin. tauto.
    + apply Before_later. apply IH. exact Hb.
  - apply Before_later. apply IH. exact H.
Qed.

(** *** The reference minimum *)

Lemma min_dist_to_lower (a : Point) (l : list Point) (b : Point) :
  In b l -> dist_le (min_dist_to a l) (Sqrt (distSq a b)).
Proof.
  induction l as [|c l IH]; intros H; [destruct H|].
  cbn [min_dist_to]. destruct H as [-> | H].
  - apply dist_min_le_l.
  - eapply dist_le_trans; [apply dist_min_le_r | apply IH; exact H].
Qed.

Lemma min_dist_to_attained (a : Point) (l : list Point) :
  min_dist_to a l = DInf \/ exists b, In b l /\ min_dist_to a l = Sqrt (distSq a b).
Proof.
  induction l as [|c l IH]; [left; reflexivity|].
  cbn [min_dist_to].
  destruct (dist_min_cases (Sqrt (distSq a c)) (min_dist_to a l)) as [E | E]; rewrite E.
  - right. exists c. split; [left|]; reflexivity.
  - destruct IH as [IH | (b & Hb & IH)]; [left; exact IH|].
    right. exists b. split; [right|]; assumption.
Qed.

Lemma brute_force_min_lower (l : list Point) : lower_bound l (brute_force_min l).
Proof.
  assert (Hb : forall a b, Before l a b -> dist_le (brute_force_min l) (Sqrt (distSq a b))).
  { intros a b H. induction H as [a b l H | x a b l H IH]; cbn [brute_force_min].
    - eapply dist_le_trans; [apply dist_min_le_l | apply min_dist_to_lower; exact H].
    - eapply dist_le_trans; [apply dist_min_le_r | exact IH]. }
  intros a b [H | H]; [apply Hb; exact H|].
  rewrite distSq_sym. apply Hb. exact H.
Qed.

Lemma brute_force_min_attained (l : list Point) : attained l (brute_force_min l).
Proof.
  induction l as [|a l IH]; [left; reflexivity|].
  cbn [brute_force_min].
  destruct (dist_min_cases (min_dist_to a l) (brute_force_min l)) as [E | E]; rewrite E.
  - destruct (min_dist_to_attained a l) as [H | (b & Hb & H)]; [left; exact H|].
    right. exists a, b. split; [left; apply Before_here; exact Hb | exact H].
  - destruct IH as [H | (u & v & Hp & H)]; [left; exact H|].
    right. exists u, v. split; [|exact H].
    destruct Hp as [Hp | Hp]; [left | right]; apply Before_later; exact Hp.
Qed.

(** A list of at least two points has a pair. *)
Lemma Pair_exists (l : list Point) :
  (2 <= length l)%nat -> exists a b, Pair l a b.
Proof.
  destruct l as [|a [|b l]]; cbn; try lia. intros _.
  exists a, b. left. apply Before_here. left. reflexivity.
Qed.

(** The minimum is determined by its two properties, up to a
    permutation of the points. *)
Lemma closest_unique (l l' : list Point) (d d' : dist) :
  Permutation l l' -> (2 <= length l)%nat ->
  lower_bound l d -> attained l d ->
  lower_bound l' d' -> attained l' d' ->
  d = d'.
Proof.
  intros Hp Hlen Hl Ha Hl' Ha'.
  destruct (Pair_exists l Hlen) as (a0 & b0 & H0).
  assert (Hne : d <> DInf).
  { intros ->. apply (Hl a0 b0 H0). }
  assert (Hne' : d' <> DInf).
  { intros ->. apply (Hl' a0 b0). apply (Pair_perm l l' _ _ Hp H0). }
  destruct Ha as [Ha | (a & b & Hab & Ha)]; [contradiction|].
  destruct Ha' as [Ha' | (a' & b' & Hab' & Ha')]; [contradiction|].
  apply dist_le_antisym.
  - rewrite Ha'. apply Hl. apply (Pair_perm l' l _ _ (Permutation_sym Hp) Hab').
  - rewrite Ha. apply Hl'. apply (Pair_perm l l' _ _ Hp Hab).
Qed.

(** *** Index ranges of a vector

    The recursion works on the range [left..right] of one vector.  The
    vector is split as [pre ++ seg ++ post], with [seg] the range. *)

Lemma slice_app (pre seg post : list Point) (left right : Z) :
  left = Z.of_nat (length pre) ->
  right = left + Z.of_nat (length seg) - 1 ->
  slice (pre ++ seg ++ post) left right = seg.
Proof.
  intros -> ->. unfold slice.
  replace (Z.to_nat (Z.of_nat (length pre) + Z.of_nat (length seg) - 1
                     - Z.of_nat (length pre) + 1)) with (length seg) by lia.
  rewrite Nat2Z.id, skipn_app, skipn_all, Nat.sub_diag. cbn [skipn app].
  rewrite firstn_app, firstn_all, Nat.sub_diag. cbn [firstn]. apply app_nil_r.
Qed.

Lemma splice_app (pre seg post new : list Point) (left right : Z) :
  left = Z.of_nat (length pre) ->
  right = left + Z.of_nat (length seg) - 1 ->
  splice (pre ++ seg ++ post) left right new = pre ++ new ++ post.
Proof.
  intros -> ->. unfold splice.
  replace (Z.to_nat (Z.of_nat (length pre) + Z.of_nat (length seg) - 1 + 1))
    with (length pre + length seg)%nat by lia.
  rewrite Nat2Z.id, firstn_app, firstn_all, Nat.sub_diag. cbn [firstn].
  rewrite app_nil_r. f_equal. f_equal.
  rewrite app_assoc, skipn_app, skipn_all2 by (rewrite length_app; lia).
  rewrite length_app. replace (length pre + length seg - (length pre + length seg))%nat
    with 0%nat by lia. reflexivity.
Qed.

Lemma zat_app (pre seg post : list Point) (k : nat) :
  (k < length seg)%nat ->
  zat (pre ++ seg ++ post) (Z.of_nat (length pre) + Z.of_nat k) = nth k seg origin.
Proof.
  intros Hk. unfold zat.
  replace (Z.to_nat (Z.of_nat (length pre) + Z.of_nat k)) with (length pre + k)%nat by lia.
  rewrite app_nth2_plus, app_nth1 by exact Hk. reflexivity.
Qed.

Lemma zrange_nil (lo hi : Z) : hi < lo -> zrange lo hi = [].
Proof.
  intros H. unfold zrange. replace (Z.to_nat (hi - lo + 1)) with 0%nat by lia.
  reflexivity.
Qed.

Lemma zrange_cons (lo hi : Z) : lo <= hi -> zrange lo hi = lo :: zrange (lo + 1) hi.
Proof.
  intros H. unfold zrange.
  replace (Z.to_nat (hi - lo + 1)) with (S (Z.to_nat (hi - (lo + 1) + 1))) by lia.
  cbn [seq map]. f_equal; [lia|].
  rewrite <- seq_shift, map_map. apply map_ext. intros k. lia.
Qed.

Lemma zat_first (pre seg post : list Point) (a : Point) (lo : Z) :
  lo = Z.of_nat (length pre) -> zat (pre ++ (a :: seg) ++ post) lo = a.
Proof.
  intros ->. unfold zat. rewrite Nat2Z.id, app_nth2, Nat.sub_diag by lia. reflexivity.
Qed.

Lemma inner_loop_on_range (a : Point) (seg : list Point) :
  forall pre post minDist lo hi,
    lo = Z.of_nat (length pre) ->
    hi = lo + Z.of_nat (length seg) - 1 ->
    fold_left (fun minDist j =>
                 dist_min minDist (Sqrt (distSq a (zat (pre ++ seg ++ post) j))))
              (zrange lo hi) minDist
    = bf_inner a seg minDist.
Proof.
  induction seg as [|b seg IH]; intros pre post minDist lo hi Hlo Hhi.
  - rewrite zrange_nil by (cbn in Hhi; lia). reflexivity.
  - rewrite zrange_cons by (cbn [length] in Hhi; lia). cbn [fold_left bf_inner].
    rewrite (zat_first pre seg post b lo Hlo).
    assert (E : pre ++ (b :: seg) ++ post = (pre ++ [b]) ++ seg ++ post)
      by (rewrite <- app_assoc; reflexivity).
    rewrite E. apply IH.
    + rewrite length_app. cbn [length]. lia.
    + cbn [length] in Hhi. lia.
Qed.

Lemma brute_force_on_range (seg : list Point) :
  forall pre post minDist lo hi,
    lo = Z.of_nat (length pre) ->
    hi = lo + Z.of_nat (length seg) - 1 ->
    fold_left
      (fun minDist i =>
         fold_left (fun minDist j =>
                      dist_min minDist
                        (Sqrt (distSq (zat (pre ++ seg ++ post) i)
                                      (zat (pre ++ seg ++ post) j))))
                   (zrange (i + 1) hi) minDist)
      (zrange lo hi) minDist
    = bf_outer seg minDist.
Proof.
  induction seg as [|a seg IH]; intros pre post minDist lo hi Hlo Hhi.
  - rewrite zrange_nil by (cbn in Hhi; lia). reflexivity.
  - rewrite zrange_cons by (cbn [length] in Hhi; lia). cbn [fold_left bf_outer].
    rewrite (zat_first pre seg post a lo Hlo).
    assert (E : pre ++ (a :: seg) ++ post = (pre ++ [a]) ++ seg ++ post)
      by (rewrite <- app_assoc; reflexivity).
    rewrite E.
    rewrite (inner_loop_on_range a seg (pre ++ [a]) post minDist (lo + 1) hi).
    + apply IH.
      * rewrite length_app. cbn [length]. lia.
      * cbn [length] in Hhi. lia.
    + rewrite length_app. cbn [length]. lia.
    + cbn [length] in Hhi. lia.
Qed.

Lemma brute_force_app (pre seg post : list Point) (left right : Z) :
  left = Z.of_nat (length pre) ->
  right = left + Z.of_nat (length seg) - 1 ->
  brute_force (pre ++ seg ++ post) left right = bf_outer seg DInf.
Proof. intros H1 H2. unfold brute_force. apply brute_force_on_range; assumption. Qed.

Lemma bf_inner_le (a : Point) (l : list Point) (md : dist) :
  dist_le (bf_inner a l md) md.
Proof.
  revert md. induction l as [|b l IH]; intros md; [apply dist_le_refl|].
  cbn [bf_inner fold_left]. eapply dist_le_trans; [apply IH | apply dist_min_le_l].
Qed.

Lemma bf_inner_lower (a : Point) (l : list Point) (md : dist) (b : Point) :
  In b l -> dist_le (bf_inner a l md) (Sqrt (distSq a b)).
Proof.
  revert md. induction l as [|c l IH]; intros md H; [destruct H|].
  cbn [bf_inner fold_left]. destruct H as [-> | H].
  - eapply dist_le_trans; [apply bf_inner_le | apply dist_min_le_r].
  - apply IH. exact H.
Qed.

Lemma bf_inner_attained (a : Point) (l : list Point) (md : dist) :
  bf_inner a l md = md \/ exists b, In b l /\ bf_inner a l md = Sqrt (distSq a b).
Proof.
  revert md. induction l as [|c l IH]; intros md; [left; reflexivity|].
  cbn [bf_inner fold_left].
  destruct (IH (dist_min md (Sqrt (distSq a c)))) as [E | (b & Hb & E)].
  - fold (bf_inner a l (dist_min md (Sqrt (distSq a c)))) in E. 
    unfold bf_inner in E |- *. rewrite E.
    destruct (dist_min_cases md (Sqrt (distSq a c))) as [E' | E']; rewrite E'.
    + left. reflexivity.
    + right. exists c. split; [left|]; reflexivity.
  - right. exists b. split; [right; exact Hb | exact E].
Qed.

Lemma bf_outer_le (l : list Point) (md : dist) : dist_le (bf_outer l md) md.
Proof.
  revert md. induction l as [|a l IH]; intros md; [apply dist_le_refl|].
  cbn [bf_outer]. eapply dist_le_trans; [apply IH | apply bf_inner_le].
Qed.

Lemma bf_outer_lower (l : list Point) (md : dist) (a b : Point) :
  Before l a b -> dist_le (bf_outer l md) (Sqrt (distSq a b)).
Proof.
  intros H. revert md. induction H as [a b l H | x a b l H IH]; intros md; cbn [bf_outer].
  - eapply dist_le_trans; [apply bf_outer_le | apply bf_inner_lower; exact H].
  - apply IH.
Qed.

Lemma bf_outer_attained (l : list Point) (md : dist) :
  bf_outer l md = md \/
  exists a b, Before l a b /\ bf_outer l md = Sqrt (distSq a b).
Proof.
  revert md. induction l as [|a l IH]; intros md; [left; reflexivity|].
  cbn [bf_outer].
  destruct (IH (bf_inner a l md)) as [E | (u & v & Huv & E)].
  - rewrite E. destruct (bf_inner_attained a l md) as [E' | (b & Hb & E')].
    + left. exact E'.
    + right. exists a, b. split; [apply Before_here; exact Hb | exact E'].
  - right. exists u, v. split; [apply Before_later; exact Huv | exact E].
Qed.

(** *** Merging and sortedness *)

Lemma merge_nil_r (lt : Point -> Point -> bool) (l : list Point) : merge lt l [] = l.
Proof. destruct l; reflexivity. Qed.

Lemma merge_nil_l (lt : Point -> Point -> bool) (l : list Point) : merge lt [] l = l.
Proof. destruct l; reflexivity. Qed.

Lemma merge_cons (lt : Point -> Point -> bool) (a b : Point) (l1 l2 : list Point) :
  merge lt (a :: l1) (b :: l2)
  = if lt b a then b :: merge lt (a :: l1) l2 else a :: merge lt l1 (b :: l2).
Proof. reflexivity. Qed.

Lemma merge_perm (lt : Point -> Point -> bool) (l1 l2 : list Point) :
  Permutation (merge lt l1 l2) (l1 ++ l2).
Proof.
  revert l2. induction l1 as [|a l1 IH1]; intros l2; [rewrite merge_nil_l; reflexivity|].
  induction l2 as [|b l2 IH2].
  - rewrite merge_nil_r, app_nil_r. reflexivity.
  - rewrite merge_cons. destruct (lt b a).
    + rewrite IH2. apply (Permutation_middle (a :: l1) l2 b).
    + rewrite IH1. reflexivity.
Qed.

Lemma yle_trans (a b c : Point) : yle a b -> yle b c -> yle a c.
Proof. unfold yle. lia. Qed.

Lemma Forall_yle_trans (a b : Point) (l : list Point) :
  yle a b -> Forall (yle b) l -> Forall (yle a) l.
Proof.
  intros Hab H. eapply Forall_impl; [|exact H].
  intros c Hc. eapply yle_trans; eassumption.
Qed.

Lemma merge_sorted (l1 l2 : list Point) :
  StronglySorted yle l1 -> StronglySorted yle l2 ->
  StronglySorted yle (merge y_lt l1 l2).
Proof.
  revert l2. induction l1 as [|a l1 IH1]; intros l2 H1 H2; [rewrite merge_nil_l; exact H2|].
  induction l2 as [|b l2 IH2]; [rewrite merge_nil_r; exact H1|].
  rewrite merge_cons.
  apply StronglySorted_inv in H1 as H1'. destruct H1' as [S1 F1].
  apply StronglySorted_inv in H2 as H2'. destruct H2' as [S2 F2].
  unfold y_lt. destruct (py b <? py a) eqn:E.
  - apply Z.ltb_lt in E. constructor; [apply IH2; exact S2|].
    apply (Permutation_Forall (Permutation_sym (merge_perm y_lt (a :: l1) l2))).
    apply Forall_app. split; [|exact F2].
    constructor; [unfold yle; lia|].
    apply (Forall_yle_trans b a); [unfold yle; lia | exact F1].
  - apply Z.ltb_ge in E. constructor; [apply IH1; assumption|].
    apply (Permutation_Forall (Permutation_sym (merge_perm y_lt l1 (b :: l2)))).
    apply Forall_app. split; [exact F1|].
    constructor; [exact E|].
    apply (Forall_yle_trans a b); [exact E | exact F2].
Qed.

Lemma filter_sorted (R : Point -> Point -> Prop) (f : Point -> bool) (l : list Point) :
  StronglySorted R l -> StronglySorted R (filter f l).
Proof.
  induction 1 as [|a l H IH F]; cbn; [constructor|].
  destruct (f a); [|exact IH].
  constructor; [exact IH|].
  apply Forall_forall. intros b Hb. apply filter_In in Hb.
  rewrite Forall_forall in F. apply F. tauto.
Qed.

Lemma sorted_Before (R : Point -> Point -> Prop) (l : list Point) (a b : Point) :
  StronglySorted R l -> Before l a b -> R a b.
Proof.
  intros Hs Hb. induction Hb as [a b l H | x a b l H IH].
  - apply StronglySorted_inv in Hs. destruct Hs as [_ F].
    rewrite Forall_forall in F. apply F. exact H.
  - apply StronglySorted_inv in Hs. apply IH. tauto.
Qed.

Lemma sorted_app_inv (R : Point -> Point -> Prop) (l1 l2 : list Point) :
  StronglySorted R (l1 ++ l2) ->
  StronglySorted R l1 /\ StronglySorted R l2 /\
  (forall a b, In a l1 -> In b l2 -> R a b).
Proof.
  induction l1 as [|x l1 IH]; cbn; intros H.
  - repeat split; [constructor | exact H | intros a b []].
  - apply StronglySorted_inv in H. destruct H as [Hs F].
    destruct (IH Hs) as (S1 & S2 & Hc).
    rewrite Forall_forall in F. repeat split.
    + constructor; [exact S1|]. apply Forall_forall. intros b Hb.
      apply F. apply in_or_app. left. exact Hb.
    + exact S2.
    + intros a b [-> | Ha] Hb.
      * apply F. apply in_or_app. right. exact Hb.
      * apply Hc; assumption.
Qed.

(** *** The strip scan *)

Lemma scan_from_le (d : dist) (a : Point) (l : list Point) (md : dist) :
  dist_le (scan_from d a l md) md.
Proof.
  revert md. induction l as [|b l IH]; intros md; [apply dist_le_refl|].
  cbn [scan_from]. destruct (lt_dist (py b - py a) d); [|apply dist_le_refl].
  eapply dist_le_trans; [apply IH | apply dist_min_le_l].
Qed.

Lemma strip_scan_le (d : dist) (l : list Point) (md : dist) :
  dist_le (strip_scan d l md) md.
Proof.
  revert md. induction l as [|a l IH]; intros md; [apply dist_le_refl|].
  cbn [strip_scan]. eapply dist_le_trans; [apply IH | apply scan_from_le].
Qed.

(** [v < d] persists for smaller non-negative [v]. *)
Lemma lt_dist_mono (v w : Z) (d : dist) :
  w <= v -> lt_dist v d = true -> lt_dist w d = true.
Proof.
  destruct d as [d2|]; cbn; [|reflexivity].
  rewrite !orb_true_iff, !Z.ltb_lt. intros Hw [Hv | Hv].
  - left. lia.
  - destruct (Z_lt_le_dec w 0) as [Hn | Hn]; [left; exact Hn|].
    right. nia.
Qed.

Lemma scan_from_hits (d : dist) (a b : Point) (l : list Point) (md : dist) :
  StronglySorted yle (a :: l) -> In b l ->
  lt_dist (py b - py a) d = true ->
  dist_le (scan_from d a l md) (Sqrt (distSq a b)).
Proof.
  intros Hs. apply StronglySorted_inv in Hs. destruct Hs as [Hs _].
  revert md. induction l as [|c l IH]; intros md Hin Hlt; [destruct Hin|].
  apply StronglySorted_inv in Hs. destruct Hs as [Hs F].
  cbn [scan_from].
  assert (Hc : lt_dist (py c - py a) d = true).
  { apply (lt_dist_mono (py b - py a)); [|exact Hlt].
    destruct Hin as [-> | Hin]; [lia|].
    rewrite Forall_forall in F. specialize (F b Hin). unfold yle in F. lia. }
  rewrite Hc. destruct Hin as [-> | Hin].
  - eapply dist_le_trans; [apply scan_from_le | apply dist_min_le_r].
  - apply IH; assumption.
Qed.

Lemma strip_scan_hits (d : dist) (l : list Point) (md : dist) (a b : Point) :
  StronglySorted yle l -> Before l a b ->
  lt_dist (py b - py a) d = true ->
  dist_le (strip_scan d l md) (Sqrt (distSq a b)).
Proof.
  intros Hs Hb Hlt. revert md.
  induction Hb as [a b l H | x a b l H IH]; intros md; cbn [strip_scan].
  - eapply dist_le_trans; [apply strip_scan_le|].
    apply scan_from_hits; assumption.
  - apply IH; [|exact Hlt]. apply StronglySorted_inv in Hs. tauto.
Qed.

Lemma scan_from_attained (d : dist) (a : Point) (l : list Point) (md : dist) :
  scan_from d a l md = md \/
  exists b, In b l /\ scan_from d a l md = Sqrt (distSq a b).
Proof.
  revert md. induction l as [|c l IH]; intros md; [left; reflexivity|].
  cbn [scan_from]. destruct (lt_dist (py c - py a) d); [|left; reflexivity].
  destruct (IH (dist_min md (Sqrt (distSq a c)))) as [E | (b & Hb & E)].
  - rewrite E. destruct (dist_min_cases md (Sqrt (distSq a c))) as [E' | E']; rewrite E'.
    + left. reflexivity.
    + right. exists c. split; [left|]; reflexivity.
  - right. exists b. split; [right; exact Hb | exact E].
Qed.

Lemma strip_scan_attained (d : dist) (l : list Point) (md : dist) :
  strip_scan d l md = md \/
  exists a b, Before l a b /\ strip_scan d l md = Sqrt (distSq a b).
Proof.
  revert md. induction l as [|a l IH]; intros md; [left; reflexivity|].
  cbn [strip_scan].
  destruct (IH (scan_from d a l md)) as [E | (u & v & Huv & E)].
  - rewrite E. destruct (scan_from_attained d a l md) as [E' | (b & Hb & E')].
    + left. exact E'.
    + right. exists a, b. split; [apply Before_here; exact Hb | exact E'].
  - right. exists u, v. split; [apply Before_later; exact Huv | exact E].
Qed.

(** *** The combine step *)

Lemma strip_scan_covers (f : Point -> bool) (d md : dist) (M : list Point) (a b : Point) :
  StronglySorted yle M -> Pair M a b ->
  f a = true -> f b = true ->
  lt_dist (py b - py a) d = true -> lt_dist (py a - py b) d = true ->
  dist_le (strip_scan d (filter f M) md) (Sqrt (distSq a b)).
Proof.
  intros Hs [H | H] Ha Hb Hab Hba.
  - apply strip_scan_hits; [apply filter_sorted; exact Hs | | exact Hab].
    apply Before_filter; assumption.
  - rewrite distSq_sym.
    apply strip_scan_hits; [apply filter_sorted; exact Hs | | exact Hba].
    apply Before_filter; assumption.
Qed.

(** A pair across the dividing line that is closer than [d] is seen by
    the strip scan. *)
Lemma strip_covers_cross (M : list Point) (midX : Z) (d : dist) (a b : Point) :
  StronglySorted yle M -> Pair M a b -> px a <= midX <= px b ->
  dist_le (strip_scan d (filter (fun p => abs_lt_dist (px p - midX) d) M) d)
          (Sqrt (distSq a b)).
Proof.
  intros Hs Hp Hx. destruct d as [D|].
  - destruct (Z_lt_le_dec (distSq a b) D) as [Hlt | Hge].
    + assert (Hdx : (px a - px b) * (px a - px b) + (py a - py b) * (py a - py b) < D)
        by exact Hlt.
      pose proof (Z.square_nonneg (px a - px b)) as Qx.
      pose proof (Z.square_nonneg (py a - py b)) as Qy.
      assert (Ha : (px a - midX) * (px a - midX) <= (px a - px b) * (px a - px b)) by nia.
      assert (Hb : (px b - midX) * (px b - midX) <= (px a - px b) * (px a - px b)) by nia.
      assert (Hy : (py b - py a) * (py b - py a) = (py a - py b) * (py a - py b)) by ring.
      apply (strip_scan_covers _ _ _ M a b Hs Hp); cbn.
      * apply Z.ltb_lt. lia.
      * apply Z.ltb_lt. lia.
      * apply orb_true_iff. right. apply Z.ltb_lt. lia.
      * apply orb_true_iff. right. apply Z.ltb_lt. lia.
    + eapply dist_le_trans; [apply strip_scan_le|]. exact Hge.
  - apply (strip_scan_covers _ _ _ M a b Hs Hp); reflexivity.
Qed.

Lemma combine_correct (segL segR segL' segR' : list Point) (midX : Z) (d1 d2 : dist) :
  (forall a, In a segL -> px a <= midX) ->
  (forall b, In b segR -> midX <= px b) ->
  Permutation segL' segL -> Permutation segR' segR ->
  StronglySorted yle segL' -> StronglySorted yle segR' ->
  lower_bound segL d1 -> attained segL d1 ->
  lower_bound segR d2 -> attained segR d2 ->
  let d := dist_min d1 d2 in
  let M := merge y_lt segL' segR' in
  let res := strip_scan d (filter (fun p => abs_lt_dist (px p - midX) d) M) d in
  Permutation M (segL ++ segR) /\ StronglySorted yle M /\
  lower_bound (segL ++ segR) res /\ attained (segL ++ segR) res.
Proof.
  intros HxL HxR PL PR SL SR L1 A1 L2 A2 d M res.
  assert (PM : Permutation M (segL ++ segR)).
  { subst M. rewrite merge_perm. apply Permutation_app; assumption. }
  assert (SM : StronglySorted yle M) by (apply merge_sorted; assumption).
  assert (Hres : dist_le res d) by apply strip_scan_le.
  repeat split; [exact PM | exact SM | |].
  - intros a b Hp.
    assert (HpM : Pair M a b) by (apply (Pair_perm _ _ _ _ (Permutation_sym PM)); exact Hp).
    destruct (Pair_app_inv _ _ _ _ Hp) as [H | [H | [[Ha Hb] | [Hb Ha]]]].
    + eapply dist_le_trans; [exact Hres|].
      eapply dist_le_trans; [apply dist_min_le_l | apply L1; exact H].
    + eapply dist_le_trans; [exact Hres|].
      eapply dist_le_trans; [apply dist_min_le_r | apply L2; exact H].
    + apply strip_covers_cross; [exact SM | exact HpM|].
      split; [apply HxL | apply HxR]; assumption.
    + rewrite distSq_sym.
      apply strip_covers_cross; [exact SM | apply Pair_sym; exact HpM|].
      split; [apply HxL | apply HxR]; assumption.
  - destruct (strip_scan_attained d (filter (fun p => abs_lt_dist (px p - midX) d) M) d)
      as [E | (a & b & Hab & E)].
    + fold res in E. rewrite E. subst d.
      destruct (dist_min_cases d1 d2) as [E' | E']; rewrite E'.
      * destruct A1 as [A1 | (a & b & Hab & A1)]; [left; exact A1|].
        right. exists a, b. split; [apply Pair_app_l; exact Hab | exact A1].
      * destruct A2 as [A2 | (a & b & Hab & A2)]; [left; exact A2|].
        right. exists a, b. split; [apply Pair_app_r; exact Hab | exact A2].
    + right. exists a, b. split; [|exact E].
      apply (Pair_perm _ _ _ _ PM). left. apply Before_filter_inv in Hab. exact Hab.
Qed.

(** The last point of the left half bounds both halves of an x-sorted
    range. *)
Lemma sorted_halves (segL segR : list Point) (k : nat) :
  StronglySorted xle (segL ++ segR) -> length segL = S k ->
  (forall a, In a segL -> px a <= px (nth k segL origin)) /\
  (forall b, In b segR -> px (nth k segL origin) <= px b).
Proof.
  intros Hs Hlen.
  destruct (exists_last (l := segL)) as (l0 & m & Hm).
  { intros ->. discriminate Hlen. }
  subst segL. rewrite length_app in Hlen. cbn in Hlen.
  replace k with (length l0) by lia. rewrite nth_middle.
  apply sorted_app_inv in Hs. destruct Hs as (S1 & _ & Hc).
  apply sorted_app_inv in S1. destruct S1 as (_ & _ & Hc0).
  split.
  - intros a Ha. apply in_app_or in Ha. destruct Ha as [Ha | [<- | []]].
    + apply (Hc0 a m Ha). left. reflexivity.
    + lia.
  - intros b Hb. apply (Hc m b); [|exact Hb].
    apply in_or_app. right. left. reflexivity.
Qed.

(** *** The recursion *)

Section ClosestPairCorrect.
Variable sort : (Point -> Point -> bool) -> list Point -> list Point.
Hypothesis sort_perm : forall lt l, Permutation (sort lt l) l.
Hypothesis sort_by_x : forall l, StronglySorted xle (sort x_lt l).
Hypothesis sort_by_y : forall l, StronglySorted yle (sort y_lt l).

(** On an x-sorted range [seg = pts[left..right]], with fuel beyond the
    size of the range, [closestPairRec] returns; it rewrites the range
    with a y-sorted permutation of it and leaves the rest of the vector
    alone; the distance it returns is a lower bound of all pair
    distances of the range and is one of them. *)
Lemma closestPairRec_correct (fuel : nat) :
  forall pre seg post left right,
    (length seg < fuel)%nat ->
    left = Z.of_nat (length pre) ->
    right = left + Z.of_nat (length seg) - 1 ->
    StronglySorted xle seg ->
    exists d seg',
      closestPairRec sort fuel (pre ++ seg ++ post) left right
      = Some (d, pre ++ seg' ++ post)
      /\ Permutation seg' seg /\ StronglySorted yle seg'
      /\ lower_bound seg d /\ attained seg d.
Proof.
  induction fuel as [|fuel IH]; intros pre seg post left right Hf Hl Hr Hs; [lia|].
  cbn [closestPairRec].
  destruct (right - left <=? 3) eqn:E.
  - rewrite (brute_force_app pre seg post left right Hl Hr).
    rewrite (slice_app pre seg post left right Hl Hr).
    rewrite (splice_app pre seg post _ left right Hl Hr).
    exists (bf_outer seg DInf), (sort y_lt seg). split; [reflexivity|].
    split; [apply sort_perm|]. split; [apply sort_by_y|]. split.
    + intros a b [H | H]; [|rewrite distSq_sym]; apply bf_outer_lower; exact H.
    + destruct (bf_outer_attained seg DInf) as [E' | (a & b & Hab & E')].
      * left. exact E'.
      * right. exists a, b. split; [left; exact Hab | exact E'].
  - apply Z.leb_gt in E.
    assert (Hq : Z.quot (left + right) 2 = (left + right) / 2)
      by (apply Z.quot_div_nonneg; lia).
    rewrite Hq. set (mid := (left + right) / 2).
    assert (Hmid : left < mid < right)
      by (subst mid; Z.div_mod_to_equations; lia).
    set (k := Z.to_nat (mid - left)).
    assert (Hk : (S k < length seg)%nat) by lia.
    assert (Hsplit : exists segL segR, seg = segL ++ segR /\ length segL = S k).
    { exists (firstn (S k) seg), (skipn (S k) seg). split.
      - symmetry. apply firstn_skipn.
      - apply firstn_length_le. lia. }
    destruct Hsplit as (segL & segR & -> & HlenL).
    rewrite length_app in Hf, Hr, Hk.
    assert (Hmid' : mid = left + Z.of_nat (length segL) - 1) by lia.
    assert (HzL : zat (pre ++ (segL ++ segR) ++ post) mid = nth k segL origin).
    { rewrite <- !app_assoc.
      replace mid with (Z.of_nat (length pre) + Z.of_nat k) by lia.
      apply zat_app. lia. }
    rewrite HzL.
    destruct (sorted_halves segL segR k Hs HlenL) as [HxL HxR].
    apply sorted_app_inv in Hs. destruct Hs as (SxL & SxR & _).
    (* left half *)
    destruct (IH pre segL (segR ++ post) left mid) as (d1 & segL' & E1 & PL & SL & L1 & A1);
      [lia | exact Hl | exact Hmid' | exact SxL |].
    rewrite <- !app_assoc. rewrite E1.
    assert (HlenL' : length segL' = length segL) by (apply Permutation_length; exact PL).
    (* right half *)
    destruct (IH (pre ++ segL') segR post (mid + 1) right)
      as (d2 & segR' & E2 & PR & SR & L2 & A2);
      [lia | rewrite length_app; lia | lia | exact SxR |].
    rewrite <- !app_assoc in E2. rewrite E2.
    assert (HlenR' : length segR' = length segR) by (apply Permutation_length; exact PR).
    (* the ranges read back after the two calls *)
    rewrite (slice_app pre segL' (segR' ++ post) left mid) by lia.
    replace (pre ++ segL' ++ segR' ++ post) with ((pre ++ segL') ++ segR' ++ post)
      by (rewrite <- app_assoc; reflexivity).
    rewrite (slice_app (pre ++ segL') segR' post (mid + 1) right)
      by (rewrite ?length_app; lia).
    replace ((pre ++ segL') ++ segR' ++ post) with (pre ++ (segL' ++ segR') ++ post)
      by (rewrite <- !app_assoc; reflexivity).
    rewrite (splice_app pre (segL' ++ segR') post _ left right)
      by (rewrite ?length_app; lia).
    rewrite (slice_app pre _ post left right);
      [| exact Hl
       | rewrite (Permutation_length (merge_perm y_lt segL' segR')), length_app; lia].
    destruct (combine_correct segL segR segL' segR' (px (nth k segL origin)) d1 d2
                HxL HxR PL PR SL SR L1 A1 L2 A2) as (PM & SM & LB & AT).
    eexists _, _. split; [reflexivity|]. repeat split; assumption.
Qed.

(** [pts.size() - 1] as an [int], for a vector of fewer than 2^31
    elements. *)
Lemma last_index (n : Z) : 0 <= n < 2 ^ 31 -> to_int (size_t_sub n 1) = n - 1.
Proof.
  intros H. unfold to_int, size_t_sub.
  destruct (Z.eq_dec n 0) as [-> | Hn]; [reflexivity|].
  rewrite (Z.mod_small (n - 1)) by lia.
  rewrite Z.mod_small by lia. lia.
Qed.

End ClosestPairCorrect.

(** [std_sort] is an implementation of [std::sort] for the two
    comparators of [closestPair]. *)
Lemma insert_sorted (R : Point -> Point -> Prop) (lt : Point -> Point -> bool) :
  (forall a b c, R a b -> R b c -> R a c) ->
  (forall a b, lt b a = true -> R b a) ->
  (forall a b, lt b a = false -> R a b) ->
  forall a l, StronglySorted R l -> StronglySorted R (insert lt a l).
Proof.
  intros Htrans Ht Hf a l Hs. induction Hs as [|b l Hs IH F]; cbn.
  - constructor; constructor.
  - destruct (lt b a) eqn:E.
    + constructor; [exact IH|].
      apply (Permutation_Forall (Permutation_sym (insert_perm lt a l))).
      constructor; [apply Ht; exact E | exact F].
    + constructor; [constructor; assumption|].
      constructor; [apply Hf; exact E|].
      eapply Forall_impl; [|exact F]. intros c Hc.
      apply (Htrans a b c); [apply Hf; exact E | exact Hc].
Qed.

Lemma std_sort_by_x (l : list Point) : StronglySorted xle (std_sort x_lt l).
Proof.
  induction l as [|a l IH]; cbn; [constructor|].
  apply insert_sorted; try exact IH; unfold xle, x_lt.
  - intros; lia.
  - intros u v H. apply Z.ltb_lt in H. lia.
  - intros u v H. apply Z.ltb_ge in H. lia.
Qed.

Lemma std_sort_by_y (l : list Point) : StronglySorted yle (std_sort y_lt l).
Proof.
  induction l as [|a l IH]; cbn; [constructor|].
  apply insert_sorted; try exact IH; unfold yle, y_lt.
  - intros; lia.
  - intros u v H. apply Z.ltb_lt in H. lia.
  - intros u v H. apply Z.ltb_ge in H. lia.
Qed.


(** ** Rotating calipers *)

(** *** Plane algebra *)

(** If [v] lies in the cone spanned by the two edges [PQ], [QR] of a
    left turn, every point [X] on the left of both edges is on the left
    of the line through [Q] with direction [v]. *)
Lemma cone_min (Px Py Qx Qy Rx Ry Xx Xy vx vy : Z) :
  0 < (Qx - Px) * (Ry - Py) - (Qy - Py) * (Rx - Px) ->
  0 <= (Qx - Px) * (Xy - Py) - (Qy - Py) * (Xx - Px) ->
  0 <= (Rx - Qx) * (Xy - Qy) - (Ry - Qy) * (Xx - Qx) ->
  0 <= (Qx - Px) * vy - (Qy - Py) * vx ->
  0 <= vx * (Ry - Qy) - vy * (Rx - Qx) ->
  0 <= vx * (Xy - Qy) - vy * (Xx - Qx).
Proof.
  intros Hturn HX1 HX2 Hv1 Hv2.
  assert (E : (vx * (Xy - Qy) - vy * (Xx - Qx)) *
              ((Qx - Px) * (Ry - Py) - (Qy - Py) * (Rx - Px))
              = (vx * (Ry - Qy) - vy * (Rx - Qx)) *
                ((Qx - Px) * (Xy - Py) - (Qy - Py) * (Xx - Px))
                + ((Qx - Px) * vy - (Qy - Py) * vx) *
                  ((Rx - Qx) * (Xy - Qy) - (Ry - Qy) * (Xx - Qx))) by ring.
  set (t := (Qx - Px) * (Ry - Py) - (Qy - Py) * (Rx - Px)) in *.
  set (g := vx * (Xy - Qy) - vy * (Xx - Qx)) in *.
  pose proof (Z.mul_nonneg_nonneg _ _ Hv2 HX1).
  pose proof (Z.mul_nonneg_nonneg _ _ Hv1 HX2).
  assert (0 <= g * t) by lia.
  destruct (Z_lt_le_dec g 0) as [Hneg|]; [|assumption].
  exfalso. assert (g * t < 0) by (apply Z.mul_neg_pos; assumption). lia.
Qed.

(** For a left turn [A], [B] and a vector [C] with [C x B <= 0 < C x A]:
    if [u] has a positive component along both [A] and [B], it has a
    negative one along [C]. *)
Lemma opposite_cone (Ax Ay Bx By Cx Cy ux uy : Z) :
  0 < Ax * By - Ay * Bx ->
  Cx * By - Cy * Bx <= 0 ->
  0 < Cx * Ay - Cy * Ax ->
  0 < ux * Ax + uy * Ay ->
  0 < ux * Bx + uy * By ->
  ux * Cx + uy * Cy < 0.
Proof.
  intros HAB HCB HCA HuA HuB.
  assert (E : (Ax * By - Ay * Bx) * (ux * Cx + uy * Cy)
              = (Cx * By - Cy * Bx) * (ux * Ax + uy * Ay)
                - (Cx * Ay - Cy * Ax) * (ux * Bx + uy * By)) by ring.
  set (t := Ax * By - Ay * Bx) in *. set (g := ux * Cx + uy * Cy) in *.
  assert ((Cx * By - Cy * Bx) * (ux * Ax + uy * Ay) <= 0)
    by (apply Z.mul_nonpos_nonneg; lia).
  assert (0 < (Cx * Ay - Cy * Ax) * (ux * Bx + uy * By))
    by (apply Z.mul_pos_pos; assumption).
  assert (t * g < 0) by lia.
  destruct (Z_lt_le_dec g 0) as [|Hpos]; [assumption|].
  exfalso. assert (0 <= t * g) by (apply Z.mul_nonneg_nonneg; lia). lia.
Qed.

Lemma mod_distinct (n a b : nat) :
  (a < b < a + n)%nat -> (a mod n <> b mod n)%nat.
Proof.
  intros [Hab Hbn] Heq.
  assert (Hn : n <> 0%nat) by lia.
  pose proof (Nat.div_mod_eq a n) as Ha. pose proof (Nat.div_mod_eq b n) as Hb.
  rewrite Heq in Ha.
  assert (Hq : (a / n < b / n)%nat) by nia.
  nia.
Qed.

Section Calipers.
Variable hull : list Point.
Hypothesis Hn : (3 <= length hull)%nat.
Hypothesis Hconvex : strictly_convex hull = true.

Lemma pt_small (k : nat) : (k < length hull)%nat -> pt hull k = at_ hull k.
Proof. intros H. unfold pt. rewrite Nat.mod_small by exact H. reflexivity. Qed.

Lemma pt_next (i : nat) : at_ hull ((i mod length hull + 1) mod length hull)%nat = pt hull (S i).
Proof.
  unfold pt. rewrite Nat.Div0.add_mod_idemp_l. f_equal. f_equal. lia.
Qed.

Lemma pt_period (k : nat) : pt hull (k + length hull) = pt hull k.
Proof.
  unfold pt. f_equal.
  rewrite <- (Nat.Div0.mod_add k 1 (length hull)). f_equal. lia.
Qed.

Lemma convex_spec (i k : nat) :
  (k mod length hull <> i mod length hull)%nat ->
  (k mod length hull <> S i mod length hull)%nat ->
  0 < height hull i k.
Proof.
  intros Hki Hks. unfold strictly_convex in Hconvex.
  rewrite forallb_forall in Hconvex.
  assert (Hi : In (i mod length hull)%nat (seq 0 (length hull))).
  { apply in_seq. split; [lia|]. apply Nat.mod_upper_bound. lia. }
  specialize (Hconvex _ Hi). cbv beta in Hconvex.
  rewrite forallb_forall in Hconvex.
  assert (Hk : In (k mod length hull)%nat (seq 0 (length hull))).
  { apply in_seq. split; [lia|]. apply Nat.mod_upper_bound. lia. }
  specialize (Hconvex _ Hk). cbv beta in Hconvex.
  rewrite !orb_true_iff, !Nat.eqb_eq, Z.ltb_lt in Hconvex.
  rewrite Nat.Div0.add_mod_idemp_l in Hconvex.
  replace (i + 1)%nat with (S i) in Hconvex by lia.
  destruct Hconvex as [[H | H] | H]; [contradiction | contradiction | exact H].
Qed.

Lemma height_self (i : nat) : height hull i i = 0.
Proof. unfold height, cross. ring. Qed.

Lemma height_next (i : nat) : height hull i (S i) = 0.
Proof. unfold height, cross. ring. Qed.

Lemma height_nonneg (i k : nat) : 0 <= height hull i k.
Proof.
  destruct (Nat.eq_dec (k mod length hull)%nat (i mod length hull)%nat) as [E | Hki].
  - unfold height, pt. rewrite E. fold (pt hull i). fold (pt hull (S i)).
    pose proof (height_self i) as H. unfold height in H. lia.
  - destruct (Nat.eq_dec (k mod length hull)%nat (S i mod length hull)%nat) as [E | Hks].
    + unfold height. unfold pt at 3. rewrite E. fold (pt hull (S i)).
      pose proof (height_next i) as H. unfold height in H. lia.
    + pose proof (convex_spec i k Hki Hks). lia.
Qed.

(** Distinct indices carry distinct points. *)
Lemma pt_inj (i k : nat) : pt hull i = pt hull k -> (i mod length hull = k mod length hull)%nat.
Proof.
  intros E. destruct (Nat.eq_dec (i mod length hull)%nat (k mod length hull)%nat) as [|Hne];
    [assumption|]. exfalso.
  destruct (Nat.eq_dec (k mod length hull)%nat (S i mod length hull)%nat) as [Es | Hks].
  - assert (E1 : pt hull (S i) = pt hull i).
    { rewrite E. unfold pt. rewrite Es. reflexivity. }
    assert (H : 0 < height hull i (S (S i))).
    { apply convex_spec; apply not_eq_sym, mod_distinct; lia. }
    unfold height in H. rewrite E1 in H. unfold cross in H. lia.
  - assert (H : 0 < height hull i k) by (apply convex_spec; auto).
    unfold height in H. rewrite <- E in H. unfold cross in H. lia.
Qed.

Lemma slope_height (i k : nat) : slope hull i k = height hull i (S k) - height hull i k.
Proof. unfold slope, ex, ey, height, cross. ring. Qed.

Lemma slope_antisym (i k : nat) : slope hull i k = - slope hull k i.
Proof. unfold slope. ring. Qed.

Lemma left_turn (k : nat) : 0 < slope hull k (S k).
Proof.
  rewrite slope_height, height_next.
  assert (0 < height hull k (S (S k)))
    by (apply convex_spec; apply not_eq_sym, mod_distinct; lia).
  lia.
Qed.

(** Every vertex [m] is on the left of the line through vertex [k+1]
    with a direction [v] taken in the cone of the two edges at [k+1]. *)
Lemma support (k m : nat) (vx vy : Z) :
  0 <= ex hull k * vy - ey hull k * vx ->
  0 <= vx * ey hull (S k) - vy * ex hull (S k) ->
  0 <= vx * (py (pt hull m) - py (pt hull (S k))) - vy * (px (pt hull m) - px (pt hull (S k))).
Proof.
  intros Hv1 Hv2.
  apply (cone_min (px (pt hull k)) (py (pt hull k)) (px (pt hull (S k))) (py (pt hull (S k)))
                  (px (pt hull (S (S k)))) (py (pt hull (S (S k))))); try assumption.
  - pose proof (left_turn k) as H. rewrite slope_height, height_next in H.
    unfold height, cross in H. lia.
  - pose proof (height_nonneg k m) as H. unfold height, cross in H. exact H.
  - pose proof (height_nonneg (S k) m) as H. unfold height, cross in H. exact H.
Qed.

Lemma first_nonpositive (f : nat -> Z) (lo : nat) (d : nat) :
  f (lo + d)%nat <= 0 ->
  exists T, (lo <= T <= lo + d)%nat /\ (forall k, (lo <= k < T)%nat -> 0 < f k) /\ f T <= 0.
Proof.
  revert lo. induction d as [|d IH]; intros lo H.
  - exists lo. rewrite Nat.add_0_r in H. repeat split; first [lia | assumption].
  - destruct (Z_lt_le_dec 0 (f lo)) as [Hpos | Hle].
    + destruct (IH (S lo)) as (T & HT & Hk & HfT).
      { replace (S lo + d)%nat with (lo + S d)%nat by lia. exact H. }
      exists T. split; [lia|]. split; [|exact HfT].
      intros k Hk'. destruct (Nat.eq_dec k lo) as [-> | Hne]; [exact Hpos|].
      apply Hk. lia.
    + exists lo. repeat split; first [lia | assumption].
Qed.

Lemma top_exists (i : nat) : exists T, is_top hull i T.
Proof.
  assert (Hfirst : 0 < slope hull i (S i)) by apply left_turn.
  assert (Hlast : slope hull i (i + length hull - 1) < 0).
  { rewrite slope_height.
    replace (S (i + length hull - 1)) with (i + length hull)%nat by lia.
    assert (E : height hull i (i + length hull) = 0).
    { unfold height. rewrite pt_period. apply height_self. }
    assert (0 < height hull i (i + length hull - 1)).
    { apply convex_spec; apply not_eq_sym, mod_distinct; lia. }
    lia. }
  destruct (first_nonpositive (slope hull i) (i + 1) (length hull - 2)) as (T & HT & Hk & HfT).
  { replace (i + 1 + (length hull - 2))%nat with (i + length hull - 1)%nat by lia. lia. }
  assert (HT2 : (i + 2 <= T)%nat).
  { destruct (Nat.eq_dec T (i + 1)) as [-> | Hne]; [|lia].
    replace (i + 1)%nat with (S i) in HfT by lia. lia. }
  exists T. split; [lia|]. split; [|exact HfT].
  intros k Hk'. apply Hk. lia.
Qed.

Lemma top_unique (i T T' : nat) : is_top hull i T -> is_top hull i T' -> T = T'.
Proof.
  intros (HT & Hk & Hf) (HT' & Hk' & Hf').
  destruct (Nat.lt_trichotomy T T') as [H | [H | H]]; [|exact H|].
  - specialize (Hk' T). lia.
  - specialize (Hk T'). lia.
Qed.

(** The calipers only move forward: the top of edge [i] is not beyond
    the top of edge [i+1]. *)
Lemma top_monotone (i T T' : nat) : is_top hull i T -> is_top hull (S i) T' -> (T <= T')%nat.
Proof.
  intros (HT & Hk & Hf) (HT' & Hk' & Hf').
  destruct (Nat.le_gt_cases T T') as [|Hlt]; [assumption|]. exfalso.
  assert (Hpos : 0 < slope hull i T') by (apply Hk; lia).
  pose proof (support i T' (ex hull T') (ey hull T')) as Hs.
  assert (H1 : 0 <= ex hull i * ey hull T' - ey hull i * ex hull T') by (unfold slope in Hpos; lia).
  assert (H2 : 0 <= ex hull T' * ey hull (S i) - ey hull T' * ex hull (S i)).
  { unfold slope in Hf'. lia. }
  specialize (Hs H1 H2).
  assert (Hh : 0 < height hull T' (S i)).
  { apply convex_spec.
    - apply mod_distinct. lia.
    - apply mod_distinct. lia. }
  unfold height, cross in Hh. unfold ex, ey in Hs. lia.
Qed.

(** *** The pointer of the calipers *)

Lemma ex_period (k : nat) : ex hull (k + length hull) = ex hull k.
Proof.
  unfold ex. replace (S (k + length hull)) with (S k + length hull)%nat by lia.
  rewrite !pt_period. reflexivity.
Qed.

Lemma ey_period (k : nat) : ey hull (k + length hull) = ey hull k.
Proof.
  unfold ey. replace (S (k + length hull)) with (S k + length hull)%nat by lia.
  rewrite !pt_period. reflexivity.
Qed.

(** The heights are not negative, so the test of the while loop is the
    sign of the slope. *)
Lemma advance_test (i J : nat) :
  (Z.abs (cross (pt hull i) (pt hull (S i)) (pt hull J)) <? Z.abs (cross (pt hull i) (pt hull (S i)) (pt hull (S J))))
  = (0 <? slope hull i J).
Proof.
  pose proof (height_nonneg i J) as H1. pose proof (height_nonneg i (S J)) as H2.
  pose proof (slope_height i J) as E. unfold height in *.
  rewrite !Z.abs_eq by assumption.
  destruct (Z.ltb_spec (cross (pt hull i) (pt hull (S i)) (pt hull J)) (cross (pt hull i) (pt hull (S i)) (pt hull (S J))));
    destruct (Z.ltb_spec 0 (slope hull i J)); try reflexivity; lia.
Qed.

Lemma advance_step (fuel i J : nat) :
  (i < length hull)%nat ->
  advance (S fuel) hull i ((i + 1) mod length hull) (J mod length hull)
  = if 0 <? slope hull i J
    then advance fuel hull i ((i + 1) mod length hull) (S J mod length hull)
    else (J mod length hull)%nat.
Proof.
  intros Hi. cbn [advance].
  rewrite pt_next.
  change (at_ hull (J mod length hull)) with (pt hull J).
  rewrite <- (pt_small i Hi).
  replace (at_ hull ((i + 1) mod length hull)) with (pt hull (S i))
    by (unfold pt; do 2 f_equal; lia).
  rewrite advance_test.
  rewrite Nat.Div0.add_mod_idemp_l. replace (J + 1)%nat with (S J) by lia.
  reflexivity.
Qed.

Lemma advance_reaches_top (i T : nat) :
  (i < length hull)%nat -> slope hull i T <= 0 ->
  forall fuel J,
    (J <= T)%nat -> (T - J <= fuel)%nat ->
    (forall k, (J <= k < T)%nat -> 0 < slope hull i k) ->
    advance fuel hull i ((i + 1) mod length hull) (J mod length hull)
    = (T mod length hull)%nat.
Proof.
  intros Hi HT. induction fuel as [|fuel IH]; intros J HJ Hf Hk.
  - replace J with T by lia. reflexivity.
  - rewrite advance_step by exact Hi.
    destruct (Nat.eq_dec J T) as [-> | Hne].
    + destruct (Z.ltb_spec 0 (slope hull i T)); [lia | reflexivity].
    + destruct (Z.ltb_spec 0 (slope hull i J)) as [_ | Hle].
      * apply IH; [lia | lia |]. intros k Hk'. apply Hk. lia.
      * specialize (Hk J). lia.
Qed.

(** One pass of the [for] loop, when the pointer stands between [i+1]
    and the top [T] of edge [i]. *)
Lemma calipers_step_top (i J T : nat) (M : Z) :
  (i < length hull)%nat -> (i + 1 <= J <= T)%nat -> is_top hull i T ->
  calipers_step hull ((J mod length hull)%nat, M) i
  = ((T mod length hull)%nat,
     Z.max (Z.max M (distSq (pt hull i) (pt hull T))) (distSq (pt hull (S i)) (pt hull T))).
Proof.
  intros Hi HJ (HT & Hk & Hf). unfold calipers_step. cbn [fst snd].
  rewrite (advance_reaches_top i T Hi Hf (length hull) J); [| lia | lia |].
  - change (at_ hull (T mod length hull)) with (pt hull T).
    rewrite <- (pt_small i Hi).
    replace (at_ hull ((i + 1) mod length hull)) with (pt hull (S i))
      by (unfold pt; do 2 f_equal; lia).
    reflexivity.
  - intros k Hk'. apply Hk. lia.
Qed.

(** The loop from pass [i0] on: [maxDistSq] only grows, covers the pair
    (i, top of i) of every pass, and stays a vertex distance. *)
Lemma calipers_loop (len : nat) :
  forall i0 J M,
    (i0 + len <= length hull)%nat -> (i0 + 1 <= J)%nat ->
    (forall T, is_top hull i0 T -> (J <= T)%nat) ->
    let M' := snd (fold_left (calipers_step hull) (seq i0 len)
                             ((J mod length hull)%nat, M)) in
    M <= M' /\
    (forall i T, (i0 <= i < i0 + len)%nat -> is_top hull i T -> distSq (pt hull i) (pt hull T) <= M') /\
    (M' = M \/ exists x y, M' = distSq (pt hull x) (pt hull y)).
Proof.
  induction len as [|len IH]; intros i0 J M Hlen HJ Htop; cbn [seq fold_left].
  - cbn [snd]. split; [lia|]. split; [intros; lia | left; reflexivity].
  - destruct (top_exists i0) as (T0 & HT0).
    rewrite (calipers_step_top i0 J T0 M); [| lia | | exact HT0].
    2:{ split; [lia|]. apply Htop. exact HT0. }
    set (M1 := Z.max (Z.max M (distSq (pt hull i0) (pt hull T0))) (distSq (pt hull (S i0)) (pt hull T0))).
    assert (HM1 : M <= M1 /\ distSq (pt hull i0) (pt hull T0) <= M1) by (unfold M1; lia).
    destruct (IH (S i0) T0 M1) as (Hle & Hcov & Hat).
    + lia.
    + destruct HT0 as (HT0 & _). lia.
    + intros T HT. apply (top_monotone i0); assumption.
    + cbv zeta. split; [lia|]. split.
      * intros i T Hi HT. destruct (Nat.eq_dec i i0) as [-> | Hne].
        -- rewrite (top_unique i0 T T0 HT HT0). lia.
        -- apply Hcov; [lia | exact HT].
      * destruct Hat as [E | (x & y & E)].
        -- rewrite E. unfold M1.
           destruct (Z.max_spec (Z.max M (distSq (pt hull i0) (pt hull T0)))
                                (distSq (pt hull (S i0)) (pt hull T0))) as [[_ E1] | [_ E1]];
             rewrite E1.
           ++ right. eexists _, _. reflexivity.
           ++ destruct (Z.max_spec M (distSq (pt hull i0) (pt hull T0))) as [[_ E2] | [_ E2]];
                rewrite E2.
              ** right. eexists _, _. reflexivity.
              ** left. reflexivity.
        -- right. exists x, y. exact E.
Qed.

(** *** A farthest pair is a pair the calipers stop at *)

Section Diametral.
Variables a b : nat.
Hypothesis Hab : (a < b < length hull)%nat.
Hypothesis Hmax : forall x y, distSq (pt hull x) (pt hull y) <= distSq (pt hull a) (pt hull b).

(** No vertex is beyond the line through [a] orthogonal to [ab], and
    only [a] is on it. *)
Lemma above_a (m : nat) :
  (px (pt hull m) - px (pt hull a)) * (px (pt hull m) - px (pt hull a))
  + (py (pt hull m) - py (pt hull a)) * (py (pt hull m) - py (pt hull a))
  <= 2 * ((px (pt hull b) - px (pt hull a)) * (px (pt hull m) - px (pt hull a))
          + (py (pt hull b) - py (pt hull a)) * (py (pt hull m) - py (pt hull a))).
Proof.
  pose proof (Hmax m b) as H. unfold distSq in H. cbv zeta in H. lia.
Qed.

Lemma below_b (m : nat) :
  (px (pt hull m) - px (pt hull b)) * (px (pt hull m) - px (pt hull b))
  + (py (pt hull m) - py (pt hull b)) * (py (pt hull m) - py (pt hull b))
  <= - 2 * ((px (pt hull b) - px (pt hull a)) * (px (pt hull m) - px (pt hull b))
            + (py (pt hull b) - py (pt hull a)) * (py (pt hull m) - py (pt hull b))).
Proof.
  pose proof (Hmax a m) as H. unfold distSq in H. cbv zeta in H. lia.
Qed.

Lemma apart (m k : nat) :
  (m mod length hull <> k mod length hull)%nat ->
  0 < (px (pt hull m) - px (pt hull k)) * (px (pt hull m) - px (pt hull k))
      + (py (pt hull m) - py (pt hull k)) * (py (pt hull m) - py (pt hull k)).
Proof.
  intros Hne.
  pose proof (Z.square_nonneg (px (pt hull m) - px (pt hull k))) as Hx.
  pose proof (Z.square_nonneg (py (pt hull m) - py (pt hull k))) as Hy.
  destruct (Z.eq_dec (px (pt hull m)) (px (pt hull k))) as [Ex | Nx].
  - destruct (Z.eq_dec (py (pt hull m)) (py (pt hull k))) as [Ey | Ny].
    + exfalso. apply Hne. apply pt_inj.
      destruct (pt hull m), (pt hull k). cbn in Ex, Ey. subst. reflexivity.
    + assert (0 < (py (pt hull m) - py (pt hull k)) * (py (pt hull m) - py (pt hull k))) by nia. lia.
  - assert (0 < (px (pt hull m) - px (pt hull k)) * (px (pt hull m) - px (pt hull k))) by nia. lia.
Qed.

Lemma along_a : 0 < along hull a b a.
Proof.
  pose proof (above_a (S a)) as H.
  pose proof (apart (S a) a) as Hd.
  assert (Hne : (S a mod length hull <> a mod length hull)%nat)
    by (apply not_eq_sym, mod_distinct; lia).
  specialize (Hd Hne). unfold along, ex, ey. lia.
Qed.

Lemma along_b : along hull a b b < 0.
Proof.
  pose proof (below_b (S b)) as H.
  pose proof (apart (S b) b) as Hd.
  assert (Hne : (S b mod length hull <> b mod length hull)%nat)
    by (apply not_eq_sym, mod_distinct; lia).
  specialize (Hd Hne). unfold along, ex, ey. lia.
Qed.

(** From [a] to [b] every edge goes up along [ab] ... *)
Lemma chain_up (d : nat) : (a + d < b)%nat -> 0 < along hull a b (a + d).
Proof.
  induction d as [|d IH]; intros Hd.
  - rewrite Nat.add_0_r. apply along_a.
  - assert (Hk : 0 < along hull a b (a + d)) by (apply IH; lia).
    replace (a + S d)%nat with (S (a + d)) by lia.
    destruct (Z_lt_le_dec 0 (along hull a b (S (a + d)))) as [|Hle]; [assumption|]. exfalso.
    pose proof (support (a + d) b (- (py (pt hull b) - py (pt hull a))) (px (pt hull b) - px (pt hull a))) as Hs.
    unfold along in Hk, Hle.
    assert (H1 : 0 <= ex hull (a + d) * (px (pt hull b) - px (pt hull a))
                      - ey hull (a + d) * - (py (pt hull b) - py (pt hull a))) by lia.
    assert (H2 : 0 <= - (py (pt hull b) - py (pt hull a)) * ey hull (S (a + d))
                      - (px (pt hull b) - px (pt hull a)) * ex hull (S (a + d))) by lia.
    specialize (Hs H1 H2).
    pose proof (below_b (S (a + d))) as Hb.
    assert (Hne : (S (a + d) mod length hull <> b mod length hull)%nat).
    { rewrite !Nat.mod_small by lia. lia. }
    pose proof (apart (S (a + d)) b Hne) as Hd'.
    lia.
Qed.

(** ... and from [b] round to [a] every edge goes down. *)
Lemma chain_down (d : nat) : (b + d < a + length hull)%nat -> along hull a b (b + d) < 0.
Proof.
  induction d as [|d IH]; intros Hd.
  - rewrite Nat.add_0_r. apply along_b.
  - assert (Hk : along hull a b (b + d) < 0) by (apply IH; lia).
    replace (b + S d)%nat with (S (b + d)) by lia.
    destruct (Z_lt_le_dec (along hull a b (S (b + d))) 0) as [|Hle]; [assumption|]. exfalso.
    pose proof (support (b + d) a (py (pt hull b) - py (pt hull a)) (- (px (pt hull b) - px (pt hull a)))) as Hs.
    unfold along in Hk, Hle.
    assert (H1 : 0 <= ex hull (b + d) * - (px (pt hull b) - px (pt hull a))
                      - ey hull (b + d) * (py (pt hull b) - py (pt hull a))) by lia.
    assert (H2 : 0 <= (py (pt hull b) - py (pt hull a)) * ey hull (S (b + d))
                      - - (px (pt hull b) - px (pt hull a)) * ex hull (S (b + d))) by lia.
    specialize (Hs H1 H2).
    pose proof (above_a (S (b + d))) as Ha.
    assert (Hne : (S (b + d) mod length hull <> a mod length hull)%nat).
    { apply not_eq_sym, mod_distinct. lia. }
    pose proof (apart (S (b + d)) a Hne) as Hd'.
    lia.
Qed.

Lemma up_edge (k : nat) : (a <= k < b)%nat -> 0 < along hull a b k.
Proof.
  intros Hk. replace k with (a + (k - a))%nat by lia. apply chain_up. lia.
Qed.

Lemma down_edge (k : nat) : (b <= k < a + length hull)%nat -> along hull a b k < 0.
Proof.
  intros Hk. replace k with (b + (k - b))%nat by lia. apply chain_down. lia.
Qed.

(** The top of edge [a] is not before [b]. *)
Lemma top_a_reaches_b (T : nat) : is_top hull a T -> (b <= T)%nat.
Proof.
  intros (HT & Hk & Hf).
  destruct (Nat.le_gt_cases b T) as [|Hlt]; [assumption|]. exfalso.
  assert (Hprev : 0 < slope hull a (T - 1)) by (apply Hk; lia).
  pose proof (left_turn (T - 1)) as Hturn.
  replace (S (T - 1)) with T in Hturn by lia.
  assert (U1 : 0 < along hull a b (T - 1)) by (apply up_edge; lia).
  assert (U2 : 0 < along hull a b T) by (apply up_edge; lia).
  pose proof along_a as Ua.
  unfold slope in *. unfold along in *.
  pose proof (opposite_cone (ex hull (T - 1)) (ey hull (T - 1)) (ex hull T) (ey hull T) (ex hull a) (ey hull a)
                (px (pt hull b) - px (pt hull a)) (py (pt hull b) - py (pt hull a))) as Hc.
  assert (ux_lt : (px (pt hull b) - px (pt hull a)) * ex hull a + (py (pt hull b) - py (pt hull a)) * ey hull a < 0)
    by (apply Hc; lia).
  lia.
Qed.

(** The top of edge [b] is not before [a] (one turn later). *)
Lemma top_b_reaches_a (T : nat) : is_top hull b T -> (a + length hull <= T)%nat.
Proof.
  intros (HT & Hk & Hf).
  destruct (Nat.le_gt_cases (a + length hull) T) as [|Hlt]; [assumption|]. exfalso.
  assert (Hprev : 0 < slope hull b (T - 1)) by (apply Hk; lia).
  pose proof (left_turn (T - 1)) as Hturn.
  replace (S (T - 1)) with T in Hturn by lia.
  assert (U1 : along hull a b (T - 1) < 0) by (apply down_edge; lia).
  assert (U2 : along hull a b T < 0) by (apply down_edge; lia).
  pose proof along_b as Ub.
  unfold slope in *. unfold along in *.
  pose proof (opposite_cone (ex hull (T - 1)) (ey hull (T - 1)) (ex hull T) (ey hull T) (ex hull b) (ey hull b)
                (- (px (pt hull b) - px (pt hull a))) (- (py (pt hull b) - py (pt hull a)))) as Hc.
  assert (ux_lt : - (px (pt hull b) - px (pt hull a)) * ex hull b + - (py (pt hull b) - py (pt hull a)) * ey hull b < 0)
    by (apply Hc; lia).
  lia.
Qed.

(** Either the calipers of edge [a] stop at [b], or those of edge [b]
    stop at [a]. *)
Lemma farthest_pair_is_a_top : is_top hull a b \/ is_top hull b (a + length hull).
Proof.
  destruct (top_exists a) as (T & HT).
  pose proof (top_a_reaches_b T HT) as HbT.
  destruct (Nat.eq_dec T b) as [-> | Hne]; [left; exact HT|].
  right.
  destruct (top_exists b) as (T' & HT').
  pose proof (top_b_reaches_a T' HT') as HaT.
  destruct (Nat.eq_dec T' (a + length hull)) as [-> | Hne']; [exact HT'|]. exfalso.
  destruct HT as (_ & Hk & _). destruct HT' as (_ & Hk' & _).
  assert (H1 : 0 < slope hull a b) by (apply Hk; lia).
  assert (H2 : 0 < slope hull b (a + length hull)) by (apply Hk'; lia).
  unfold slope in H1, H2. rewrite ex_period, ey_period in H2. lia.
Qed.
End Diametral.
End Calipers.

(** *** The brute-force maximum *)

Lemma max_dist_to_nonneg (a : Point) (l : list Point) : 0 <= max_dist_to a l.
Proof. induction l as [|b l IH]; cbn [max_dist_to]; lia. Qed.

Lemma brute_force_max_nonneg (l : list Point) : 0 <= brute_force_max l.
Proof. induction l as [|a l IH]; cbn [brute_force_max]; lia. Qed.

Lemma max_dist_to_upper (a b : Point) (l : list Point) :
  In b l -> distSq a b <= max_dist_to a l.
Proof.
  induction l as [|c l IH]; intros H; [destruct H|].
  cbn [max_dist_to]. destruct H as [-> | H]; [lia|].
  specialize (IH H). lia.
Qed.

Lemma brute_force_max_upper (l : list Point) (a b : Point) :
  Before l a b -> distSq a b <= brute_force_max l.
Proof.
  induction 1 as [a b l H | x a b l H IH]; cbn [brute_force_max].
  - pose proof (max_dist_to_upper a b l H). lia.
  - lia.
Qed.

Lemma Before_nth (l : list Point) :
  forall i k, (i < k < length l)%nat -> Before l (at_ l i) (at_ l k).
Proof.
  induction l as [|x l IH]; intros i k H; [cbn in H; lia|].
  destruct k as [|k]; [lia|]. destruct i as [|i]; unfold at_; cbn [nth].
  - apply Before_here. apply nth_In. cbn in H. lia.
  - apply Before_later. apply IH. cbn in H. lia.
Qed.

Lemma max_dist_to_attained (a : Point) (l : list Point) :
  l <> [] -> exists k, (k < length l)%nat /\ max_dist_to a l = distSq a (at_ l k).
Proof.
  induction l as [|b l IH]; intros Hne; [contradiction|].
  cbn [max_dist_to]. destruct l as [|c l].
  - exists 0%nat. split; [cbn; lia|]. cbn [max_dist_to at_ nth].
    pose proof (distSq_nonneg a b). lia.
  - destruct (IH ltac:(discriminate)) as (k & Hk & E).
    destruct (Z.max_spec (distSq a b) (max_dist_to a (c :: l))) as [[_ E1] | [_ E1]];
      rewrite E1.
    + exists (S k). split; [cbn in *; lia | exact E].
    + exists 0%nat. split; [cbn; lia | reflexivity].
Qed.

Lemma brute_force_max_attained (l : list Point) :
  (2 <= length l)%nat ->
  exists a b, (a < b < length l)%nat /\ brute_force_max l = distSq (at_ l a) (at_ l b).
Proof.
  induction l as [|x l IH]; intros Hlen; [cbn in Hlen; lia|].
  cbn [brute_force_max].
  destruct (max_dist_to_attained x l) as (k & Hk & E).
  { intros ->. cbn in Hlen. lia. }
  destruct (Z.max_spec (max_dist_to x l) (brute_force_max l)) as [[Hlt E1] | [_ E1]];
    rewrite E1.
  - destruct (Nat.le_gt_cases 2 (length l)) as [H2 | H2].
    + destruct (IH H2) as (a & b & Hab & E2).
      exists (S a), (S b). split; [cbn; lia | exact E2].
    + destruct l as [|y [|z l]]; cbn in H2, Hlen; try lia.
      cbn in Hlt. pose proof (distSq_nonneg x y). lia.
  - exists 0%nat, (S k). split; [cbn; lia | exact E].
Qed.

Lemma pair_le_max (hull : list Point) (x y : nat) :
  (1 <= length hull)%nat ->
  distSq (pt hull x) (pt hull y) <= brute_force_max hull.
Proof.
  intros Hn. unfold pt.
  assert (Hx : (x mod length hull < length hull)%nat) by (apply Nat.mod_upper_bound; lia).
  assert (Hy : (y mod length hull < length hull)%nat) by (apply Nat.mod_upper_bound; lia).
  destruct (Nat.lt_trichotomy (x mod length hull) (y mod length hull)) as [H | [H | H]].
  - apply brute_force_max_upper, Before_nth. lia.
  - rewrite H. pose proof (brute_force_max_nonneg hull).
    unfold distSq. cbv zeta. nia.
  - rewrite distSq_sym. apply brute_force_max_upper, Before_nth. lia.
Qed.

(** *** The diameter *)

Lemma diameter_of_convex (hull : list Point) :
  (3 <= length hull)%nat -> strictly_convex hull = true ->
  convexPolygonDiameter hull = Sqrt (brute_force_max hull).
Proof.
  intros Hn Hc. unfold convexPolygonDiameter.
  destruct (Nat.ltb_spec (length hull) 2) as [|_]; [lia|]. f_equal.
  pose proof (calipers_loop hull Hn Hc (length hull) 0 1 0) as Hloop.
  rewrite (Nat.mod_small 1) in Hloop by lia.
  destruct Hloop as (_ & Hcov & Hat); [lia | lia | |].
  { intros T (HT & _). lia. }
  set (M' := snd (fold_left (calipers_step hull) (seq 0 (length hull)) (1%nat, 0))) in *.
  apply Z.le_antisymm.
  - destruct Hat as [-> | (x & y & ->)].
    + apply brute_force_max_nonneg.
    + apply pair_le_max. lia.
  - destruct (brute_force_max_attained hull) as (a & b & Hab & E); [lia|].
    rewrite E. rewrite <- (pt_small hull a), <- (pt_small hull b) by lia.
    assert (Hmax : forall x y, distSq (pt hull x) (pt hull y)
                               <= distSq (pt hull a) (pt hull b)).
    { intros x y. rewrite (pt_small hull a), (pt_small hull b) by lia.
      rewrite <- E. apply pair_le_max. lia. }
    destruct (farthest_pair_is_a_top hull Hn Hc a b Hab Hmax) as [Ht | Ht].
    + apply (Hcov a b); [lia | exact Ht].
    + rewrite distSq_sym, <- (pt_period hull Hn a). apply (Hcov b); [lia | exact Ht].
Qed.

Lemma cross_flat_r (O A : Point) : cross O A A = 0.
Proof. unfold cross. ring. Qed.

Lemma cross_flat_l (O A : Point) : cross O A O = 0.
Proof. unfold cross. ring. Qed.

Lemma distSq_self (a : Point) : distSq a a = 0.
Proof. unfold distSq. cbv zeta. ring. Qed.

Lemma diameter_of_two (a b : Point) :
  convexPolygonDiameter [a; b] = Sqrt (brute_force_max [a; b]).
Proof.
  cbv [convexPolygonDiameter length Nat.ltb Nat.leb seq fold_left calipers_step
       advance at_ nth Nat.modulo Nat.divmod Nat.add Nat.sub fst snd
       brute_force_max max_dist_to].
  repeat (rewrite ?cross_flat_r, ?cross_flat_l; progress cbn [Z.abs Z.ltb Z.compare]).
  rewrite !distSq_self.
  pose proof (distSq_nonneg a b). f_equal. lia.
Qed.



(** ** Line segment intersection *)

Lemma orientation_cases (p q r : Point) :
  (orientation p q r = 0 /\ orientation_val p q r = 0) \/
  (orientation p q r = 1 /\ 0 < orientation_val p q r) \/
  (orientation p q r = 2 /\ orientation_val p q r < 0).
Proof.
  unfold orientation, near_zero. cbv zeta.
  destruct (Z.eqb_spec (orientation_val p q r) 0) as [E | N]; [left; auto|].
  destruct (Z.ltb_spec 0 (orientation_val p q r)); [right; left | right; right];
    split; auto; lia.
Qed.

Lemma onSegment_spec (p q r : Point) :
  onSegment p q r = true <->
  Z.min (px p) (px r) <= px q <= Z.max (px p) (px r) /\
  Z.min (py p) (py r) <= py q <= Z.max (py p) (py r).
Proof.
  unfold onSegment. rewrite !andb_true_iff, !Z.leb_le. tauto.
Qed.

(** The algorithm, as a proposition on the four values [val]. *)
Lemma segmentsIntersect_spec (A B C D : Point) :
  segmentsIntersect A B C D = true <->
  (orientation A B C <> orientation A B D /\ orientation C D A <> orientation C D B) \/
  (orientation_val A B C = 0 /\ onSegment A C B = true) \/
  (orientation_val A B D = 0 /\ onSegment A D B = true) \/
  (orientation_val C D A = 0 /\ onSegment C A D = true) \/
  (orientation_val C D B = 0 /\ onSegment C B D = true).
Proof.
  unfold segmentsIntersect. cbv zeta.
  destruct (orientation_cases A B C) as [[E1 V1] | [[E1 V1] | [E1 V1]]];
  destruct (orientation_cases A B D) as [[E2 V2] | [[E2 V2] | [E2 V2]]];
  destruct (orientation_cases C D A) as [[E3 V3] | [[E3 V3] | [E3 V3]]];
  destruct (orientation_cases C D B) as [[E4 V4] | [[E4 V4] | [E4 V4]]];
  rewrite E1, E2, E3, E4; cbn [Z.eqb negb andb Pos.eqb];
  destruct (onSegment A C B), (onSegment A D B), (onSegment C A D), (onSegment C B D);
  cbn [andb]; split; intros H; try reflexivity; try discriminate;
  try (left; split; discriminate);
  try (right; left; split; [assumption | reflexivity]);
  try (right; right; left; split; [assumption | reflexivity]);
  try (right; right; right; left; split; [assumption | reflexivity]);
  try (right; right; right; right; split; [assumption | reflexivity]);
  exfalso;
  destruct H as [[N1 N2] | [[Z1 F] | [[Z1 F] | [[Z1 F] | [Z1 F]]]]];
  try discriminate; try lia; try (apply N1; reflexivity); try (apply N2; reflexivity).
Qed.

(** *** Plane algebra of two segments *)

Lemma val_difference (A B C D : Point) :
  orientation_val C D A - orientation_val C D B
  = - (orientation_val A B C - orientation_val A B D).
Proof. unfold orientation_val. ring. Qed.

(** A common point lies on both lines. *)
Lemma meet_on_line (A B C D : Point) (u v w z : Z) :
  meet_weights A B C D u v w z ->
  w * orientation_val A B C + z * orientation_val A B D = 0 /\
  u * orientation_val C D A + v * orientation_val C D B = 0.
Proof.
  intros (Hu & Hv & HS & Hw & Hz & HT & Ex & Ey).
  destruct A as [ax ay], B as [bx by_], C as [cx cy], D as [dx dy].
  unfold orientation_val. cbn [px py] in *.
  split.
  - assert (H : (u + v) * (w * ((by_ - ay) * (cx - bx) - (bx - ax) * (cy - by_))
                          + z * ((by_ - ay) * (dx - bx) - (bx - ax) * (dy - by_))) = 0).
    { transitivity
        ((bx - ax) * ((w + z) * (u * ay + v * by_) - (u + v) * (w * cy + z * dy))
         - (by_ - ay) * ((w + z) * (u * ax + v * bx) - (u + v) * (w * cx + z * dx))).
      - ring.
      - rewrite Ex, Ey. ring. }
    nia.
  - assert (H : (w + z) * (u * ((dy - cy) * (ax - dx) - (dx - cx) * (ay - dy))
                          + v * ((dy - cy) * (bx - dx) - (dx - cx) * (by_ - dy))) = 0).
    { transitivity
        ((dy - cy) * ((w + z) * (u * ax + v * bx) - (u + v) * (w * cx + z * dx))
         - (dx - cx) * ((w + z) * (u * ay + v * by_) - (u + v) * (w * cy + z * dy))).
      - ring.
      - rewrite Ex, Ey. ring. }
    nia.
Qed.

(** Two values of opposite sign, or not both zero with a zero weighted sum. *)
Lemma weighted_zero_signs (w z c1 c2 : Z) :
  0 <= w -> 0 <= z -> 0 < w + z -> w * c1 + z * c2 = 0 ->
  (c1 = 0 /\ c2 = 0) \/ (c1 <= 0 /\ 0 <= c2 /\ c1 < c2) \/ (c2 <= 0 /\ 0 <= c1 /\ c2 < c1).
Proof. intros. nia. Qed.

Lemma orientation_differs (p q r r' : Point) :
  (orientation_val p q r <= 0 /\ 0 <= orientation_val p q r' /\
   orientation_val p q r < orientation_val p q r') ->
  orientation p q r <> orientation p q r'.
Proof.
  intros (H1 & H2 & H3).
  destruct (orientation_cases p q r) as [[E1 V1] | [[E1 V1] | [E1 V1]]];
  destruct (orientation_cases p q r') as [[E2 V2] | [[E2 V2] | [E2 V2]]];
  rewrite E1, E2; try discriminate; lia.
Qed.

(** On the line through [A] with direction [(dx, dy)], the position of a
    point is measured by its scalar product with the direction. *)
Lemma line_position (dx dy rx ry : Z) :
  dy * rx = dx * ry ->
  rx * (dx * dx + dy * dy) = (rx * dx + ry * dy) * dx /\
  ry * (dx * dx + dy * dy) = (rx * dx + ry * dy) * dy.
Proof.
  intros H.
  assert (H1 : dy * (dy * rx) = dy * (dx * ry)) by (rewrite H; reflexivity).
  assert (H2 : dx * (dy * rx) = dx * (dx * ry)) by (rewrite H; reflexivity).
  split; lia.
Qed.

Lemma between_of_position (d r f L : Z) :
  0 < L -> r * L = f * d -> 0 <= f <= L -> Z.min 0 d <= r <= Z.max 0 d.
Proof.
  intros HL E Hf. destruct (Z.le_ge_cases 0 d) as [Hd | Hd].
  - assert (0 <= f * d <= L * d) by nia. nia.
  - assert (L * d <= f * d <= 0) by nia. nia.
Qed.

Lemma zero_between (r1 r2 f1 f2 d L : Z) :
  0 < L -> r1 * L = f1 * d -> r2 * L = f2 * d -> f1 <= 0 <= f2 ->
  Z.min r1 r2 <= 0 <= Z.max r1 r2.
Proof.
  intros HL E1 E2 Hf. destruct (Z.le_ge_cases 0 d) as [Hd | Hd].
  - assert (f1 * d <= 0 <= f2 * d) by nia. nia.
  - assert (f2 * d <= 0 <= f1 * d) by nia. nia.
Qed.

Lemma sum_squares_zero (a b : Z) : a * a + b * b = 0 -> a = 0 /\ b = 0.
Proof. intros H. pose proof (Z.square_nonneg a). pose proof (Z.square_nonneg b). nia. Qed.

Lemma weighted_mean_bounds (S T v L X : Z) :
  0 < S -> 0 < T -> 0 <= v <= S -> 0 <= L -> T * (v * L) = S * X -> 0 <= X <= T * L.
Proof.
  intros HS HT Hv HL E.
  assert (0 <= v * L <= S * L) by nia.
  assert (0 <= T * (v * L) <= T * (S * L)) by nia.
  assert (0 <= S * X <= S * (T * L)) by lia.
  nia.
Qed.

Lemma weighted_above (w z f g L : Z) :
  0 <= w -> 0 <= z -> 0 < w + z -> L < f -> L < g -> (w + z) * L < w * f + z * g.
Proof. intros. nia. Qed.

Lemma weighted_below (w z f g : Z) :
  0 <= w -> 0 <= z -> 0 < w + z -> f < 0 -> g < 0 -> w * f + z * g < 0.
Proof. intros. nia. Qed.

(** Two collinear segments with a common point: an end of one of them
    lies in the bounding box of the other. *)
Lemma collinear_overlap (A B C D : Point) (u v w z : Z) :
  meet_weights A B C D u v w z ->
  orientation_val A B C = 0 -> orientation_val A B D = 0 ->
  onSegment A C B = true \/ onSegment A D B = true \/ onSegment C A D = true.
Proof.
  intros (Hu & Hv & HS & Hw & Hz & HT & Ex & Ey) V1 V2.
  rewrite !onSegment_spec.
  destruct A as [ax ay], B as [bx by_], C as [cx cy], D as [dx dy].
  unfold orientation_val in *. cbn [px py] in *.
  set (ex := bx - ax) in *. set (ey := by_ - ay).
  set (L := ex * ex + ey * ey).
  set (fC := (cx - ax) * ex + (cy - ay) * ey).
  set (fD := (dx - ax) * ex + (dy - ay) * ey).
  assert (HC : ey * (cx - ax) = ex * (cy - ay)) by (unfold ex, ey; lia).
  assert (HD : ey * (dx - ax) = ex * (dy - ay)) by (unfold ex, ey; lia).
  destruct (line_position ex ey (cx - ax) (cy - ay) HC) as [Cx Cy].
  destruct (line_position ex ey (dx - ax) (dy - ay) HD) as [Dx Dy].
  fold L fC in Cx, Cy. fold L fD in Dx, Dy.
  assert (Wx : (w + z) * (v * ex) = (u + v) * (w * (cx - ax) + z * (dx - ax)))
    by (unfold ex; lia).
  assert (Wy : (w + z) * (v * ey) = (u + v) * (w * (cy - ay) + z * (dy - ay)))
    by (unfold ey; lia).
  assert (HL : 0 <= L).
  { unfold L. pose proof (Z.square_nonneg ex). pose proof (Z.square_nonneg ey). lia. }
  destruct (Z.eq_dec L 0) as [L0 | Lpos].
  - (* A = B *)
    destruct (sum_squares_zero ex ey L0) as [E0 E1].
    right. right. rewrite E0 in Wx. rewrite E1 in Wy.
    assert (Zx : w * (cx - ax) + z * (dx - ax) = 0) by (clear - Wx HS; nia).
    assert (Zy : w * (cy - ay) + z * (dy - ay) = 0) by (clear - Wy HS; nia).
    destruct (weighted_zero_signs w z _ _ Hw Hz HT Zx) as [?|[?|?]];
    destruct (weighted_zero_signs w z _ _ Hw Hz HT Zy) as [?|[?|?]]; lia.
  - assert (Wf : (w + z) * (v * L) = (u + v) * (w * fC + z * fD)).
    { unfold L, fC, fD.
      transitivity ((w + z) * (v * ex) * ex + (w + z) * (v * ey) * ey); [ring|].
      rewrite Wx, Wy. ring. }
    assert (Hsum : 0 <= w * fC + z * fD <= (w + z) * L).
    { apply (weighted_mean_bounds (u + v) (w + z) v L); lia. }
    destruct (Z_le_gt_dec 0 fC) as [C0 | C0]; [destruct (Z_le_gt_dec fC L) as [C1 | C1]|].
    + left.
      pose proof (between_of_position ex (cx - ax) fC L ltac:(lia) Cx ltac:(lia)).
      pose proof (between_of_position ey (cy - ay) fC L ltac:(lia) Cy ltac:(lia)).
      unfold ex, ey in *. lia.
    + destruct (Z_le_gt_dec 0 fD) as [D0 | D0]; [destruct (Z_le_gt_dec fD L) as [D1 | D1]|].
      * right. left.
        pose proof (between_of_position ex (dx - ax) fD L ltac:(lia) Dx ltac:(lia)).
        pose proof (between_of_position ey (dy - ay) fD L ltac:(lia) Dy ltac:(lia)).
        unfold ex, ey in *. lia.
      * exfalso. pose proof (weighted_above w z fC fD L). lia.
      * right. right.
        pose proof (zero_between (dx - ax) (cx - ax) fD fC ex L ltac:(lia) Dx Cx ltac:(lia)).
        pose proof (zero_between (dy - ay) (cy - ay) fD fC ey L ltac:(lia) Dy Cy ltac:(lia)).
        lia.
    + destruct (Z_le_gt_dec 0 fD) as [D0 | D0]; [destruct (Z_le_gt_dec fD L) as [D1 | D1]|].
      * right. left.
        pose proof (between_of_position ex (dx - ax) fD L ltac:(lia) Dx ltac:(lia)).
        pose proof (between_of_position ey (dy - ay) fD L ltac:(lia) Dy ltac:(lia)).
        unfold ex, ey in *. lia.
      * right. right.
        pose proof (zero_between (cx - ax) (dx - ax) fC fD ex L ltac:(lia) Cx Dx ltac:(lia)).
        pose proof (zero_between (cy - ay) (dy - ay) fC fD ey L ltac:(lia) Cy Dy ltac:(lia)).
        lia.
      * exfalso. pose proof (weighted_below w z fC fD). lia.
Qed.

(** Completeness: two segments with a common point are reported. *)
Lemma meet_reported (A B C D : Point) (u v w z : Z) :
  meet_weights A B C D u v w z -> segmentsIntersect A B C D = true.
Proof.
  intros Hm. apply segmentsIntersect_spec.
  destruct (meet_on_line A B C D u v w z Hm) as [K1 K2].
  pose proof (val_difference A B C D) as Hd.
  pose proof Hm as (Hu & Hv & HS & Hw & Hz & HT & _).
  destruct (weighted_zero_signs w z _ _ Hw Hz HT K1) as [[Z1 Z2] | H12].
  - destruct (collinear_overlap A B C D u v w z Hm Z1 Z2) as [H | [H | H]].
    + right. left. auto.
    + right. right. left. auto.
    + right. right. right. left. split; [|exact H]. nia.
  - left. split.
    + destruct H12 as [H | H].
      * apply orientation_differs. exact H.
      * intros E. symmetry in E. revert E. apply orientation_differs. exact H.
    + destruct (weighted_zero_signs u v _ _ Hu Hv HS K2) as [[Z3 Z4] | [H | H]].
      * exfalso. lia.
      * apply orientation_differs. exact H.
      * intros E. symmetry in E. revert E. apply orientation_differs. exact H.
Qed.

Lemma orientation_differs_inv (p q r r' : Point) :
  orientation p q r <> orientation p q r' ->
  (orientation_val p q r <= 0 /\ 0 <= orientation_val p q r' /\
   orientation_val p q r < orientation_val p q r') \/
  (orientation_val p q r' <= 0 /\ 0 <= orientation_val p q r /\
   orientation_val p q r' < orientation_val p q r).
Proof.
  intros N.
  destruct (orientation_cases p q r) as [[E1 V1] | [[E1 V1] | [E1 V1]]];
  destruct (orientation_cases p q r') as [[E2 V2] | [[E2 V2] | [E2 V2]]];
  try (exfalso; apply N; congruence); lia.
Qed.

(** A point of the line [AB] inside the bounding box of [A] and [B] is
    a weighted mean of [A] and [B]. *)
Lemma point_on_segment (A B C : Point) :
  orientation_val A B C = 0 -> onSegment A C B = true ->
  exists u v, 0 <= u /\ 0 <= v /\ 0 < u + v /\
              (u + v) * px C = u * px A + v * px B /\
              (u + v) * py C = u * py A + v * py B.
Proof.
  rewrite onSegment_spec.
  destruct A as [ax ay], B as [bx by_], C as [cx cy].
  unfold orientation_val. cbn [px py]. intros V [Hx Hy].
  destruct (Z.eq_dec ax bx) as [Ex | Nx].
  - destruct (Z.eq_dec ay by_) as [Ey | Ny].
    + exists 1, 0. lia.
    + exists (Z.abs (by_ - cy)), (Z.abs (cy - ay)). subst bx.
      assert (cx = ax) by lia. subst cx.
      destruct (Z.lt_ge_cases ay by_).
      * rewrite !Z.abs_eq by lia. repeat split; try lia.
      * rewrite !Z.abs_neq by lia. repeat split; try lia.
  - exists (Z.abs (bx - cx)), (Z.abs (cx - ax)).
    assert (V' : (by_ - ay) * (cx - ax) = (bx - ax) * (cy - ay)) by lia.
    destruct (Z.lt_ge_cases ax bx).
    + rewrite !Z.abs_eq by lia. repeat split; try lia.
    + rewrite !Z.abs_neq by lia. repeat split; try lia.
Qed.

(** Soundness: reported segments have a common point. *)
Lemma reported_meet (A B C D : Point) :
  segmentsIntersect A B C D = true -> exists u v w z, meet_weights A B C D u v w z.
Proof.
  intros H. apply segmentsIntersect_spec in H.
  destruct H as [[N1 N2] | [[V H] | [[V H] | [[V H] | [V H]]]]].
  - pose proof (val_difference A B C D) as Hd.
    destruct (orientation_differs_inv _ _ _ _ N1) as [(H1 & H2 & H12) | (H1 & H2 & H12)];
    destruct (orientation_differs_inv _ _ _ _ N2) as [(H3 & H4 & H34) | (H3 & H4 & H34)];
    try (exfalso; lia).
    + exists (- orientation_val C D B), (orientation_val C D A),
             (orientation_val A B D), (- orientation_val A B C).
      unfold meet_weights. repeat split; try lia;
      destruct A as [ax ay], B as [bx by_], C as [cx cy], D as [dx dy];
      unfold orientation_val; cbn [px py]; ring.
    + exists (orientation_val C D B), (- orientation_val C D A),
             (- orientation_val A B D), (orientation_val A B C).
      unfold meet_weights. repeat split; try lia;
      destruct A as [ax ay], B as [bx by_], C as [cx cy], D as [dx dy];
      unfold orientation_val; cbn [px py]; ring.
  - destruct (point_on_segment A B C V H) as (u & v & Hu & Hv & HS & Ex & Ey).
    exists u, v, 1, 0. unfold meet_weights. repeat split; lia.
  - destruct (point_on_segment A B D V H) as (u & v & Hu & Hv & HS & Ex & Ey).
    exists u, v, 0, 1. unfold meet_weights. repeat split; lia.
  - destruct (point_on_segment C D A V H) as (w & z & Hw & Hz & HT & Ex & Ey).
    exists 1, 0, w, z. unfold meet_weights. repeat split; lia.
  - destruct (point_on_segment C D B V H) as (w & z & Hw & Hz & HT & Ex & Ey).
    exists 0, 1, w, z. unfold meet_weights. repeat split; lia.
Qed.

(** *** Rational parameters and integer weights *)

Lemma weights_give_parameters (A B C D : Point) (u v w z : Z) :
  meet_weights A B C D u v w z -> segments_meet A B C D.
Proof.
  intros (Hu & Hv & HS & Hw & Hz & HT & Ex & Ey).
  exists (v # Z.to_pos (u + v))%Q, (z # Z.to_pos (w + z))%Q.
  unfold seg_x, seg_y, Qle, Qeq, Qplus, Qmult, inject_Z.
  cbn [Qnum Qden]. rewrite !Pos2Z.inj_mul, !Z2Pos.id by lia.
  repeat split; lia.
Qed.

Lemma parameters_give_weights (A B C D : Point) :
  segments_meet A B C D -> exists u v w z, meet_weights A B C D u v w z.
Proof.
  intros ([sn sd] & [tn td] & [Hs0 Hs1] & [Ht0 Ht1] & Ex & Ey).
  exists (Z.pos sd - sn), sn, (Z.pos td - tn), tn.
  unfold seg_x, seg_y, Qle, Qeq, Qplus, Qmult, inject_Z in *.
  cbn [Qnum Qden] in *. rewrite ?Pos2Z.inj_mul in *.
  unfold meet_weights. repeat split; try lia.
Qed.

(** X5: on bounded points [segmentsIntersect] returns [true] exactly
    when the two closed segments have a point in common (touching ends,
    overlapping collinear segments and segments reduced to a point
    included). *)
Theorem segmentsIntersect_iff_common_point (A B C D : Point) :
  bounded_point A -> bounded_point B -> bounded_point C -> bounded_point D ->
  (segmentsIntersect A B C D = true <-> segments_meet A B C D).
Proof.
  intros _ _ _ _. split.
  - intros H. destruct (reported_meet A B C D H) as (u & v & w & z & Hm).
    exact (weights_give_parameters A B C D u v w z Hm).
  - intros H. destruct (parameters_give_weights A B C D H) as (u & v & w & z & Hm).
    exact (meet_reported A B C D u v w z Hm).
Qed.

Lemma segmentsIntersect_iff_common_point_witness :
  segmentsIntersect (P 0 0) (P 2 2) (P 0 2) (P 2 0) = true /\
  segments_meet (P 0 0) (P 2 2) (P 0 2) (P 2 0).
Proof.
  assert (E : segmentsIntersect (P 0 0) (P 2 2) (P 0 2) (P 2 0) = true)
    by (vm_compute; reflexivity).
  split; [exact E|].
  apply (segmentsIntersect_iff_common_point (P 0 0) (P 2 2) (P 0 2) (P 2 0));
    [split; vm_compute; discriminate .. | exact E].
Defined.

(** ** Point in polygon *)

(** The quotient test, cleared of its denominator. *)
Lemma quotient_test (x N d c : Z) :
  d <> 0 ->
  ((inject_Z x < inject_Z N / inject_Z d + inject_Z c)%Q <->
   (0 < d /\ (x - c) * d < N) \/ (d < 0 /\ N < (x - c) * d)).
Proof.
  intros Hd. unfold Qlt, Qdiv, Qplus, Qmult, Qinv, inject_Z.
  destruct d as [|q|q]; [congruence | |]; cbn [Qnum Qden Z.mul Pos.mul]; split; intros H.
  - left. split; [lia|]. rewrite ?Pos2Z.inj_mul in *. nia.
  - destruct H as [[_ H] | [H _]]; [|lia]. rewrite ?Pos2Z.inj_mul in *. nia.
  - right. split; [lia|]. rewrite ?Pos2Z.inj_mul in *. nia.
  - destruct H as [[H _] | [_ H]]; [lia|]. rewrite ?Pos2Z.inj_mul in *. nia.
Qed.

(** An edge is crossed when it straddles the height of [p] and [p] is
    on the side of it from which the ray to the right meets it. *)
Lemma edge_crossed_spec (pi pj p : Point) :
  edge_crossed pi pj p = true <->
  (py pi <= py p < py pj /\ 0 < cross pi pj p) \/
  (py pj <= py p < py pi /\ cross pi pj p < 0).
Proof.
  unfold edge_crossed. rewrite andb_true_iff, negb_true_iff, Qlt_bool_true.
  destruct (Z.eq_dec (py pj) (py pi)) as [E | N].
  - rewrite E. rewrite eqb_reflx. split; [intros [H _]; discriminate | lia].
  - rewrite quotient_test by lia. unfold cross.
    destruct (Z.ltb_spec (py p) (py pi)) as [L1 | L1], (Z.ltb_spec (py p) (py pj)) as [L2 | L2];
      cbn [Bool.eqb];
      split; intros H; try (destruct H as [H _]; discriminate); try lia.
Qed.

Lemma cross_swap_origin (a b p : Point) : cross b a p = - cross a b p.
Proof. unfold cross. ring. Qed.

Lemma edge_crossed_sym (a b p : Point) : edge_crossed a b p = edge_crossed b a p.
Proof.
  apply eq_true_iff_eq. rewrite !edge_crossed_spec.
  rewrite (cross_swap_origin a b p). lia.
Qed.

(** The loop of [isPointInPolygon] from index [i] on. *)
Lemma polygon_loop (p : Point) (polygon : list Point) :
  forall (l : list Point) (i j : nat) (inside : bool),
    skipn i polygon = l ->
    fst (fold_left
           (fun st k =>
              (if edge_crossed (at_ polygon k) (at_ polygon (snd st)) p
               then negb (fst st) else fst st, k))
           (seq i (length l)) (inside, j))
    = xorb inside (crossings p (at_ polygon j) l).
Proof.
  induction l as [|a l IH]; intros i j inside E; cbn [length seq fold_left fst snd crossings].
  - rewrite xorb_false_r. reflexivity.
  - assert (Ea : at_ polygon i = a).
    { unfold at_. rewrite <- (Nat.add_0_r i), <- nth_skipn. rewrite E. reflexivity. }
    assert (El : skipn (S i) polygon = l).
    { replace (S i) with (1 + i)%nat by lia. rewrite <- skipn_skipn. rewrite E. reflexivity. }
    rewrite (IH (S i) i _ El). rewrite Ea.
    destruct (edge_crossed a (at_ polygon j) p), inside, (crossings p a l); reflexivity.
Qed.

Lemma at_last (l : list Point) : at_ l (length l - 1) = last l origin.
Proof.
  induction l as [|a [|b l] IH]; try reflexivity.
  cbn [length last] in *. rewrite <- IH. unfold at_.
  replace (S (S (length l)) - 1)%nat with (S (S (length l) - 1)) by lia. reflexivity.
Qed.

(** [isPointInPolygon] is the parity of the crossed edges of the closed
    polygon. *)
Lemma isPointInPolygon_crossings (polygon : list Point) (p : Point) :
  isPointInPolygon polygon p = crossings p (last polygon origin) polygon.
Proof.
  unfold isPointInPolygon. cbv zeta.
  rewrite (polygon_loop p polygon polygon 0 (length polygon - 1) false eq_refl).
  rewrite xorb_false_l, at_last. reflexivity.
Qed.

Lemma last_app_nonempty (l1 l2 : list Point) (d : Point) :
  l2 <> [] -> last (l1 ++ l2) d = last l2 d.
Proof.
  intros H. induction l1 as [|a l1 IH]; [reflexivity|].
  cbn [app]. destruct (l1 ++ l2) eqn:E.
  - apply app_eq_nil in E. tauto.
  - rewrite <- IH. reflexivity.
Qed.

Lemma last_change_default (l : list Point) (d d' : Point) :
  l <> [] -> last l d = last l d'.
Proof.
  induction l as [|a [|b l] IH]; intros H; [congruence | reflexivity |].
  cbn [last] in *. apply IH. discriminate.
Qed.

Lemma last_cons_default (a : Point) (l : list Point) (d : Point) :
  last (a :: l) d = last l a.
Proof.
  destruct l as [|b l]; [reflexivity|].
  change (last (a :: b :: l) d) with (last (b :: l) d).
  apply last_change_default. discriminate.
Qed.

Lemma crossings_app (p prev : Point) (l1 l2 : list Point) :
  crossings p prev (l1 ++ l2)
  = xorb (crossings p prev l1) (crossings p (last l1 prev) l2).
Proof.
  revert prev. induction l1 as [|a l1 IH]; intros prev; cbn [app crossings].
  - rewrite xorb_false_l. reflexivity.
  - rewrite IH, xorb_assoc, last_cons_default. reflexivity.
Qed.

(** The answer does not depend on the vertex the polygon is listed from. *)
Lemma polygon_rotate (l1 l2 : list Point) (p : Point) :
  isPointInPolygon (l2 ++ l1) p = isPointInPolygon (l1 ++ l2) p.
Proof.
  rewrite !isPointInPolygon_crossings.
  destruct l1 as [|a l1]; [rewrite !app_nil_r; reflexivity|].
  destruct l2 as [|b l2]; [rewrite !app_nil_r; reflexivity|].
  rewrite !last_app_nonempty by discriminate.
  rewrite !crossings_app.
  rewrite (last_change_default (b :: l2) (last (a :: l1) origin) origin) by discriminate.
  rewrite (last_change_default (a :: l1) (last (b :: l2) origin) origin) by discriminate.
  apply xorb_comm.
Qed.

Lemma crossings_rev (p : Point) (l : list Point) (prev : Point) :
  crossings p prev l = crossings p (last l prev) (rev (removelast (prev :: l))).
Proof.
  revert prev. induction l as [|a l IH]; intros prev; [reflexivity|].
  cbn [crossings]. rewrite IH.
  change (removelast (prev :: a :: l)) with (prev :: removelast (a :: l)).
  cbn [rev]. rewrite crossings_app. cbn [crossings]. rewrite xorb_false_r.
  rewrite last_cons_default. rewrite xorb_comm. f_equal.
  rewrite edge_crossed_sym. f_equal.
  destruct l as [|b l]; [reflexivity|].
  change (removelast (a :: b :: l)) with (a :: removelast (b :: l)).
  cbn [rev]. rewrite last_last. reflexivity.
Qed.

(** Nor on the direction it is listed in. *)
Lemma polygon_rev (polygon : list Point) (p : Point) :
  isPointInPolygon (rev polygon) p = isPointInPolygon polygon p.
Proof.
  rewrite !isPointInPolygon_crossings.
  destruct polygon as [|a l]; [reflexivity|].
  destruct l as [|b l']; [reflexivity|].
  assert (Hne : b :: l' <> []) by discriminate.
  revert Hne. generalize (b :: l'). clear b l'. intros l Hne.
  destruct (exists_last Hne) as (m & z & ->).
  cbn [rev]. rewrite rev_app_distr. cbn [rev app].
  rewrite !last_cons_default, !last_last.
  cbn [crossings]. rewrite (crossings_rev p (m ++ [z]) a).
  rewrite last_last.
  change (removelast (a :: m ++ [z])) with (removelast ((a :: m) ++ [z])).
  rewrite removelast_last. cbn [rev]. rewrite edge_crossed_sym. reflexivity.
Qed.

(** X6: on bounded points the answer of [isPointInPolygon] depends
    only on the closed polygon, not on the vertex its list starts from
    nor on the direction in which it is listed. *)
Theorem isPointInPolygon_same_cycle (l1 l2 : list Point) (p : Point) :
  Forall bounded_point (l1 ++ l2) -> bounded_point p ->
  isPointInPolygon (l2 ++ l1) p = isPointInPolygon (l1 ++ l2) p /\
  isPointInPolygon (rev (l1 ++ l2)) p = isPointInPolygon (l1 ++ l2) p.
Proof. intros _ _. split; [apply polygon_rotate | apply polygon_rev]. Qed.

Lemma isPointInPolygon_same_cycle_witness :
  isPointInPolygon ([P 3 3; P 0 3] ++ [P 0 0; P 3 0]) (P 1 1)
  = isPointInPolygon ([P 0 0; P 3 0] ++ [P 3 3; P 0 3]) (P 1 1) /\
  isPointInPolygon (rev ([P 0 0; P 3 0] ++ [P 3 3; P 0 3])) (P 1 1)
  = isPointInPolygon ([P 0 0; P 3 0] ++ [P 3 3; P 0 3]) (P 1 1).
Proof.
  apply (isPointInPolygon_same_cycle [P 0 0; P 3 0] [P 3 3; P 0 3] (P 1 1)).
  - repeat constructor; vm_compute; discriminate.
  - split; vm_compute; discriminate.
Defined.

Ltac edge_cases :=
  repeat match goal with
         | |- context [edge_crossed ?a ?b ?p] =>
             let E := fresh "E" in
             destruct (edge_crossed a b p) eqn:E;
             [apply edge_crossed_spec in E
             |apply not_true_iff_false in E; rewrite edge_crossed_spec in E]
         end.

(** X7: for a polygon of fewer than 3 vertices the answer is [false] at
    every point (polygon and point bounded). *)
Theorem isPointInPolygon_needs_three_vertices (polygon : list Point) (p : Point) :
  Forall bounded_point polygon -> bounded_point p ->
  (length polygon < 3)%nat -> isPointInPolygon polygon p = false.
Proof.
  intros _ _ Hn. rewrite isPointInPolygon_crossings.
  destruct polygon as [|a [|b [|c l]]]; [reflexivity | | |cbn in Hn; lia];
    cbn [last crossings].
  - edge_cases; [exfalso; lia | reflexivity].
  - rewrite (edge_crossed_sym a b). destruct (edge_crossed b a p); reflexivity.
Qed.

Lemma isPointInPolygon_needs_three_vertices_witness :
  isPointInPolygon [P 0 0; P 4 4] (P 2 2) = false.
Proof.
  apply (isPointInPolygon_needs_three_vertices [P 0 0; P 4 4] (P 2 2)).
  - repeat constructor; vm_compute; discriminate.
  - split; vm_compute; discriminate.
  - cbn. lia.
Defined.

(** X8: on an axis-parallel rectangle of bounded corners listed
    counter-clockwise from its lower left corner, the answer at a
    bounded point is [true] exactly on the half-open box: the left and
    lower sides are inside, the right and upper sides are outside. *)
Theorem isPointInPolygon_rectangle (x0 y0 x1 y1 : Z) (p : Point) :
  bounded_point (P x0 y0) -> bounded_point (P x1 y1) -> bounded_point p ->
  x0 < x1 -> y0 < y1 ->
  (isPointInPolygon [P x0 y0; P x1 y0; P x1 y1; P x0 y1] p = true <->
   x0 <= px p < x1 /\ y0 <= py p < y1).
Proof.
  intros _ _ _ Hx Hy. rewrite isPointInPolygon_crossings.
  cbn [last crossings]. edge_cases; unfold cross, P in *; cbn [px py] in *;
    cbn [xorb]; split; intros H; try discriminate; try reflexivity; try nia.
Qed.

Lemma isPointInPolygon_rectangle_witness :
  isPointInPolygon [P 0 0; P 2 0; P 2 3; P 0 3] (P 0 1) = true /\
  isPointInPolygon [P 0 0; P 2 0; P 2 3; P 0 3] (P 2 1) = false.
Proof.
  split.
  - apply (isPointInPolygon_rectangle 0 0 2 3 (P 0 1));
      try (split; vm_compute; discriminate); cbn; lia.
  - apply not_true_iff_false. intros H.
    apply (isPointInPolygon_rectangle 0 0 2 3 (P 2 1)) in H;
      try (split; vm_compute; discriminate); cbn in *; lia.
Defined.

(** *** Triangles *)

(** Barycentric coordinates: a point is the mean of the vertices of a
    triangle weighted by the three cross products. *)
Lemma barycentric (a b c p : Point) :
  cross a b p + cross b c p + cross c a p = cross a b c /\
  py p * cross a b c = cross b c p * py a + cross c a p * py b + cross a b p * py c /\
  px p * cross a b c = cross b c p * px a + cross c a p * px b + cross a b p * px c.
Proof. unfold cross. repeat split; ring. Qed.

(** A weighted mean with positive weights lies strictly between the
    least and the greatest value, unless the values agree. *)
Lemma mean_not_above (u v w ya yb yc y : Z) :
  0 < u -> 0 < v -> 0 < w ->
  y * (u + v + w) = u * ya + v * yb + w * yc ->
  ya <= y -> yb <= y -> yc <= y -> ya = y /\ yb = y /\ yc = y.
Proof.
  intros Hu Hv Hw E Ha Hb Hc.
  assert (H : u * (y - ya) + v * (y - yb) + w * (y - yc) = 0) by lia.
  assert (0 <= u * (y - ya)) by nia. assert (0 <= v * (y - yb)) by nia.
  assert (0 <= w * (y - yc)) by nia.
  repeat split; nia.
Qed.

Lemma mean_not_below (u v w ya yb yc y : Z) :
  0 < u -> 0 < v -> 0 < w ->
  y * (u + v + w) = u * ya + v * yb + w * yc ->
  y <= ya -> y <= yb -> y <= yc -> ya = y /\ yb = y /\ yc = y.
Proof.
  intros Hu Hv Hw E Ha Hb Hc.
  assert (H : u * (ya - y) + v * (yb - y) + w * (yc - y) = 0) by lia.
  assert (0 <= u * (ya - y)) by nia. assert (0 <= v * (yb - y)) by nia.
  assert (0 <= w * (yc - y)) by nia.
  repeat split; nia.
Qed.

Lemma cross_level (a b c : Point) : py a = py b -> py b = py c -> cross a b c = 0.
Proof. unfold cross. intros -> ->. ring. Qed.

Lemma cross_cycle (a b c : Point) : cross b c a = cross a b c.
Proof. unfold cross. ring. Qed.

Lemma triangle_inside (a b c p : Point) :
  0 < cross a b c ->
  0 < cross a b p -> 0 < cross b c p -> 0 < cross c a p ->
  isPointInPolygon [a; b; c] p = true.
Proof.
  intros Habc H1 H2 H3. rewrite isPointInPolygon_crossings.
  cbn [last crossings].
  destruct (barycentric a b c p) as (B0 & By & _).
  assert (By' : py p * (cross b c p + cross c a p + cross a b p)
                = cross b c p * py a + cross c a p * py b + cross a b p * py c).
  { rewrite <- By. f_equal. lia. }
  assert (Hup : ~ (py a <= py p /\ py b <= py p /\ py c <= py p)).
  { intros (Ha & Hb & Hc).
    destruct (mean_not_above _ _ _ _ _ _ _ H2 H3 H1 By' Ha Hb Hc) as (E1 & E2 & E3).
    rewrite (cross_level a b c) in Habc by lia. lia. }
  assert (Hdn : ~ (py p <= py a /\ py p <= py b /\ py p <= py c)).
  { intros (Ha & Hb & Hc).
    destruct (mean_not_below _ _ _ _ _ _ _ H2 H3 H1 By' Ha Hb Hc) as (E1 & E2 & E3).
    rewrite (cross_level a b c) in Habc by lia. lia. }
  pose proof (cross_swap_origin a b p) as S1.
  pose proof (cross_swap_origin b c p) as S2.
  pose proof (cross_swap_origin c a p) as S3.
  edge_cases; cbn [xorb]; try reflexivity; exfalso; lia.
Qed.

Lemma triangle_outside (a b c p : Point) :
  0 < cross a b c ->
  cross a b p < 0 \/ cross b c p < 0 \/ cross c a p < 0 ->
  isPointInPolygon [a; b; c] p = false.
Proof.
  intros Habc Hout. rewrite isPointInPolygon_crossings.
  cbn [last crossings].
  destruct (barycentric a b c p) as (B0 & By & _).
  assert (Hb : cross b c p * (py a - py p) + cross c a p * (py b - py p)
               + cross a b p * (py c - py p) = 0) by lia.
  pose proof (cross_swap_origin a b p) as S1.
  pose proof (cross_swap_origin b c p) as S2.
  pose proof (cross_swap_origin c a p) as S3.
  rewrite <- B0 in Habc. clear B0 By.
  edge_cases; cbn [xorb]; try reflexivity; exfalso;
    rewrite ?S1, ?S2, ?S3 in *; clear S1 S2 S3;
    revert E E0 E1 Hb Habc Hout;
    generalize (cross a b p) (cross b c p) (cross c a p) (py a) (py b) (py c) (py p);
    intros w u v ya yb yc y E E0 E1 Hb Habc Hout.
  all: timeout 60 nia.
Qed.

(** ** Axis-aligned bounding box *)


Lemma aabb_step_comm (b : Point * Point) (p q : Point) :
  aabb_step (aabb_step b p) q = aabb_step (aabb_step b q) p.
Proof.
  unfold aabb_step; cbn. f_equal; f_equal; lia.
Qed.

Lemma aabb_fold_perm (l l' : list Point) :
  Permutation l l' -> forall b, fold_left aabb_step l b = fold_left aabb_step l' b.
Proof.
  induction 1 as [|x l l' _ IH|x y l|l1 l2 l3 _ IH1 _ IH2]; intros b; cbn.
  - reflexivity.
  - apply IH.
  - rewrite aabb_step_comm. reflexivity.
  - rewrite IH1. apply IH2.
Qed.

Lemma aabb_step_join (b : Point * Point) (p : Point) :
  aabb_step b p = aabb_join b (p, p).
Proof. reflexivity. Qed.

Lemma aabb_join_assoc (a b c : Point * Point) :
  aabb_join (aabb_join a b) c = aabb_join a (aabb_join b c).
Proof. unfold aabb_join; cbn. f_equal; f_equal; lia. Qed.

Lemma aabb_join_comm (a b : Point * Point) : aabb_join a b = aabb_join b a.
Proof. unfold aabb_join; cbn. f_equal; f_equal; lia. Qed.

Lemma aabb_step_idem (p : Point) : aabb_step (p, p) p = (p, p).
Proof.
  destruct p as [x y]. unfold aabb_step; cbn. f_equal; f_equal; lia.
Qed.

Lemma aabb_fold_from (l : list Point) (b : Point * Point) (p : Point) :
  fold_left aabb_step l (aabb_join b (p, p)) = aabb_join b (fold_left aabb_step l (p, p)).
Proof.
  revert b p. induction l as [|q l IH]; intros b p; cbn [fold_left]; [reflexivity|].
  rewrite !aabb_step_join. rewrite (IH (p, p) q), (IH (aabb_join b (p, p)) q).
  apply aabb_join_assoc.
Qed.

(** The box of a non-empty vector, computed from its first point. *)
Lemma computeAABB_cons (p : Point) (l : list Point) :
  computeAABB (p :: l) = fold_left aabb_step l (p, p).
Proof.
  unfold computeAABB. cbn [fold_left at_ nth]. rewrite aabb_step_idem. reflexivity.
Qed.

Lemma aabb_step_grows (b : Point * Point) (p q : Point) :
  in_aabb b q -> in_aabb (aabb_step b p) q.
Proof. unfold in_aabb, aabb_step; cbn. lia. Qed.

Lemma aabb_step_in (b : Point * Point) (p : Point) : in_aabb (aabb_step b p) p.
Proof. unfold in_aabb, aabb_step; cbn. lia. Qed.

Lemma aabb_fold_grows (l : list Point) (b : Point * Point) (q : Point) :
  in_aabb b q -> in_aabb (fold_left aabb_step l b) q.
Proof.
  revert b. induction l as [|p l IH]; intros b H; cbn; [exact H|].
  apply IH. apply aabb_step_grows. exact H.
Qed.

Lemma aabb_fold_covers (l : list Point) (b : Point * Point) (q : Point) :
  In q l -> in_aabb (fold_left aabb_step l b) q.
Proof.
  revert b. induction l as [|p l IH]; intros b H; [destruct H|].
  cbn [fold_left]. destruct H as [-> | H].
  - apply aabb_fold_grows. apply aabb_step_in.
  - apply IH. exact H.
Qed.

Lemma attains_mono (l l' : list Point) (b : Point * Point) :
  incl l l' -> attains l b -> attains l' b.
Proof.
  intros Hi (H1 & H2 & H3 & H4).
  repeat split; [destruct H1 as (p & ? & ?) | destruct H2 as (p & ? & ?)
                 | destruct H3 as (p & ? & ?) | destruct H4 as (p & ? & ?)];
    exists p; split; auto.
Qed.

Lemma aabb_step_attains (l : list Point) (b : Point * Point) (p : Point) :
  attains l b -> attains (p :: l) (aabb_step b p).
Proof.
  intros (H1 & H2 & H3 & H4). unfold aabb_step. cbn [fst snd px py].
  repeat split.
  - destruct (Z.min_spec (px (fst b)) (px p)) as [[_ ->] | [_ ->]].
    + destruct H1 as (q & ? & ?). exists q. split; [right|]; auto.
    + exists p. split; [left|]; auto.
  - destruct (Z.min_spec (py (fst b)) (py p)) as [[_ ->] | [_ ->]].
    + destruct H2 as (q & ? & ?). exists q. split; [right|]; auto.
    + exists p. split; [left|]; auto.
  - destruct (Z.max_spec (px (snd b)) (px p)) as [[_ ->] | [_ ->]].
    + exists p. split; [left|]; auto.
    + destruct H3 as (q & ? & ?). exists q. split; [right|]; auto.
  - destruct (Z.max_spec (py (snd b)) (py p)) as [[_ ->] | [_ ->]].
    + exists p. split; [left|]; auto.
    + destruct H4 as (q & ? & ?). exists q. split; [right|]; auto.
Qed.

Lemma aabb_fold_attains (l done : list Point) (b : Point * Point) :
  attains done b -> attains (done ++ l) (fold_left aabb_step l b).
Proof.
  revert done b. induction l as [|p l IH]; intros done b H; cbn [fold_left].
  - rewrite app_nil_r. exact H.
  - apply (attains_mono ((p :: done) ++ l)).
    + intros q Hq. cbn in Hq. apply in_or_app. destruct Hq as [<- | Hq].
      * right. left. reflexivity.
      * apply in_app_or in Hq. destruct Hq; [left | right; right]; assumption.
    + apply IH. apply aabb_step_attains. exact H.
Qed.

Lemma aabb_tight (p0 : Point) (l : list Point) :
  (forall p, In p (p0 :: l) -> in_aabb (computeAABB (p0 :: l)) p) /\
  attains (p0 :: l) (computeAABB (p0 :: l)).
Proof.
  split.
  - intros p Hp. unfold computeAABB. apply aabb_fold_covers. exact Hp.
  - rewrite computeAABB_cons. apply (aabb_fold_attains l [p0]).
    repeat split; exists p0; (split; [left|]; reflexivity).
Qed.

(** A set of points has one tight box. *)
Lemma aabb_unique (l : list Point) (b b' : Point * Point) :
  (forall p, In p l -> in_aabb b p) -> attains l b ->
  (forall p, In p l -> in_aabb b' p) -> attains l b' ->
  b = b'.
Proof.
  intros Hin (H1 & H2 & H3 & H4) Hin' (H1' & H2' & H3' & H4').
  destruct b as [[x0 y0] [x1 y1]], b' as [[x0' y0'] [x1' y1']].
  unfold in_aabb in *. cbn [fst snd px py] in *.
  destruct H1 as (p1 & I1 & E1), H2 as (p2 & I2 & E2),
           H3 as (p3 & I3 & E3), H4 as (p4 & I4 & E4),
           H1' as (q1 & J1 & F1), H2' as (q2 & J2 & F2),
           H3' as (q3 & J3 & F3), H4' as (q4 & J4 & F4).
  pose proof (Hin' p1 I1). pose proof (Hin' p2 I2).
  pose proof (Hin' p3 I3). pose proof (Hin' p4 I4).
  pose proof (Hin q1 J1). pose proof (Hin q2 J2).
  pose proof (Hin q3 J3). pose proof (Hin q4 J4).
  f_equal; f_equal; lia.
Qed.

(** X9: the box returned for a non-empty vector contains every point of
    the vector, and each of its four bounds is attained by a point of
    the vector. *)
Theorem computeAABB_is_the_tight_box (pts : list Point) :
  pts <> [] ->
  (forall p, In p pts -> in_aabb (computeAABB pts) p) /\
  attains pts (computeAABB pts).
Proof.
  intros Hne. destruct pts as [|p0 l]; [congruence|]. apply aabb_tight.
Qed.

Lemma computeAABB_is_the_tight_box_witness :
  in_aabb (computeAABB scenario1) (P 3 3) /\
  computeAABB scenario1 = (P 0 0, P 4 5).
Proof.
  split.
  - apply (computeAABB_is_the_tight_box scenario1); [discriminate|].
    vm_compute. tauto.
  - vm_compute. reflexivity.
Defined.

Lemma attains_incl (l l' : list Point) (b : Point * Point) :
  (forall p, In p l -> In p l') -> attains l b -> attains l' b.
Proof. intros H. apply attains_mono. exact H. Qed.

(** X10: the box depends only on the set of the points: two vectors with
    the same elements, in any order and multiplicity, have the same box. *)
Theorem computeAABB_same_elements (pts pts' : list Point) :
  (forall p, In p pts <-> In p pts') -> computeAABB pts = computeAABB pts'.
Proof.
  intros Hs. destruct pts as [|p l], pts' as [|p' l'].
  - reflexivity.
  - exfalso. apply (proj2 (Hs p')). left. reflexivity.
  - exfalso. apply (proj1 (Hs p)). left. reflexivity.
  - destruct (aabb_tight p l) as [Hin Hat], (aabb_tight p' l') as [Hin' Hat'].
    apply (aabb_unique (p :: l)).
    + exact Hin.
    + exact Hat.
    + intros q Hq. apply Hin'. apply Hs. exact Hq.
    + apply (attains_incl (p' :: l')); [|exact Hat']. intros q Hq. apply Hs. exact Hq.
Qed.

Lemma computeAABB_same_elements_witness :
  computeAABB [P 1 2; P 3 0; P 1 2] = computeAABB [P 3 0; P 1 2].
Proof.
  apply (computeAABB_same_elements [P 1 2; P 3 0; P 1 2] [P 3 0; P 1 2]).
  intros p. cbn. tauto.
Defined.

(** X11: the box of two non-empty vectors put together is the join of
    their two boxes. *)
Theorem computeAABB_app (pts1 pts2 : list Point) :
  pts1 <> [] -> pts2 <> [] ->
  computeAABB (pts1 ++ pts2) = aabb_join (computeAABB pts1) (computeAABB pts2).
Proof.
  intros H1 H2. destruct pts1 as [|p l1]; [congruence|].
  destruct pts2 as [|q l2]; [congruence|].
  cbn [app]. rewrite !computeAABB_cons. rewrite fold_left_app. cbn [fold_left].
  rewrite aabb_step_join. rewrite aabb_fold_from. reflexivity.
Qed.

Lemma computeAABB_app_witness :
  computeAABB ([P 0 0; P 1 5] ++ [P 4 2])
  = aabb_join (computeAABB [P 0 0; P 1 5]) (computeAABB [P 4 2]) /\
  aabb_join (computeAABB [P 0 0; P 1 5]) (computeAABB [P 4 2]) = (P 0 0, P 4 5).
Proof.
  split.
  - apply (computeAABB_app [P 0 0; P 1 5] [P 4 2]); discriminate.
  - vm_compute. reflexivity.
Defined.

(** ** Point in polygon: convex polygons *)

(** *** Parity *)

Lemma parity_app (l1 l2 : list bool) : parity (l1 ++ l2) = xorb (parity l1) (parity l2).
Proof.
  induction l1 as [|b l1 IH]; cbn [app parity].
  - destruct (parity l2); reflexivity.
  - rewrite IH, xorb_assoc. reflexivity.
Qed.

Lemma parity_all_false (f : nat -> bool) (l : list nat) :
  (forall i, In i l -> f i = false) -> parity (map f l) = false.
Proof.
  induction l as [|a l IH]; intros H; [reflexivity|].
  cbn [map parity]. rewrite (H a) by (left; reflexivity).
  rewrite IH; [reflexivity|]. intros i Hi. apply H. right. exact Hi.
Qed.

(** Exactly one [true] makes an odd parity. *)
Lemma parity_unique (f : nat -> bool) (n i : nat) :
  (i < n)%nat -> f i = true ->
  (forall j, (j < n)%nat -> f j = true -> j = i) ->
  parity (map f (seq 0 n)) = true.
Proof.
  intros Hi Hf Hu.
  assert (Es : seq 0 n = seq 0 i ++ i :: seq (S i) (n - S i)).
  { replace (i :: seq (S i) (n - S i)) with (seq i (S (n - S i))) by reflexivity.
    rewrite <- seq_app. f_equal. lia. }
  rewrite Es, map_app, parity_app. cbn [map parity].
  rewrite Hf. rewrite !parity_all_false; [reflexivity | |].
  - intros j Hj. apply in_seq in Hj. destruct (f j) eqn:E; [|reflexivity].
    apply Hu in E; lia.
  - intros j Hj. apply in_seq in Hj. destruct (f j) eqn:E; [|reflexivity].
    apply Hu in E; lia.
Qed.

(** The parity of the crossed edges, edge by edge. *)
Lemma crossings_parity (p : Point) (l : list Point) (prev : Point) :
  crossings p prev l
  = parity (map (fun i => edge_crossed (nth i l origin) (nth i (prev :: l) origin) p)
                (seq 0 (length l))).
Proof.
  revert prev. induction l as [|a l IH]; intros prev; [reflexivity|].
  cbn [crossings length seq map parity nth]. f_equal.
  rewrite IH. f_equal.
  rewrite <- seq_shift, map_map. apply map_ext. intros i. reflexivity.
Qed.

(** *** Plane algebra of the ray *)

(** Two edges that both run upwards through the height [y] cannot each
    have the other on its left. *)
Lemma two_upward_edges (a b c d : Point) (y : Z) :
  py a <= y < py b -> py c <= y < py d ->
  0 < cross a b c -> 0 <= cross a b d ->
  0 < cross c d a -> 0 <= cross c d b -> False.
Proof.
  intros Hab Hcd H1 H2 H3 H4.
  assert (E : (py d - y) * cross a b c + (y - py c) * cross a b d
              + (py b - y) * cross c d a + (y - py a) * cross c d b = 0)
    by (unfold cross; ring).
  assert (0 < (py d - y) * cross a b c) by (apply Z.mul_pos_pos; lia).
  assert (0 <= (y - py c) * cross a b d) by (apply Z.mul_nonneg_nonneg; lia).
  assert (0 < (py b - y) * cross c d a) by (apply Z.mul_pos_pos; lia).
  assert (0 <= (y - py a) * cross c d b) by (apply Z.mul_nonneg_nonneg; lia).
  lia.
Qed.

(** A point strictly inside the corner [P Q R] of a left turn whose
    vertex [Q] is a lowest (highest) point of the corner is strictly
    above (below) [Q]. *)
Lemma above_lowest (P Q R X : Point) :
  0 < cross P Q R -> 0 < cross P Q X -> 0 < cross Q R X ->
  py Q <= py P -> py Q <= py R -> py Q < py X.
Proof.
  intros Ht H1 H2 HP HR.
  assert (E : (py X - py Q) * cross P Q R
              = (py R - py Q) * cross P Q X + (py P - py Q) * cross Q R X)
    by (unfold cross; ring).
  assert (0 <= (py R - py Q) * cross P Q X) by (apply Z.mul_nonneg_nonneg; lia).
  assert (0 <= (py P - py Q) * cross Q R X) by (apply Z.mul_nonneg_nonneg; lia).
  destruct (Z.eq_dec (py R) (py Q)) as [ER | NR].
  - destruct (Z.eq_dec (py P) (py Q)) as [EP | NP].
    + exfalso. rewrite (cross_level P Q R) in Ht by lia. lia.
    + assert (0 < (py P - py Q) * cross Q R X) by (apply Z.mul_pos_pos; lia). nia.
  - assert (0 < (py R - py Q) * cross P Q X) by (apply Z.mul_pos_pos; lia). nia.
Qed.

Lemma below_highest (P Q R X : Point) :
  0 < cross P Q R -> 0 < cross P Q X -> 0 < cross Q R X ->
  py P <= py Q -> py R <= py Q -> py X < py Q.
Proof.
  intros Ht H1 H2 HP HR.
  assert (E : (py Q - py X) * cross P Q R
              = (py Q - py R) * cross P Q X + (py Q - py P) * cross Q R X)
    by (unfold cross; ring).
  assert (0 <= (py Q - py R) * cross P Q X) by (apply Z.mul_nonneg_nonneg; lia).
  assert (0 <= (py Q - py P) * cross Q R X) by (apply Z.mul_nonneg_nonneg; lia).
  destruct (Z.eq_dec (py R) (py Q)) as [ER | NR].
  - destruct (Z.eq_dec (py P) (py Q)) as [EP | NP].
    + exfalso. rewrite (cross_level P Q R) in Ht by lia. lia.
    + assert (0 < (py Q - py P) * cross Q R X) by (apply Z.mul_pos_pos; lia). nia.
  - assert (0 < (py Q - py R) * cross P Q X) by (apply Z.mul_pos_pos; lia). nia.
Qed.

(** A function on a non-empty range of indices has a least value. *)
Lemma least_value (f : nat -> Z) (n : nat) :
  (0 < n)%nat -> exists b, (b < n)%nat /\ forall k, (k < n)%nat -> f b <= f k.
Proof.
  induction n as [|n IH]; intros Hn; [lia|].
  destruct n as [|n].
  - exists 0%nat. split; [lia|]. intros k Hk. replace k with 0%nat by lia. lia.
  - destruct IH as (b & Hb & Hmin); [lia|].
    destruct (Z_le_gt_dec (f b) (f (S n))) as [Hle | Hgt].
    + exists b. split; [lia|]. intros k Hk.
      destruct (Nat.eq_dec k (S n)) as [-> | Hne]; [exact Hle | apply Hmin; lia].
    + exists (S n). split; [lia|]. intros k Hk.
      destruct (Nat.eq_dec k (S n)) as [-> | Hne]; [lia|].
      specialize (Hmin k ltac:(lia)). lia.
Qed.

(** The weighted version of [barycentric]: the cross product with a
    fixed edge is an affine function of the point. *)
Lemma barycentric_edge (q r a b c p : Point) :
  cross q r p * cross a b c
  = cross b c p * cross q r a + cross c a p * cross q r b + cross a b p * cross q r c.
Proof. unfold cross. ring. Qed.

Lemma fan_step (v0 a b : Point) (rest : list Point) (p : Point) :
  isPointInPolygon (v0 :: a :: b :: rest) p
  = xorb (isPointInPolygon [v0; a; b] p) (isPointInPolygon (v0 :: b :: rest) p).
Proof.
  rewrite !isPointInPolygon_crossings.
  rewrite !last_cons_default. cbn [last crossings].
  rewrite (edge_crossed_sym v0 b p).
  destruct (edge_crossed v0 (last rest b) p), (edge_crossed a v0 p), (edge_crossed b a p),
           (edge_crossed b v0 p), (crossings p b rest); reflexivity.
Qed.

Lemma two_vertices (a b p : Point) : isPointInPolygon [a; b] p = false.
Proof.
  rewrite isPointInPolygon_crossings. cbn [last crossings].
  rewrite (edge_crossed_sym a b). destruct (edge_crossed b a p); reflexivity.
Qed.

Lemma skipn_at (l : list Point) (i : nat) :
  (i < length l)%nat -> skipn i l = at_ l i :: skipn (S i) l.
Proof.
  unfold at_. revert i. induction l as [|a l IH]; intros i Hi.
  - cbn in Hi. lia.
  - destruct i as [|i]; [reflexivity|]. cbn [skipn nth]. apply IH. cbn in Hi. lia.
Qed.

Section ConvexPolygon.
Variable hull : list Point.
Hypothesis Hn : (3 <= length hull)%nat.
Hypothesis Hconvex : strictly_convex hull = true.
Variable p : Point.

Lemma pt_cong (k m : nat) :
  (k mod length hull = m mod length hull)%nat -> pt hull k = pt hull m.
Proof. intros E. unfold pt. rewrite E. reflexivity. Qed.

Lemma succ_cong (k m : nat) :
  (k mod length hull = m mod length hull)%nat ->
  (S k mod length hull = S m mod length hull)%nat.
Proof.
  intros E. replace (S k) with (k + 1)%nat by lia. replace (S m) with (m + 1)%nat by lia.
  rewrite (Nat.Div0.add_mod k), (Nat.Div0.add_mod m), E. reflexivity.
Qed.

(** The triangles of the fan from vertex 0 are counter-clockwise. *)
Lemma fan_turn (i : nat) :
  (1 <= i)%nat -> (S i < length hull)%nat ->
  0 < cross (at_ hull 0) (at_ hull i) (at_ hull (S i)).
Proof.
  intros H1 H2.
  rewrite <- (pt_small hull 0), <- (pt_small hull i), <- (pt_small hull (S i)) by lia.
  rewrite <- cross_cycle.
  apply (convex_spec hull Hn Hconvex i 0).
  - rewrite !Nat.mod_small by lia. lia.
  - rewrite !Nat.mod_small by lia. lia.
Qed.

(** *** Points strictly outside *)

Lemma outside_triangle (i : nat) :
  strictly_outside hull p = true ->
  (1 <= i)%nat -> (S i < length hull)%nat ->
  isPointInPolygon [at_ hull 0; at_ hull i; at_ hull (S i)] p = false.
Proof.
  intros Hout H1 H2. apply triangle_outside; [apply fan_turn; assumption|].
  unfold strictly_outside in Hout. apply existsb_exists in Hout.
  destruct Hout as (j & Hj & Hneg). apply in_seq in Hj. apply Z.ltb_lt in Hneg.
  rewrite <- (pt_small hull j) in Hneg by lia.
  replace (at_ hull ((j + 1) mod length hull))
    with (pt hull (S j)) in Hneg by (unfold pt; f_equal; f_equal; lia).
  pose proof (barycentric_edge (pt hull j) (pt hull (S j))
                (at_ hull 0) (at_ hull i) (at_ hull (S i)) p) as E.
  pose proof (fan_turn i H1 H2) as Ht.
  pose proof (height_nonneg hull Hn Hconvex j 0) as G0.
  pose proof (height_nonneg hull Hn Hconvex j i) as Gi.
  pose proof (height_nonneg hull Hn Hconvex j (S i)) as Gs.
  unfold height in G0, Gi, Gs.
  rewrite (pt_small hull 0), (pt_small hull i), (pt_small hull (S i)) in * by lia.
  destruct (Z_lt_le_dec (cross (at_ hull 0) (at_ hull i) p) 0) as [|A1]; [left; assumption|].
  destruct (Z_lt_le_dec (cross (at_ hull i) (at_ hull (S i)) p) 0) as [|A2];
    [right; left; assumption|].
  destruct (Z_lt_le_dec (cross (at_ hull (S i)) (at_ hull 0) p) 0) as [|A3];
    [right; right; assumption|].
  exfalso.
  assert (0 <= cross (at_ hull i) (at_ hull (S i)) p
               * cross (pt hull j) (pt hull (S j)) (at_ hull 0))
    by (apply Z.mul_nonneg_nonneg; assumption).
  assert (0 <= cross (at_ hull (S i)) (at_ hull 0) p
               * cross (pt hull j) (pt hull (S j)) (at_ hull i))
    by (apply Z.mul_nonneg_nonneg; assumption).
  assert (0 <= cross (at_ hull 0) (at_ hull i) p
               * cross (pt hull j) (pt hull (S j)) (at_ hull (S i)))
    by (apply Z.mul_nonneg_nonneg; assumption).
  assert (cross (pt hull j) (pt hull (S j)) p
          * cross (at_ hull 0) (at_ hull i) (at_ hull (S i)) < 0)
    by (apply Z.mul_neg_pos; assumption).
  lia.
Qed.

Lemma outside_fan (d i : nat) :
  strictly_outside hull p = true ->
  (1 <= i)%nat -> (i + d = length hull - 1)%nat ->
  isPointInPolygon (at_ hull 0 :: skipn i hull) p = false.
Proof.
  intros Hout. revert i. induction d as [|d IH]; intros i H1 H2.
  - rewrite (skipn_at hull i) by lia. rewrite skipn_all2 by lia. apply two_vertices.
  - rewrite (skipn_at hull i) by lia. rewrite (skipn_at hull (S i)) by lia.
    rewrite fan_step. rewrite outside_triangle by (assumption || lia).
    rewrite <- (skipn_at hull (S i)) by lia. rewrite (IH (S i)) by lia. reflexivity.
Qed.

Lemma convex_outside :
  strictly_outside hull p = true -> isPointInPolygon hull p = false.
Proof.
  intros Hout.
  pose proof (outside_fan (length hull - 2) 1 Hout ltac:(lia) ltac:(lia)) as H.
  rewrite <- (skipn_at hull 0) in H by lia. exact H.
Qed.

(** *** Points strictly inside *)

Hypothesis Hin : strictly_inside hull p = true.

Lemma inside_edge (k : nat) : 0 < cross (pt hull k) (pt hull (S k)) p.
Proof.
  unfold strictly_inside in Hin. rewrite forallb_forall in Hin.
  assert (Hk : In (k mod length hull)%nat (seq 0 (length hull))).
  { apply in_seq. split; [lia|]. apply Nat.mod_upper_bound. lia. }
  specialize (Hin _ Hk). cbv beta in Hin. apply Z.ltb_lt in Hin.
  rewrite (pt_next hull Hn) in Hin. exact Hin.
Qed.

(** With [p] on the left of every edge, the ray to the right meets
    exactly the edges that run upwards through its height. *)
Lemma crossed_upward (k : nat) :
  edge_crossed (pt hull (S k)) (pt hull k) p = true <-> upward hull p k.
Proof.
  rewrite edge_crossed_spec. pose proof (inside_edge k) as H.
  rewrite (cross_swap_origin (pt hull k) (pt hull (S k))). unfold upward. lia.
Qed.

Lemma upward_unique (k m : nat) :
  upward hull p k -> upward hull p m -> (k mod length hull = m mod length hull)%nat.
Proof.
  intros Uk Um.
  destruct (Nat.eq_dec (k mod length hull)%nat (m mod length hull)%nat) as [|Hne];
    [assumption|]. exfalso. unfold upward in *.
  apply (two_upward_edges (pt hull k) (pt hull (S k)) (pt hull m) (pt hull (S m)) (py p));
    try assumption.
  - apply (convex_spec hull Hn Hconvex k m); [congruence|].
    intros E. apply pt_cong in E. rewrite E in Um. lia.
  - apply (height_nonneg hull Hn Hconvex k (S m)).
  - apply (convex_spec hull Hn Hconvex m k); [congruence|].
    intros E. apply pt_cong in E. rewrite E in Uk. lia.
  - apply (height_nonneg hull Hn Hconvex m (S k)).
Qed.

Lemma corner_turn (k : nat) : 0 < cross (pt hull k) (pt hull (S k)) (pt hull (S (S k))).
Proof.
  apply (convex_spec hull Hn Hconvex k (S (S k))); apply not_eq_sym, mod_distinct; lia.
Qed.

Lemma py_period (k : nat) : py (pt hull (k + length hull)) = py (pt hull k).
Proof. rewrite pt_period by exact Hn. reflexivity. Qed.

(** A vertex strictly below [p] and a vertex strictly above it. *)
Lemma vertex_below : exists k, py (pt hull k) < py p.
Proof.
  destruct (least_value (fun k => py (pt hull k)) (length hull)) as (b & Hb & Hmin); [lia|].
  cbv beta in Hmin.
  assert (Hall : forall k, py (pt hull b) <= py (pt hull k)).
  { intros k. rewrite (pt_cong k (k mod length hull)) by (rewrite Nat.Div0.mod_mod; reflexivity).
    apply Hmin. apply Nat.mod_upper_bound. lia. }
  exists (S (b + length hull - 1)).
  apply (above_lowest (pt hull (b + length hull - 1)) _ (pt hull (S (S (b + length hull - 1))))).
  - apply corner_turn.
  - apply inside_edge.
  - apply inside_edge.
  - replace (S (b + length hull - 1)) with (b + length hull)%nat by lia.
    rewrite py_period. apply Hall.
  - replace (S (b + length hull - 1)) with (b + length hull)%nat by lia.
    rewrite py_period. apply Hall.
Qed.

Lemma vertex_above : exists k, py p < py (pt hull k).
Proof.
  destruct (least_value (fun k => - py (pt hull k)) (length hull)) as (b & Hb & Hmin); [lia|].
  cbv beta in Hmin.
  assert (Hall : forall k, py (pt hull k) <= py (pt hull b)).
  { intros k. rewrite (pt_cong k (k mod length hull)) by (rewrite Nat.Div0.mod_mod; reflexivity).
    assert (k mod length hull < length hull)%nat by (apply Nat.mod_upper_bound; lia).
    specialize (Hmin (k mod length hull)%nat ltac:(assumption)). lia. }
  exists (S (b + length hull - 1)).
  apply (below_highest (pt hull (b + length hull - 1)) _ (pt hull (S (S (b + length hull - 1))))).
  - apply corner_turn.
  - apply inside_edge.
  - apply inside_edge.
  - replace (S (b + length hull - 1)) with (b + length hull)%nat by lia.
    rewrite py_period. apply Hall.
  - replace (S (b + length hull - 1)) with (b + length hull)%nat by lia.
    rewrite py_period. apply Hall.
Qed.

Lemma upward_exists : exists k, upward hull p k.
Proof.
  destruct vertex_below as (k0 & H0), vertex_above as (k1 & H1).
  destruct (first_nonpositive hull Hn (fun k => py p - py (pt hull k) + 1)
              k0 (k1 + k0 * (length hull - 1)))
    as (T & HT & Hbefore & HfT).
  - cbv beta.
    rewrite (pt_cong (k0 + (k1 + k0 * (length hull - 1))) k1); [lia|].
    replace (k0 + (k1 + k0 * (length hull - 1)))%nat with (k1 + k0 * length hull)%nat by nia.
    apply Nat.Div0.mod_add.
  - cbv beta in *. assert (k0 < T)%nat.
    { destruct (Nat.eq_dec T k0) as [-> | Hne]; lia. }
    exists (T - 1)%nat. unfold upward. replace (S (T - 1)) with T by lia.
    specialize (Hbefore (T - 1)%nat ltac:(lia)). lia.
Qed.

(** The loop of [isPointInPolygon], edge by edge: edge [i] of the loop
    joins vertex [i + n - 1] to vertex [i]. *)
Lemma polygon_edges :
  isPointInPolygon hull p
  = parity (map (fun i => edge_crossed (pt hull (S (i + length hull - 1)))
                                       (pt hull (i + length hull - 1)) p)
                (seq 0 (length hull))).
Proof.
  rewrite isPointInPolygon_crossings, crossings_parity. f_equal.
  apply map_ext_in. intros i Hi. apply in_seq in Hi. f_equal.
  - replace (S (i + length hull - 1)) with (i + length hull)%nat by lia.
    rewrite pt_period by exact Hn. rewrite pt_small by lia. reflexivity.
  - destruct i as [|i]; cbn [nth].
    + rewrite <- at_last. rewrite pt_small by lia. f_equal.
    + replace (S i + length hull - 1)%nat with (i + length hull)%nat by lia.
      rewrite pt_period by exact Hn. rewrite pt_small by lia. reflexivity.
Qed.

Lemma convex_inside : isPointInPolygon hull p = true.
Proof.
  rewrite polygon_edges.
  destruct upward_exists as (k & Uk).
  assert (Hi : (S k mod length hull < length hull)%nat) by (apply Nat.mod_upper_bound; lia).
  assert (Hk : forall i, (i < length hull)%nat ->
                 ((i + length hull - 1) mod length hull = k mod length hull)%nat ->
                 i = (S k mod length hull)%nat).
  { intros i Hlt E. apply succ_cong in E.
    replace (S (i + length hull - 1)) with (i + 1 * length hull)%nat in E by lia.
    rewrite Nat.Div0.mod_add, Nat.mod_small in E by lia. exact E. }
  apply (parity_unique _ (length hull) (S k mod length hull)%nat Hi).
  - apply crossed_upward. unfold upward in *.
    assert (E : ((S k mod length hull + length hull - 1) mod length hull
                 = k mod length hull)%nat).
    { replace (S k mod length hull + length hull - 1)%nat
        with ((k + 1) mod length hull + (length hull - 1))%nat by (replace (S k) with (k + 1)%nat by lia; lia).
      rewrite Nat.Div0.add_mod_idemp_l.
      replace (k + 1 + (length hull - 1))%nat with (k + 1 * length hull)%nat by lia.
      apply Nat.Div0.mod_add. }
    rewrite (pt_cong _ _ E). rewrite (pt_cong _ _ (succ_cong _ _ E)). exact Uk.
  - intros j Hj Hc. apply crossed_upward in Hc.
    apply Hk; [exact Hj|]. apply upward_unique; assumption.
Qed.

End ConvexPolygon.

(** X12: on a strictly convex polygon of bounded points listed
    counter-clockwise, [isPointInPolygon] answers [true] at every
    bounded point strictly inside the polygon and [false] at every
    bounded point strictly outside it. *)
Theorem isPointInPolygon_convex (hull : list Point) (p : Point) :
  Forall bounded_point hull -> bounded_point p ->
  (3 <= length hull)%nat -> strictly_convex hull = true ->
  (strictly_inside hull p = true -> isPointInPolygon hull p = true) /\
  (strictly_outside hull p = true -> isPointInPolygon hull p = false).
Proof.
  intros _ _ Hn Hc. split.
  - apply convex_inside; assumption.
  - apply convex_outside; assumption.
Qed.

Lemma isPointInPolygon_convex_witness :
  isPointInPolygon [P 0 0; P 4 0; P 3 3; P 2 4; P 0 5] (P 2 2) = true /\
  isPointInPolygon [P 0 0; P 4 0; P 3 3; P 2 4; P 0 5] (P 4 4) = false.
Proof.
  destruct (isPointInPolygon_convex [P 0 0; P 4 0; P 3 3; P 2 4; P 0 5] (P 2 2))
    as [Hin _];
    [repeat constructor; vm_compute; discriminate | split; vm_compute; discriminate
     | cbn; lia | vm_compute; reflexivity |].
  destruct (isPointInPolygon_convex [P 0 0; P 4 0; P 3 3; P 2 4; P 0 5] (P 4 4))
    as [_ Hout];
    [repeat constructor; vm_compute; discriminate | split; vm_compute; discriminate
     | cbn; lia | vm_compute; reflexivity |].
  split; [apply Hin | apply Hout]; vm_compute; reflexivity.
Defined.
